(** * mountmonitor: folder-deletion watcher and mount reconciliation

    A shallow embedding of [src/Functions.ts], [src/FolderDeletionWatcher.ts]
    and [src/MountMonitor.ts].  Asynchronous code is modelled by explicit
    state passing: every suspension point of the source ([await], a timer,
    a native watch notification) is an event of a step function, and the
    promise reactions queued by a handler run when that handler returns,
    as the JavaScript job queue does. *)

From Stdlib Require Import Ascii String.
From stdpp Require Import base option list strings gmap sorting.

Open Scope string_scope.
Open Scope list_scope.
Open Scope nat_scope.

(** ** Outcomes of the native [stat]/[lstat] primitive and of fallible code *)

(** What [Config.FS.promises.stat] / [lstat] settles with: a [Stats] object,
    of which the code only reads [isDirectory()], or a rejection carrying an
    error code. *)
Inductive StatResult :=
| Stats (isDir : bool)
| StatError (code : string).

(** A JavaScript computation either returns or throws. *)
Inductive outcome (A : Type) :=
| Return (a : A)
| Throw (err : string).
Arguments Return {A} a.
Arguments Throw {A} err.

(** ** Functions.ts *)
Module Functions.

(** [exists( path )]: [true] when [lstat] succeeds, [false] on [ENOENT],
    any other error rethrown. *)
Definition exists_ (r : StatResult) : outcome bool :=
  match r with
  | Stats _ => Return true
  | StatError code => if String.eqb code "ENOENT" then Return false else Throw code
  end.

(** [isDirectory( path )] of Functions.ts, the probe the reconciler uses. *)
Definition isDirectory (r : StatResult) : outcome bool :=
  match r with
  | Stats d => Return d
  | StatError code => if String.eqb code "ENOENT" then Return false else Throw code
  end.

(** [array.indexOf( value )], with [None] for [-1].  The elements are
    taken from a type on which [===] is equality (no [NaN]). *)
Fixpoint indexOf `{EqDecision A} (value : A) (array : list A) : option nat :=
  match array with
  | [] => None
  | x :: array' => if decide (x = value) then Some 0 else S <$> indexOf value array'
  end.

(** [removeFromList( list, value )]: the boolean it returns and the array
    after the call ([list.splice( idx, 1 )] deletes the element at [idx]). *)
Definition removeFromList `{EqDecision A} (array : list A) (value : A) : bool * list A :=
  match indexOf value array with
  | None => (false, array)
  | Some idx => (true, delete idx array)
  end.

(** One call of [sleep( ms, signal )], lines 286-299: the timer of line
    289, the [onAbort] listener of line 291, the promise, and how often the
    awaiting caller was resumed.  [s_signal] is the signal, if one was
    passed, with its [aborted] flag. *)
Record Sleep := {
  s_ms : Z;
  s_signal : option bool;
  s_timeout : bool;     (* the timer is pending *)
  s_onAbort : bool;     (* [onAbort] is registered on the signal *)
  s_settled : bool;     (* the promise is resolved *)
  s_wakeups : nat
}.

Inductive sleep_event :=
| TimeoutFires      (* the timer of line 289 is due *)
| SignalAborts.     (* [abort()] is called on the signal's controller *)

(** [sleep( ms, signal )] up to its [return]. *)
Definition sleep (ms : Z) (signal : option bool) : Sleep :=
  {| s_ms := ms; s_signal := signal; s_timeout := true;
     s_onAbort := match signal with Some _ => true | None => false end;
     s_settled := false; s_wakeups := 0 |}.

(** [resolve()]: the first call settles the promise, resumes the caller and
    runs the reaction of line 292, which exists only when a signal was
    passed and removes [onAbort] from it. *)
Definition sleep_resolve (s : Sleep) : Sleep :=
  if s_settled s then s
  else {| s_ms := s_ms s; s_signal := s_signal s; s_timeout := s_timeout s;
          s_onAbort := false; s_settled := true; s_wakeups := S (s_wakeups s) |}.

Definition sleep_step (s : Sleep) (e : sleep_event) : Sleep :=
  match e with
  | TimeoutFires =>
      if s_timeout s then
        sleep_resolve {| s_ms := s_ms s; s_signal := s_signal s; s_timeout := false;
                         s_onAbort := s_onAbort s; s_settled := s_settled s;
                         s_wakeups := s_wakeups s |}
      else s
  | SignalAborts =>
      match s_signal s with
      | Some false =>
          let s1 := {| s_ms := s_ms s; s_signal := Some true; s_timeout := s_timeout s;
                       s_onAbort := s_onAbort s; s_settled := s_settled s;
                       s_wakeups := s_wakeups s |} in
          if s_onAbort s then
            (* [onAbort], lines 296-299: [clearTimeout( timeout )], [resolve()] *)
            sleep_resolve {| s_ms := s_ms s1; s_signal := s_signal s1; s_timeout := false;
                             s_onAbort := s_onAbort s1; s_settled := s_settled s1;
                             s_wakeups := s_wakeups s1 |}
          else s1
      | _ => s    (* no signal, or one that has aborted before *)
      end
  end.

Definition sleep_run (s : Sleep) (es : list sleep_event) : Sleep :=
  foldl sleep_step s es.

End Functions.

(** ** FolderDeletionWatcher.ts *)
Module FolderDeletionWatcher.

(** [METHODS] *)
Inductive method := INTERVAL | PARENT.

(** [POLLING_INTERVAL], in milliseconds. *)
Definition POLLING_INTERVAL : Z := 5000.

(** The module-private [isDirectory]: [stat(path).then(isDirectory).catch(() => false)]. *)
Definition isDirectory (r : StatResult) : outcome bool :=
  match r with
  | Stats d => Return d
  | StatError _ => Return false
  end.

(** The [cleanup] closures registered on the abort signal: the one of
    [_startParent] closes its [FS.watch] handle, the one of
    [_startInterval] clears its interval timer.  Each also removes itself
    from the signal, which no later code can observe because [stop] drops
    the controller right after [abort()]. *)
Inductive cleanup :=
| CloseWatcher (h : nat)
| ClearInterval (i : nat).

(** A handle returned by [FS.watch( parentPath, listener )]; the listener
    closure captured [filename] and [sharedContext]. *)
Record FSWatcher := {
  w_dir : string;
  w_filename : string;
  w_ctx : nat;
  w_closed : bool
}.

(** Events of the environment, one per task of the event loop. *)
Inductive event :=
| Notify (dir : string) (kind : string) (affectedFile : string)
    (* the native watch primitive reports a change in [dir] *)
| Tick (i : nat)                      (* interval timer [i] fires *)
| ProbeDone (k : nat) (r : StatResult)  (* the [k]-th pending [stat] settles *)
| CallStop                            (* the owner calls [stop()] *)
| CallStart.                          (* the owner calls [start()] *)

(** The calls of the owner, as opposed to the tasks the environment starts. *)
Definition by_owner (e : event) : bool :=
  match e with
  | CallStop | CallStart => true
  | _ => false
  end.

Section Watcher.

(** User callbacks are opaque; the model records which were invoked. *)
Context {CB : Type}.

(** [Path.dirname] and [Path.basename] of Node's path module. *)
Variable dirname : string → string.
Variable basename : string → string.

(** The module constant [METHOD] ([METHODS.PARENT] in the source). *)
Variable METHOD : method.

(** Bound on the depth of [_startParent]'s recursion. *)
Variable budget : nat.

(** The object built by [createSharedContext]: a promise that settles at
    most once, with the reaction [_startParent] attached by [then]. *)
Record SharedContext := {
  resolved : bool;
  reaction : CB       (* the [callback] the reaction will call *)
}.

(** A timer from [setInterval] in [_startInterval]. *)
Record Interval := {
  i_path : string;
  i_callback : CB;
  i_cleared : bool
}.

(** Async functions suspended on [await isDirectory( ... )]. *)
Inductive continuation :=
| KStart                                 (* [start], line 54 *)
| KInterval (path : string) (callback : CB).  (* the interval body, line 71 *)

(** Promise jobs waiting in the microtask queue. *)
Inductive job :=
| Reaction (ctx : nat).

(** One [FolderDeletionWatcher] object together with the closures, native
    handles and pending jobs it owns.  [_abortController] holds the abort
    listeners of the live controller, [None] for [undefined]. *)
Record t := {
  _callback : CB;
  _path : string;
  _abortController : option (list cleanup);
  contexts : list SharedContext;
  watchers : list FSWatcher;
  intervals : list Interval;
  awaiting : list continuation;
  microtasks : list job;
  calls : list CB            (* invocations of user callbacks, oldest first *)
}.

Definition set_abortController (a : option (list cleanup)) (w : t) : t :=
  {| _callback := _callback w; _path := _path w; _abortController := a;
     contexts := contexts w; watchers := watchers w; intervals := intervals w;
     awaiting := awaiting w; microtasks := microtasks w; calls := calls w |}.

Definition set_contexts (c : list SharedContext) (w : t) : t :=
  {| _callback := _callback w; _path := _path w;
     _abortController := _abortController w;
     contexts := c; watchers := watchers w; intervals := intervals w;
     awaiting := awaiting w; microtasks := microtasks w; calls := calls w |}.

Definition set_watchers (ws : list FSWatcher) (w : t) : t :=
  {| _callback := _callback w; _path := _path w;
     _abortController := _abortController w;
     contexts := contexts w; watchers := ws; intervals := intervals w;
     awaiting := awaiting w; microtasks := microtasks w; calls := calls w |}.

Definition set_intervals (ivs : list Interval) (w : t) : t :=
  {| _callback := _callback w; _path := _path w;
     _abortController := _abortController w;
     contexts := contexts w; watchers := watchers w; intervals := ivs;
     awaiting := awaiting w; microtasks := microtasks w; calls := calls w |}.

Definition set_awaiting (ks : list continuation) (w : t) : t :=
  {| _callback := _callback w; _path := _path w;
     _abortController := _abortController w;
     contexts := contexts w; watchers := watchers w; intervals := intervals w;
     awaiting := ks; microtasks := microtasks w; calls := calls w |}.

Definition set_microtasks (js : list job) (w : t) : t :=
  {| _callback := _callback w; _path := _path w;
     _abortController := _abortController w;
     contexts := contexts w; watchers := watchers w; intervals := intervals w;
     awaiting := awaiting w; microtasks := js; calls := calls w |}.

Definition set_calls (cs : list CB) (w : t) : t :=
  {| _callback := _callback w; _path := _path w;
     _abortController := _abortController w;
     contexts := contexts w; watchers := watchers w; intervals := intervals w;
     awaiting := awaiting w; microtasks := microtasks w; calls := cs |}.

(** [signal?.addEventListener( "abort", cleanup )]: nothing is registered
    when [this._abortController] is [undefined]. *)
Definition addAbortListener (c : cleanup) (w : t) : t :=
  match _abortController w with
  | Some ls => set_abortController (Some (ls ++ [c])) w
  | None => w
  end.

Definition close (fw : FSWatcher) : FSWatcher :=
  {| w_dir := w_dir fw; w_filename := w_filename fw; w_ctx := w_ctx fw;
     w_closed := true |}.

Definition clear (iv : Interval) : Interval :=
  {| i_path := i_path iv; i_callback := i_callback iv; i_cleared := true |}.

Definition run_cleanup (w : t) (c : cleanup) : t :=
  match c with
  | CloseWatcher h => set_watchers (alter close h (watchers w)) w
  | ClearInterval i => set_intervals (alter clear i (intervals w)) w
  end.

(** [stop()], lines 43-48: [abort()] runs every registered cleanup, then
    the controller is dropped. *)
Definition stop (w : t) : t :=
  match _abortController w with
  | Some ls => set_abortController None (foldl run_cleanup w ls)
  | None => w
  end.

(** [start()] up to its [await], lines 51-54. *)
Definition start (w : t) : t :=
  match _abortController w with
  | None =>
      set_awaiting (awaiting w ++ [KStart]) (set_abortController (Some []) w)
  | Some _ => w
  end.

(** The constructor (and the static [watch]). *)
Definition watch (path : string) (callback : CB) : t :=
  start {| _callback := callback; _path := path; _abortController := None;
           contexts := []; watchers := []; intervals := [];
           awaiting := []; microtasks := []; calls := [] |}.

(** [_startInterval], lines 69-85. *)
Definition _startInterval (path : string) (callback : CB) (w : t) : t :=
  let statInterval := length (intervals w) in
  let w1 := set_intervals
              (intervals w ++ [{| i_path := path; i_callback := callback;
                                  i_cleared := false |}]) w in
  addAbortListener (ClearInterval statInterval) w1.

(** [_startParent], lines 91-120, with [FS.watch] taken to succeed.  [None]
    only when the recursion budget is used up before [Path.dirname] reaches
    its fixed point. *)
Fixpoint _startParent (n : nat) (path : string) (callback : CB)
    (sharedContext : option nat) (w : t) : option t :=
  match n with
  | O => None
  | S n' =>
      let parentPath := dirname path in
      let filename := basename path in
      if String.eqb path parentPath then Some w
      else
        let '(ctx, w1) :=
          match sharedContext with
          | None =>
              (length (contexts w),
               set_contexts (contexts w ++ [{| resolved := false;
                                               reaction := callback |}]) w)
          | Some c => (c, w)
          end in
        match _startParent n' parentPath callback (Some ctx) w1 with
        | None => None
        | Some w2 =>
            let h := length (watchers w2) in
            let w3 := set_watchers
                        (watchers w2 ++ [{| w_dir := parentPath;
                                            w_filename := filename;
                                            w_ctx := ctx;
                                            w_closed := false |}]) w2 in
            Some (addAbortListener (CloseWatcher h) w3)
        end
  end.

(** [sharedContext.resolve()]: the first call settles the promise and
    queues its reaction, later calls do nothing. *)
Definition resolve (c : nat) (w : t) : t :=
  match contexts w !! c with
  | Some sc =>
      if resolved sc then w
      else set_microtasks (microtasks w ++ [Reaction c])
             (set_contexts
                (<[c := {| resolved := true; reaction := reaction sc |}]>
                   (contexts w)) w)
  | None => w
  end.

(** The reaction of lines 99-102: [this.stop(); callback();]. *)
Definition run_job (w : t) (j : job) : t :=
  match j with
  | Reaction c =>
      match contexts w !! c with
      | Some sc => let w1 := stop w in set_calls (calls w1 ++ [reaction sc]) w1
      | None => w
      end
  end.

(** The microtask queue is emptied when a task returns. *)
Definition drain (w : t) : t :=
  foldl run_job (set_microtasks [] w) (microtasks w).

(** The listener of lines 106-110, run for handle [h]. *)
Definition deliver (dir kind affectedFile : string) (w : t) (h : nat) : t :=
  match watchers w !! h with
  | Some fw =>
      if w_closed fw then w
      else if negb (String.eqb (w_dir fw) dir) then w
      else if String.eqb kind "rename" && String.eqb affectedFile (w_filename fw)
           then drain (resolve (w_ctx fw) w)
           else w
  | None => w
  end.

(** A change in [dir] is reported to every open handle subscribed to it. *)
Definition notify (dir kind affectedFile : string) (w : t) : t :=
  foldl (deliver dir kind affectedFile) w (seq 0 (length (watchers w))).

(** The interval body up to its [await], line 71. *)
Definition tick (i : nat) (w : t) : t :=
  match intervals w !! i with
  | Some iv =>
      if i_cleared iv then w
      else set_awaiting (awaiting w ++ [KInterval (i_path iv) (i_callback iv)]) w
  | None => w
  end.

(** What runs after [await isDirectory( ... )] yields [b]. *)
Definition resume (k : continuation) (b : bool) (w : t) : option t :=
  match k with
  | KStart =>
      if b then
        match METHOD with
        | PARENT => _startParent budget (_path w) (_callback w) None w
        | INTERVAL => Some (_startInterval (_path w) (_callback w) w)
        end
      else Some (stop w)
  | KInterval path callback =>
      if b then let w1 := stop w in Some (set_calls (calls w1 ++ [callback]) w1)
      else Some w
  end.

Definition probeDone (k : nat) (r : StatResult) (w : t) : option t :=
  match awaiting w !! k with
  | Some kont =>
      match isDirectory r with
      | Return b => drain <$> resume kont b (set_awaiting (delete k (awaiting w)) w)
      | Throw _ => Some w
      end
  | None => Some w
  end.

Definition step (w : t) (e : event) : option t :=
  match e with
  | Notify dir kind affectedFile => Some (notify dir kind affectedFile w)
  | Tick i => Some (drain (tick i w))
  | ProbeDone k r => probeDone k r w
  | CallStop => Some (drain (stop w))
  | CallStart => Some (drain (start w))
  end.

Fixpoint run (w : t) (es : list event) : option t :=
  match es with
  | [] => Some w
  | e :: es' =>
      match step w e with
      | Some w' => run w' es'
      | None => None
      end
  end.

(** The directory levels [_startParent] walks through from [path]:
    [path], its parent, ... up to but excluding the fixed point of
    [Path.dirname]. *)
Fixpoint levels (n : nat) (path : string) : list string :=
  match n with
  | O => []
  | S n' =>
      if String.eqb path (dirname path) then []
      else path :: levels n' (dirname path)
  end.

(** [Path.dirname] reaches its fixed point from [path] within [n] steps. *)
Fixpoint reaches_root (n : nat) (path : string) : bool :=
  match n with
  | O => false
  | S n' =>
      if String.eqb path (dirname path) then true
      else reaches_root n' (dirname path)
  end.

(** *** Shapes of the watcher's state, for the proofs *)

(** The handles [_startParent] opens from [path] with shared context [c],
    in the order it opens them: the outermost level first. *)
Fixpoint chain (n : nat) (path : string) (c : nat) : list FSWatcher :=
  match n with
  | O => []
  | S n' =>
      if String.eqb path (dirname path) then []
      else chain n' (dirname path) c
           ++ [{| w_dir := dirname path; w_filename := basename path;
                  w_ctx := c; w_closed := false |}]
  end.

(** Opening a handle and registering its cleanup, lines 106-114. *)
Definition open_handle (w : t) (fw : FSWatcher) : t :=
  addAbortListener (CloseWatcher (length (watchers w)))
    (set_watchers (watchers w ++ [fw]) w).

(** A watcher whose chain is set up and has not fired: one pending
    shared context, every handle open and covered by a cleanup. *)
Definition armed (cb : CB) (w : t) : Prop :=
  contexts w = [{| resolved := false; reaction := cb |}]
  ∧ microtasks w = []
  ∧ calls w = []
  ∧ Forall (λ fw, w_ctx fw = 0 ∧ w_closed fw = false) (watchers w)
  ∧ _abortController w = Some (map CloseWatcher (seq 0 (length (watchers w)))).

(** A watcher that has fired: the callback ran once, every handle is
    closed, nothing is queued, the one shared context is resolved. *)
Definition spent (cb : CB) (w : t) : Prop :=
  calls w = [cb]
  ∧ microtasks w = []
  ∧ Forall (λ fw, w_closed fw = true) (watchers w)
  ∧ contexts w = [{| resolved := true; reaction := cb |}].

(** The events that stand for changes in the file system. *)
Definition is_churn (e : event) : bool :=
  match e with
  | Notify _ _ _ => true
  | _ => false
  end.

(** The notification is a rename of the name of one of [ls] in its parent. *)
Definition reports_removal (ls : list string) (e : event) : bool :=
  match e with
  | Notify dir kind affectedFile =>
      String.eqb kind "rename"
      && existsb (λ A, String.eqb dir (dirname A) && String.eqb affectedFile (basename A)) ls
  | _ => false
  end.

(** What a handle watches: the directory, the name, and whether it is closed. *)
Definition handle_of (A : string) : string * string * bool :=
  (dirname A, basename A, false).

Definition watched_by (fw : FSWatcher) : string * string * bool :=
  (w_dir fw, w_filename fw, w_closed fw).

(** A watcher under the polling strategy once its timer is set up: one
    timer and no handle; the timer is pending and covered by the
    controller's cleanup, or cleared with the controller dropped; the
    functions suspended on a probe are runs of the interval body. *)
Definition polling (w : t) : Prop :=
  contexts w = [] ∧ watchers w = [] ∧ microtasks w = []
  ∧ Forall (λ k, k ≠ KStart) (awaiting w)
  ∧ ∃ iv, intervals w = [iv]
          ∧ ((i_cleared iv = false ∧ _abortController w = Some [ClearInterval 0])
             ∨ (i_cleared iv = true ∧ _abortController w = None)).

End Watcher.

End FolderDeletionWatcher.

(** ** An instance of the path functions

    Node's path module is outside the repository; the watcher is verified
    for any [dirname]/[basename].  This instance, for normalized POSIX paths,
    serves to run the model on concrete inputs. *)
Module PosixPath.

Definition is_slash (c : ascii) : bool := Ascii.eqb c "/"%char.

Fixpoint drop_while (f : ascii → bool) (l : list ascii) : list ascii :=
  match l with
  | [] => []
  | c :: l' => if f c then drop_while f l' else l
  end.

Fixpoint take_while (f : ascii → bool) (l : list ascii) : list ascii :=
  match l with
  | [] => []
  | c :: l' => if f c then c :: take_while f l' else []
  end.

Definition dirname (p : string) : string :=
  let back := rev (list_ascii_of_string p) in
  let rest := drop_while (λ c, negb (is_slash c)) back in
  match drop_while is_slash rest with
  | [] => match rest with [] => "." | _ => "/" end
  | parent => string_of_list_ascii (rev parent)
  end.

Definition basename (p : string) : string :=
  let back := rev (list_ascii_of_string p) in
  string_of_list_ascii (rev (take_while (λ c, negb (is_slash c)) back)).

End PosixPath.

(** ** MountMonitor.ts *)
Module MountMonitor.

Definition UUID_NAMESPACE : string := "6ba7b815-9dad-11d1-80b4-00c04fd430c8".
Definition INTERVAL_LENGTH : Z := 10000.
Definition SORT : bool := true.

(** [process.platform], at the type the source casts it to. *)
Inductive platform := darwin | linux | win32.

(** [IGNORED_MOUNT_POINTS_REGEX]: each regular expression as the test it
    performs on a mount path: [/^$/], [/^\/private\//],
    [/^\/Volumes\/Recovery$/], [/^\/System\//]. *)
Definition IGNORED_MOUNT_POINTS_REGEX (p : platform) : list (string → bool) :=
  match p with
  | darwin => [ String.eqb ""; String.prefix "/private/";
                String.eqb "/Volumes/Recovery"; String.prefix "/System/" ]
  | linux => []
  | win32 => []
  end.

(** A [size] as the provider reports it: a number, or a string (empty when
    no size is known), which is what [String(x) !== ''] tells apart. *)
Inductive size_t :=
| SizeNumber (n : Z)
| SizeString (s : string).

(** [String( x ) !== '']; a number never prints as the empty string. *)
Definition String_nonempty (x : size_t) : bool :=
  match x with
  | SizeNumber _ => true
  | SizeString s => negb (String.eqb s "")
  end.

(** The fields of a [SystemInformation.blockDevices()] record the code reads. *)
Record BlockDevice := {
  dev_name : string;
  dev_label : string;
  dev_fsType : string;
  dev_mount : string;
  dev_physical : string;
  dev_protocol : string;
  dev_removable : bool;
  dev_serial : string;
  dev_size : size_t;
  dev_uuid : string
}.

(** The fields of a [SystemInformation.fsSize()] record the code reads. *)
Record FsSize := {
  fs_fs : string;
  fs_mount : string;
  fs_size : size_t
}.

Record MountPoint := {
  path : string;
  mp_label : string
}.

(** [FileSystem].  [mountpoints] holds the first entry and the rest of the
    array: the code reads [mountpoints[0]] unguarded and only ever builds
    arrays of one entry. *)
Record FileSystem := {
  device : string;
  label : string;
  filesystem : string;
  mount : string;
  mountpoints : MountPoint * list MountPoint;
  protocol : string;
  removable : bool;
  serial : string;
  size : size_t;
  uuid : string
}.

(** [fs.mountpoints[0].path] *)
Definition mountpoints0_path (fs : FileSystem) : string := path (fst (mountpoints fs)).

(** The own property names of [Object.prototype].  Every object literal
    inherits them: [obj[ key ]] for such a key that is no own property of
    [obj] yields the inherited member, not [undefined].  No module is taken
    to add to [Object.prototype]. *)
Definition Object_prototype : list string :=
  [ "constructor"; "__defineGetter__"; "__defineSetter__"; "hasOwnProperty";
    "__lookupGetter__"; "__lookupSetter__"; "isPrototypeOf";
    "propertyIsEnumerable"; "toString"; "valueOf"; "__proto__";
    "toLocaleString" ].

(** What [obj[ key ]] yields for an object literal [obj]. *)
Inductive property (V : Type) :=
| Own (value : V)
| Inherited (member : string)
| Undefined.

Arguments Own {V} value.
Arguments Inherited {V} member.
Arguments Undefined {V}.

(** [obj[ key ]], with [obj] given by its own properties. *)
Definition plain_get {V} (key : string) (obj : gmap string V) : property V :=
  match obj !! key with
  | Some value => Own value
  | None =>
      if bool_decide (key ∈ Object_prototype) then Inherited key else Undefined
  end.

(** [FileSystemEvent], tagged by its [type].  The type declares
    [filesystem] a [FileSystem]; line 214 can also store a member of
    [Object.prototype] there, which is what [RenameInherited] stands for. *)
Inductive FileSystemEvent :=
| Mount (filesystem : FileSystem)
| Unmount (filesystem : FileSystem)
| Rename (filesystem oldFilesystem : FileSystem)
| RenameInherited (member : string) (oldFilesystem : FileSystem).

Definition type (e : FileSystemEvent) : string :=
  match e with
  | Mount _ => "mount"
  | Unmount _ => "unmount"
  | Rename _ _ => "rename"
  | RenameInherited _ _ => "rename"
  end.

(** [event.filesystem], when it is a [FileSystem]. *)
Definition event_filesystem (e : FileSystemEvent) : option FileSystem :=
  match e with
  | Mount fs => Some fs
  | Unmount fs => Some fs
  | Rename fs _ => Some fs
  | RenameInherited _ _ => None
  end.

(** The closure [_onMount] hands to each watcher; it captured [path]. *)
Inductive callback := OnDeleted (path : string).

(** Functions registered on the emitter: the two handlers [start] installs,
    and listeners of other modules ([Config.console.log], the resolver of
    [nextRefresh], subscribers), which cannot reach the module's state. *)
Inductive listener :=
| L_onMount
| L_onUnmount
| L_external (id : nat).

Definition listener_eqb (a b : listener) : bool :=
  match a, b with
  | L_onMount, L_onMount => true
  | L_onUnmount, L_onUnmount => true
  | L_external i, L_external j => Nat.eqb i j
  | _, _ => false
  end.

(** The value of [intervalVar] when set. *)
Inductive Timeout := Timer.

(** A call of [intervalFunction] between its start and its end. *)
Inductive pass :=
| Enumerating
    (* suspended at line 142 *)
| Probing (newState : list FileSystem) (oldFilesystems : list (option FileSystem))
    (* suspended at line 199; [oldFilesystems] are the values line 202 read *)
| Settled.
    (* returned or threw *)

Definition in_progress (p : pass) : bool :=
  match p with
  | Settled => false
  | _ => true
  end.

(** One call of [emit]: the event name and the argument, if any. *)
Definition emission : Type := string * option FileSystemEvent.

(** The module's variables [deletionWatchers], [intervalVar] and
    [filesystemMap], the listeners of the [MountMonitor] emitter, the
    watcher objects [deletionWatchers] refers to, the calls of
    [intervalFunction] in progress, and the trace of emitted events.
    [filesystemMap] keeps its properties in insertion order, the order
    [Object.values] lists them in (mount paths are not array indices). *)
Record monitor := {
  deletionWatchers : gmap string nat;
  intervalVar : option Timeout;
  filesystemMap : list (string * FileSystem);
  listeners : list (string * listener);
  heap : list (@FolderDeletionWatcher.t callback);
  inflight : list pass;
  emitted : list emission
}.

Definition set_deletionWatchers (d : gmap string nat) (m : monitor) : monitor :=
  {| deletionWatchers := d; intervalVar := intervalVar m;
     filesystemMap := filesystemMap m; listeners := listeners m; heap := heap m;
     inflight := inflight m; emitted := emitted m |}.

Definition set_intervalVar (i : option Timeout) (m : monitor) : monitor :=
  {| deletionWatchers := deletionWatchers m; intervalVar := i;
     filesystemMap := filesystemMap m; listeners := listeners m; heap := heap m;
     inflight := inflight m; emitted := emitted m |}.

Definition set_filesystemMap (f : list (string * FileSystem)) (m : monitor) : monitor :=
  {| deletionWatchers := deletionWatchers m; intervalVar := intervalVar m;
     filesystemMap := f; listeners := listeners m; heap := heap m;
     inflight := inflight m; emitted := emitted m |}.

Definition set_listeners (l : list (string * listener)) (m : monitor) : monitor :=
  {| deletionWatchers := deletionWatchers m; intervalVar := intervalVar m;
     filesystemMap := filesystemMap m; listeners := l; heap := heap m;
     inflight := inflight m; emitted := emitted m |}.

Definition set_heap (h : list (@FolderDeletionWatcher.t callback)) (m : monitor) : monitor :=
  {| deletionWatchers := deletionWatchers m; intervalVar := intervalVar m;
     filesystemMap := filesystemMap m; listeners := listeners m; heap := h;
     inflight := inflight m; emitted := emitted m |}.

Definition set_inflight (p : list pass) (m : monitor) : monitor :=
  {| deletionWatchers := deletionWatchers m; intervalVar := intervalVar m;
     filesystemMap := filesystemMap m; listeners := listeners m; heap := heap m;
     inflight := p; emitted := emitted m |}.

Definition set_emitted (e : list emission) (m : monitor) : monitor :=
  {| deletionWatchers := deletionWatchers m; intervalVar := intervalVar m;
     filesystemMap := filesystemMap m; listeners := listeners m; heap := heap m;
     inflight := inflight m; emitted := e |}.

(** A listener either returns or throws, leaving the state it reached. *)
Inductive result :=
| Done (m : monitor)
| Thrown (err : string) (m : monitor).

Definition andThen (r : result) (f : monitor → result) : result :=
  match r with
  | Done m => f m
  | Thrown err m => Thrown err m
  end.

(** *** Objects used as ordered maps *)

(** [obj[ key ]].  The keys of [filesystemMap] are mount paths; a mount
    path is taken not to name a member of [Object.prototype] (an absolute
    path never does), so a key that is no own property reads as
    [undefined]. *)
Fixpoint obj_get {V} (key : string) (obj : list (string * V)) : option V :=
  match obj with
  | [] => None
  | (k, v) :: obj' => if String.eqb k key then Some v else obj_get key obj'
  end.

(** [obj[ key ] = value]: an existing property keeps its place. *)
Fixpoint obj_set {V} (key : string) (value : V) (obj : list (string * V))
    : list (string * V) :=
  match obj with
  | [] => [(key, value)]
  | (k, v) :: obj' =>
      if String.eqb k key then (k, value) :: obj'
      else (k, v) :: obj_set key value obj'
  end.

(** [delete obj[ key ]] *)
Fixpoint obj_delete {V} (key : string) (obj : list (string * V))
    : list (string * V) :=
  match obj with
  | [] => []
  | (k, v) :: obj' =>
      if String.eqb k key then obj' else (k, v) :: obj_delete key obj'
  end.

(** [x !== undefined] *)
Definition is_Some_bool {V} (x : option V) : bool :=
  match x with
  | Some _ => true
  | None => false
  end.

(** [Object.values( obj )] *)
Definition Object_values {V} (obj : list (string * V)) : list V := map snd obj.

(** *** Array.prototype.sort

    The sort is stable; for a comparator that orders the elements
    consistently its result is the one of this insertion sort. *)
Fixpoint sort_insert {A} (cmp : A → A → Z) (x : A) (l : list A) : list A :=
  match l with
  | [] => [x]
  | y :: l' => if (cmp x y <=? 0)%Z then x :: y :: l' else y :: sort_insert cmp x l'
  end.

Definition Array_sort {A} (cmp : A → A → Z) (l : list A) : list A :=
  foldr (sort_insert cmp) [] l.

(** [s.split( sep ).pop()]: what follows the last separator. *)
Definition split_pop (sep : ascii) (s : string) : string :=
  string_of_list_ascii
    (rev (PosixPath.take_while (λ c, negb (Ascii.eqb c sep))
            (rev (list_ascii_of_string s)))).

(** Events of the monitor's event loop, one per task. *)
Inductive mevent :=
| TimerFires
    (* the timer of line 117 *)
| EnumerationDone (p : nat) (devices : list BlockDevice) (filesystems : list FsSize)
    (* the two provider calls of pass [p] have resolved *)
| EnumerationFailed (p : nat)
    (* a provider call of pass [p] has rejected *)
| ProbesDone (p : nat) (lstat : string → StatResult) (latency : nat → nat)
    (* the last [lstat] of pass [p] has settled: [lstat] answers per path,
       [latency k] is when the probe of candidate [k] settled *)
| WatcherTask (ref : nat) (e : FolderDeletionWatcher.event)
    (* a task of the watcher object [ref] *)
| CallStart
| CallStop.

Section Reconciler.

(** Node's path module and the watcher's configuration. *)
Variable dirname : string → string.
Variable basename : string → string.
Variable METHOD : FolderDeletionWatcher.method.
Variable budget : nat.

(** [String.prototype.toUpperCase] and [String.prototype.localeCompare]. *)
Variable toUpperCase : string → string.
Variable localeCompare : string → string → Z.

(** [UUID.v5( name, namespace )], [Path.sep] and [process.platform]. *)
Variable v5 : string → string → string.
Variable sep : ascii.
Variable process_platform : platform.

(** [sortFilesystems], lines 226-246. *)
Definition sortFilesystems (filesystems : list FileSystem) : list FileSystem :=
  if negb SORT then filesystems
  else
    match process_platform with
    | darwin =>
        Array_sort (λ a b,
          let aLabel := if String.eqb (label a) "" then "Untitled" else label a in
          let bLabel := if String.eqb (label b) "" then "Untitled" else label b in
          localeCompare (toUpperCase aLabel) (toUpperCase bLabel)) filesystems
    | _ =>
        Array_sort (λ a b,
          let aPath := mountpoints0_path a in
          let bPath := mountpoints0_path b in
          localeCompare (toUpperCase aPath) (toUpperCase bPath)) filesystems
    end.

(** The getter [state], line 85. *)
Definition state (m : monitor) : list FileSystem :=
  sortFilesystems (Object_values (filesystemMap m)).

(** The method [filesystem( path )], lines 88-98 (the name is taken by the
    field of [FileSystem]). *)
Definition filesystemOf (p : string) (m : monitor) : option FileSystem :=
  foldl (λ R fs,
           if match R with
              | None => true
              | Some r => Nat.ltb (String.length (mountpoints0_path r))
                                  (String.length (mountpoints0_path fs))
              end
           then if String.prefix (mountpoints0_path fs) p then Some fs else R
           else R)
        None (state m).

(** [isMounted], line 100. *)
Definition isMounted (p : string) (m : monitor) : bool :=
  existsb (λ drive, String.eqb (mountpoints0_path drive) p) (state m).

(** [_onMount], lines 58-70: the constructor of the watcher runs [start]
    up to its first [await].  Line 59 throws a [TypeError] when
    [event.filesystem] is a member of [Object.prototype], which has no
    [mountpoints]. *)
Definition _onMount (event : FileSystemEvent) (m : monitor) : result :=
  match event_filesystem event with
  | Some filesystem =>
      let path := mountpoints0_path filesystem in
      let m1 := set_filesystemMap (obj_set path filesystem (filesystemMap m)) m in
      let ref := length (heap m1) in
      Done (set_deletionWatchers (<[path := ref]> (deletionWatchers m1))
              (set_heap (heap m1 ++ [FolderDeletionWatcher.watch path (OnDeleted path)])
                 m1))
  | None => Thrown "TypeError" m
  end.

(** [_onUnmount], lines 77-82: line 78 throws like line 59;
    [deletionWatchers[ path ].stop()] throws a [TypeError] when the path
    has no watcher. *)
Definition _onUnmount (event : FileSystemEvent) (m : monitor) : result :=
  match event_filesystem event with
  | Some filesystem =>
      let path := mountpoints0_path filesystem in
      let m1 := set_filesystemMap (obj_delete path (filesystemMap m)) m in
      match deletionWatchers m1 !! path with
      | Some ref =>
          Done (set_deletionWatchers (delete path (deletionWatchers m1))
                  (set_heap (alter FolderDeletionWatcher.stop ref (heap m1)) m1))
      | None => Thrown "TypeError" m1
      end
  | None => Thrown "TypeError" m
  end.

(** [_onRename], lines 72-75 (no listener is ever registered with it). *)
Definition _onRename (event : FileSystemEvent) (m : monitor) : result :=
  andThen (_onUnmount event m) (_onMount event).

(** Calling one listener with the argument of [emit]. *)
Definition call (arg : option FileSystemEvent) (l : listener) (m : monitor) : result :=
  match l with
  | L_external _ => Done m
  | L_onMount =>
      match arg with
      | Some event => _onMount event m
      | None => Thrown "TypeError" m
      end
  | L_onUnmount =>
      match arg with
      | Some event => _onUnmount event m
      | None => Thrown "TypeError" m
      end
  end.

Definition listenersOf (name : string) (m : monitor) : list listener :=
  map snd (List.filter (λ nl, String.eqb (fst nl) name) (listeners m)).

(** [emit( name, arg )]: the listeners registered for [name] when the
    call starts run in registration order; a throw ends the call. *)
Definition emit (name : string) (arg : option FileSystemEvent) (m : monitor) : result :=
  foldl (λ r l, andThen r (call arg l))
        (Done (set_emitted (emitted m ++ [(name, arg)]) m))
        (listenersOf name m).

(** [on( name, l )] *)
Definition on (name : string) (l : listener) (m : monitor) : monitor :=
  set_listeners (listeners m ++ [(name, l)]) m.

Fixpoint remove_first (name : string) (l : listener)
    (ls : list (string * listener)) : list (string * listener) :=
  match ls with
  | [] => []
  | nl :: ls' =>
      if String.eqb (fst nl) name && listener_eqb (snd nl) l then ls'
      else nl :: remove_first name l ls'
  end.

(** [removeListener( name, l )]: the most recently added instance goes. *)
Definition removeListener (name : string) (l : listener) (m : monitor) : monitor :=
  set_listeners (rev (remove_first name l (rev (listeners m)))) m.

(** [intervalFunction] up to its first [await], line 142. *)
Definition beginPass (m : monitor) : monitor :=
  set_inflight (inflight m ++ [Enumerating]) m.

(** [start], lines 108-119 (logging left out). *)
Definition start (m : monitor) : monitor :=
  match intervalVar m with
  | None =>
      set_intervalVar (Some Timer)
        (beginPass
           (on "unmount" L_onUnmount
              (on "onRename" L_onMount
                 (on "mount" L_onMount m))))
  | Some _ => m
  end.

(** [stop], lines 121-131 (logging left out). *)
Definition stop (m : monitor) : monitor :=
  match intervalVar m with
  | Some _ =>
      set_intervalVar None
        (removeListener "unmount" L_onUnmount
           (removeListener "onRename" L_onMount
              (removeListener "mount" L_onMount m)))
  | None => m
  end.

(** Lines 150 and 157: no ignore pattern matches the mount path. *)
Definition not_ignored (mnt : string) : bool :=
  forallb (λ regEx, negb (regEx mnt)) (IGNORED_MOUNT_POINTS_REGEX process_platform).

(** [filteredDevices], lines 149-153. *)
Definition filteredDevices (devices : list BlockDevice) : list BlockDevice :=
  List.filter (λ dev, negb (String.eqb (dev_protocol dev) "Disk Image"))
    (List.filter (λ dev, negb (String.eqb (dev_physical dev) "Network"))
       (List.filter (λ dev, String_nonempty (dev_size dev))
          (List.filter (λ dev, not_ignored (dev_mount dev)) devices))).

(** [filteredFileSystems], lines 156-159. *)
Definition filteredFileSystems (devices : list BlockDevice)
    (filesystems : list FsSize) : list FsSize :=
  List.filter
    (λ fs, Nat.eqb (length (List.filter
                              (λ dev, String.eqb (dev_mount dev) (fs_mount fs))
                              (filteredDevices devices))) 0)
    (List.filter (λ fs, String_nonempty (fs_size fs))
       (List.filter (λ fs, not_ignored (fs_mount fs)) filesystems)).

(** Lines 163-174. *)
Definition ofDevice (device : BlockDevice) : FileSystem :=
  {| device := dev_name device;
     label := dev_label device;
     filesystem := dev_fsType device;
     mount := dev_mount device;
     mountpoints := ({| path := dev_mount device; mp_label := dev_label device |}, []);
     protocol := dev_protocol device;
     removable := dev_removable device;
     serial := dev_serial device;
     size := dev_size device;
     uuid := dev_uuid device |}.

(** Lines 175-186. *)
Definition ofFsSize (fs : FsSize) : FileSystem :=
  {| device := fs_fs fs;
     label := split_pop sep (fs_fs fs);
     filesystem := "SMB";
     mount := fs_mount fs;
     mountpoints := ({| path := fs_mount fs;
                        mp_label := split_pop sep (fs_fs fs) |}, []);
     protocol := "SMB";
     removable := true;
     serial := "";
     size := fs_size fs;
     uuid := v5 (fs_fs fs) UUID_NAMESPACE |}.

(** [unsortedState], lines 162-187. *)
Definition unsortedState (devices : list BlockDevice) (filesystems : list FsSize)
    : list FileSystem :=
  map ofDevice (filteredDevices devices)
  ++ map ofFsSize (filteredFileSystems devices filesystems).

(** [newState], line 191. *)
Definition newState (devices : list BlockDevice) (filesystems : list FsSize)
    : list FileSystem :=
  sortFilesystems (unsortedState devices filesystems).

(** [uuidFilesystemMap], line 197, by its own properties: later entries
    overwrite earlier ones.  It is an object literal, read with
    [plain_get]. *)
Definition uuidFilesystemMap (candidates : list FileSystem) : gmap string FileSystem :=
  foldl (λ R fs, <[uuid fs := fs]> R) ∅ candidates.

(** Line 202, read for every candidate before the first probe settles. *)
Definition oldFilesystems (candidates : list FileSystem) (m : monitor)
    : list (option FileSystem) :=
  map (λ fs, obj_get (mountpoints0_path fs) (filesystemMap m)) candidates.

(** The order in which the probes of [n] candidates settle: by latency,
    probes of equal latency in the order they were issued. *)
Definition completionOrder (latency : nat → nat) (n : nat) : list nat :=
  Array_sort (λ i j, Z.of_nat (latency i) - Z.of_nat (latency j))%Z (seq 0 n).

(** Lines 199-207: the continuations of line 203 run in the order the
    probes settle, each pushing at most one event; the first rejected
    probe rejects [Promise.all] and with it [intervalFunction]. *)
Fixpoint settle (candidates : list FileSystem) (olds : list (option FileSystem))
    (lstat : string → StatResult) (order : list nat)
    (events : list FileSystemEvent) : outcome (list FileSystemEvent) :=
  match order with
  | [] => Return events
  | k :: order' =>
      match candidates !! k, olds !! k with
      | Some fs, Some oldFilesystem =>
          match Functions.isDirectory (lstat (mountpoints0_path fs)) with
          | Return b =>
              settle candidates olds lstat order'
                (if b && negb (is_Some_bool oldFilesystem)
                 then events ++ [Mount fs] else events)
          | Throw err => Throw err
          end
      | _, _ => settle candidates olds lstat order' events
      end
  end.

Definition mountEvents (candidates : list FileSystem)
    (olds : list (option FileSystem)) (lstat : string → StatResult)
    (latency : nat → nat) : outcome (list FileSystemEvent) :=
  settle candidates olds lstat (completionOrder latency (length candidates)) [].

(** Lines 209-216.  A member of [Object.prototype] has no [label], and
    [undefined] differs from the label of the known volume, a string. *)
Definition diffEvents (uuidMap : gmap string FileSystem) (olds : list FileSystem)
    : list FileSystemEvent :=
  omap (λ oldFilesystem,
          match plain_get (uuid oldFilesystem) uuidMap with
          | Undefined => Some (Unmount oldFilesystem)
          | Own fs =>
              if negb (String.eqb (label fs) (label oldFilesystem))
              then Some (Rename fs oldFilesystem)
              else None
          | Inherited member => Some (RenameInherited member oldFilesystem)
          end) olds.

(** Lines 218-221. *)
Definition emitEvents (events : list FileSystemEvent) (m : monitor) : result :=
  foldl (λ r event,
           andThen r (λ m1, andThen (emit (type event) (Some event) m1)
                                    (emit "all" (Some event))))
        (Done m) events.

(** Lines 209-223: what runs once [Promise.all] of line 199 resolved. *)
Definition finishPass (candidates : list FileSystem)
    (mounted : list FileSystemEvent) (m : monitor) : result :=
  let events := mounted ++ diffEvents (uuidFilesystemMap candidates) (state m) in
  andThen (andThen (emitEvents events m) (emit "changed" None))
          (emit "refresh" None).

Definition set_pass (p : nat) (ph : pass) (m : monitor) : monitor :=
  set_inflight (<[p := ph]> (inflight m)) m.

(** Lines 146-199 of pass [p].  With no candidate, [Promise.all( [] )]
    resolves at once and the pass runs to its end in the same task. *)
Definition enumerationDone (p : nat) (devices : list BlockDevice)
    (filesystems : list FsSize) (m : monitor) : result :=
  match inflight m !! p with
  | Some Enumerating =>
      let candidates := newState devices filesystems in
      match candidates with
      | [] => finishPass [] [] (set_pass p Settled m)
      | _ => Done (set_pass p (Probing candidates (oldFilesystems candidates m)) m)
      end
  | _ => Done m
  end.

(** Lines 199-223 of pass [p]. *)
Definition probesDone (p : nat) (lstat : string → StatResult)
    (latency : nat → nat) (m : monitor) : result :=
  match inflight m !! p with
  | Some (Probing candidates olds) =>
      match mountEvents candidates olds lstat latency with
      | Return mounted => finishPass candidates mounted (set_pass p Settled m)
      | Throw err => Thrown err (set_pass p Settled m)
      end
  | _ => Done m
  end.

(** One call of [intervalFunction] from start to end, no other task in
    between. *)
Definition intervalFunction (devices : list BlockDevice)
    (filesystems : list FsSize) (lstat : string → StatResult)
    (latency : nat → nat) (m : monitor) : result :=
  let p := length (inflight m) in
  andThen (enumerationDone p devices filesystems (beginPass m))
          (probesDone p lstat latency).

(** The [events] array of such a call when it reaches line 218. *)
Definition passEvents (devices : list BlockDevice) (filesystems : list FsSize)
    (lstat : string → StatResult) (latency : nat → nat) (m : monitor)
    : outcome (list FileSystemEvent) :=
  let candidates := newState devices filesystems in
  match mountEvents candidates (oldFilesystems candidates m) lstat latency with
  | Return mounted =>
      Return (mounted ++ diffEvents (uuidFilesystemMap candidates) (state m))
  | Throw err => Throw err
  end.

(** The closure of lines 61-69 with its captured [path]. *)
Definition onDeleted (p : string) (m : monitor) : result :=
  match obj_get p (filesystemMap m) with
  | Some fs =>
      let event := Unmount fs in
      andThen (andThen (emit "unmount" (Some event) m) (emit "all" (Some event)))
              (emit "change" None)
  | None => Done m
  end.

Definition state_of (r : result) : monitor :=
  match r with
  | Done m => m
  | Thrown _ m => m
  end.

Definition runCallback (m : monitor) (cb : callback) : monitor :=
  match cb with
  | OnDeleted p => state_of (onDeleted p m)
  end.

(** A task of watcher object [ref]; only the monitor itself calls a
    watcher's [stop], in [_onUnmount].  The callbacks the watcher invoked
    run against the monitor; they touch a watcher object only through
    [stop], which the invoking watcher has already gone through, so
    running them once the watcher's own step is stored changes nothing. *)
Definition watcherTask (ref : nat) (e : FolderDeletionWatcher.event)
    (m : monitor) : option monitor :=
  if FolderDeletionWatcher.by_owner e then Some m
  else
    match heap m !! ref with
    | Some w =>
        match FolderDeletionWatcher.step dirname basename METHOD budget w e with
        | Some w' =>
            let fired := drop (length (FolderDeletionWatcher.calls w))
                              (FolderDeletionWatcher.calls w') in
            Some (foldl runCallback (set_heap (<[ref := w']> (heap m)) m) fired)
        | None => None
        end
    | None => Some m
    end.

Definition mstep (m : monitor) (e : mevent) : option monitor :=
  match e with
  | TimerFires =>
      Some (match intervalVar m with
            | Some _ => beginPass m
            | None => m
            end)
  | EnumerationDone p devices filesystems =>
      Some (state_of (enumerationDone p devices filesystems m))
  | EnumerationFailed p =>
      Some (match inflight m !! p with
            | Some Enumerating => set_pass p Settled m
            | _ => m
            end)
  | ProbesDone p lstat latency => Some (state_of (probesDone p lstat latency m))
  | WatcherTask ref e => watcherTask ref e m
  | CallStart => Some (start m)
  | CallStop => Some (stop m)
  end.

Fixpoint mrun (m : monitor) (es : list mevent) : option monitor :=
  match es with
  | [] => Some m
  | e :: es' =>
      match mstep m e with
      | Some m' => mrun m' es'
      | None => None
      end
  end.

(** The module's variables before line 135. *)
Definition empty : monitor :=
  {| deletionWatchers := ∅; intervalVar := None; filesystemMap := [];
     listeners := []; heap := []; inflight := []; emitted := [] |}.

(** The monitor once the module is loaded, lines 135-137; listener [0]
    is [Config.console.log]. *)
Definition loaded : monitor := on "all" (L_external 0) (start empty).

(** The number of calls of [intervalFunction] in progress. *)
Definition passesInProgress (m : monitor) : nat :=
  length (List.filter in_progress (inflight m)).

(** *** Shapes of the monitor's state and of a pass, for the proofs *)

(** The key [sortFilesystems] compares on, and the order it sorts into. *)
Definition sortKey (fs : FileSystem) : string :=
  match process_platform with
  | darwin => if String.eqb (label fs) "" then "Untitled" else label fs
  | _ => mountpoints0_path fs
  end.

Definition platform_le (a b : FileSystem) : Prop :=
  (localeCompare (toUpperCase (sortKey a)) (toUpperCase (sortKey b)) ≤ 0)%Z.

(** [localeCompare] never ranks two strings each after the other. *)
Definition comparator_total : Prop :=
  ∀ a b : string, (0 < localeCompare a b)%Z → (localeCompare b a ≤ 0)%Z.

(** The handlers registered by [start], in registration order. *)
Definition handlers : list (string * listener) :=
  [("mount", L_onMount); ("onRename", L_onMount); ("unmount", L_onUnmount)].

Definition internal (nl : string * listener) : bool :=
  match snd nl with
  | L_external _ => false
  | _ => true
  end.

(** The monitor is started: the listeners that touch the module's state are
    the ones [start] registered. *)
Definition installed (m : monitor) : Prop :=
  List.filter internal (listeners m) = handlers.

(** The monitor is stopped: no listener touches the module's state. *)
Definition uninstalled (m : monitor) : Prop :=
  List.filter internal (listeners m) = [].

(** The invariant of the two maps: every volume is filed under its own
    mount path, no mount path twice, and every filed mount path has a
    deletion watcher. *)
Definition consistent (m : monitor) : Prop :=
  Forall (λ kv, mountpoints0_path (snd kv) = fst kv) (filesystemMap m)
  ∧ NoDup (map fst (filesystemMap m))
  ∧ ∀ k, k ∈ map fst (filesystemMap m) → is_Some (deletionWatchers m !! k).

(** What holds of the monitor between any two tasks. *)
Definition invariant (m : monitor) : Prop :=
  consistent m
  ∧ match intervalVar m with
    | Some _ => installed m
    | None => uninstalled m
    end.

(** The two maps are in step: beyond [consistent], every watched path has a
    volume on file, and the watcher filed under a path is a watcher object
    on that path whose callback is the closure for that path. *)
Definition in_step (m : monitor) : Prop :=
  consistent m
  ∧ (∀ k, is_Some (deletionWatchers m !! k) → k ∈ map fst (filesystemMap m))
  ∧ (∀ k ref, deletionWatchers m !! k = Some ref →
       ∃ w, heap m !! ref = Some w
            ∧ FolderDeletionWatcher._path w = k
            ∧ FolderDeletionWatcher._callback w = OnDeleted k).

(** What the handlers of an event do to [filesystemMap]. *)
Definition applyEvent (F : list (string * FileSystem)) (event : FileSystemEvent)
    : list (string * FileSystem) :=
  match event with
  | Mount fs => obj_set (mountpoints0_path fs) fs F
  | Unmount fs => obj_delete (mountpoints0_path fs) F
  | Rename _ _ => F
  | RenameInherited _ _ => F
  end.

(** The two calls of [emit] per event, lines 219-220. *)
Definition emissions (events : list FileSystemEvent) : list emission :=
  flat_map (λ event, [(type event, Some event); ("all", Some event)]) events.

Definition unmountPaths (events : list FileSystemEvent) : list string :=
  omap (λ event, match event with
                 | Unmount fs => Some (mountpoints0_path fs)
                 | _ => None
                 end) events.

(** [lstat] fails only with "not found". *)
Definition no_io_error (lstat : string → StatResult) : Prop :=
  ∀ p code, lstat p = StatError code → code = "ENOENT".

(** The probe of line 203 confirms a directory at the candidate's path. *)
Definition is_dir (lstat : string → StatResult) (fs : FileSystem) : bool :=
  match lstat (mountpoints0_path fs) with
  | Stats d => d
  | StatError _ => false
  end.

(** The candidate's mount path is not yet in [filesystemMap]. *)
Definition is_new (F : list (string * FileSystem)) (fs : FileSystem) : bool :=
  negb (is_Some_bool (obj_get (mountpoints0_path fs) F)).

(** The candidates in the order their probes settled. *)
Definition settled (candidates : list FileSystem) (latency : nat → nat)
    : list FileSystem :=
  omap (λ k, candidates !! k) (completionOrder latency (length candidates)).

(** The probes settle in the order they were issued. *)
Definition in_issue_order (latency : nat → nat) : Prop :=
  ∀ i j : nat, (i ≤ j)%nat → (latency i ≤ latency j)%nat.

End Reconciler.

End MountMonitor.


(** ** An instance of the string and identity functions

    [toUpperCase], [localeCompare] and [UUID.v5] belong to the platform and
    to a library; the reconciler is verified for any such functions.  This
    instance (ASCII upper case, code-unit order, a tagged name in place of
    the hash) serves to run the model on concrete inputs. *)
Module AsciiLocale.

Definition upper_ascii (c : ascii) : ascii :=
  let n := nat_of_ascii c in
  if Nat.leb 97 n && Nat.leb n 122 then ascii_of_nat (n - 32) else c.

Fixpoint toUpperCase (s : string) : string :=
  match s with
  | EmptyString => EmptyString
  | String c s' => String (upper_ascii c) (toUpperCase s')
  end.

Definition localeCompare (a b : string) : Z :=
  match String.compare a b with
  | Lt => (-1)%Z
  | Eq => 0%Z
  | Gt => 1%Z
  end.

Definition v5 (name namespace : string) : string :=
  String.append namespace (String.append ":" name).

End AsciiLocale.

(** ** Concrete inputs *)
Module Examples.

Import MountMonitor.

Definition disk (name lbl mnt id : string) : BlockDevice :=
  {| dev_name := name; dev_label := lbl; dev_fsType := "apfs"; dev_mount := mnt;
     dev_physical := "SSD"; dev_protocol := "USB"; dev_removable := true;
     dev_serial := "S1"; dev_size := SizeNumber 1000; dev_uuid := id |}.

(** The volume of the spec's rename example, before and after the relabel. *)
Definition backup : BlockDevice := disk "disk2s1" "Backup" "/Volumes/Backup" "u1".
Definition myBackup : BlockDevice := disk "disk2s1" "MyBackup" "/Volumes/Backup" "u1".

(** Another volume taking over the same mount path. *)
Definition other : BlockDevice := disk "disk3s1" "Backup" "/Volumes/Backup" "u9".

Definition alpha : BlockDevice := disk "disk4s1" "alpha" "/Volumes/alpha" "u2".

(** Every path is a directory. *)
Definition allDirectories (p : string) : StatResult := Stats true.

(** Probes settle in the order issued, or in the reverse order. *)
Definition inOrder (k : nat) : nat := 0.
Definition reversed (k : nat) : nat := 10 - k.

(** The reconciler on darwin with the instance functions. *)
Definition intervalFunction :=
  MountMonitor.intervalFunction AsciiLocale.toUpperCase AsciiLocale.localeCompare
    AsciiLocale.v5 "/"%char darwin.
Definition passEvents :=
  MountMonitor.passEvents AsciiLocale.toUpperCase AsciiLocale.localeCompare
    AsciiLocale.v5 "/"%char darwin.
Definition mrun :=
  MountMonitor.mrun PosixPath.dirname PosixPath.basename FolderDeletionWatcher.PARENT 8
    AsciiLocale.toUpperCase AsciiLocale.localeCompare AsciiLocale.v5 "/"%char darwin.

(** The monitor after the module's first pass found nothing mounted. *)
Definition idle : monitor :=
  state_of (enumerationDone AsciiLocale.toUpperCase AsciiLocale.localeCompare
              AsciiLocale.v5 "/"%char darwin 0 [] [] loaded).

(** The monitor after a pass that found [backup]. *)
Definition withBackup : monitor :=
  state_of (intervalFunction [backup] [] allDirectories inOrder idle).

(** A volume whose identity names a member of [Object.prototype], and the
    monitor after a pass that found it. *)
Definition odd : BlockDevice := disk "disk7s1" "Odd" "/Volumes/Odd" "constructor".

Definition withOdd : monitor :=
  state_of (intervalFunction [odd] [] allDirectories inOrder idle).

(** The same once the first probe of the watcher on [backup]'s mount path
    has confirmed the directory. *)
Definition watchingBackup : monitor :=
  default withBackup
    (mrun withBackup
       [WatcherTask 0 (FolderDeletionWatcher.ProbeDone 0 (Stats true))]).

End Examples.
(** * Properties *)

Module FDW := FolderDeletionWatcher.
Module MM := MountMonitor.

(** ** The existence probes *)

(** The claim read on the watcher's private probe: it would have to rethrow
    a permission error, and returns [false] instead. *)
Lemma watcher_probe_swallows_errors :
  ¬ (∀ code : string, code ≠ "ENOENT" →
       FolderDeletionWatcher.isDirectory (StatError code) = Throw code).
Proof.
  intros H. specialize (H "EACCES"). cbn in H.
  assert (Hne : "EACCES" ≠ "ENOENT") by discriminate.
  specialize (H Hne). discriminate H.
Qed.

(** C9 (amended).  The probe of Functions.ts, which the reconciler uses,
    answers [false] for a missing path without throwing, answers what
    [isDirectory()] says when [lstat] succeeds, and rethrows every other
    failure; the private probe of the deletion watcher answers [false] for
    every failure of [stat], whatever its code, and never throws. *)
Theorem isDirectory_not_found_and_failures (code : string) (d : bool) :
  code ≠ "ENOENT" →
  Functions.isDirectory (StatError "ENOENT") = Return false
  ∧ Functions.isDirectory (Stats d) = Return d
  ∧ Functions.isDirectory (StatError code) = Throw code
  ∧ FolderDeletionWatcher.isDirectory (Stats d) = Return d
  ∧ FolderDeletionWatcher.isDirectory (StatError "ENOENT") = Return false
  ∧ FolderDeletionWatcher.isDirectory (StatError code) = Return false.
Proof.
  intros Hcode. repeat split; try reflexivity.
  unfold Functions.isDirectory.
  destruct (String.eqb code "ENOENT") eqn:E; [|reflexivity].
  apply String.eqb_eq in E. contradiction.
Qed.

Lemma isDirectory_not_found_and_failures_witness :
  Functions.isDirectory (StatError "EACCES") = Throw "EACCES"
  ∧ FolderDeletionWatcher.isDirectory (StatError "EACCES") = Return false.
Proof.
  assert (Hne : "EACCES" ≠ "ENOENT") by discriminate.
  pose proof (isDirectory_not_found_and_failures "EACCES" true Hne) as H.
  split; [apply H | apply H].
Defined.
(** ** The deletion watcher *)

Section WatcherFacts.

Context {CB : Type}.
Variable dirname : string → string.
Variable basename : string → string.
Variable budget : nat.

Abbreviation t := (@FDW.t CB).
Abbreviation _startParent := (FDW._startParent dirname basename).
Abbreviation chain := (FDW.chain dirname basename).
Abbreviation levels := (FDW.levels dirname).
Abbreviation reaches_root := (FDW.reaches_root dirname).
Abbreviation run := (FDW.run dirname basename FDW.PARENT budget).
Abbreviation step := (FDW.step dirname basename FDW.PARENT budget).

(** [stop] twice is [stop] once. *)
Lemma stop_idempotent (w : t) : FDW.stop (FDW.stop w) = FDW.stop w.
Proof.
  unfold FDW.stop at 2 3. destruct (FDW._abortController w) eqn:E.
  - reflexivity.
  - unfold FDW.stop. rewrite E. reflexivity.
Qed.

Lemma stop_drops_controller (w : t) : FDW._abortController (FDW.stop w) = None.
Proof.
  unfold FDW.stop. destruct (FDW._abortController w) eqn:E; [reflexivity | exact E].
Qed.

(** With a shared context at hand, [_startParent] opens the handles of
    [chain] one after the other. *)
Lemma startParent_chain (n : nat) :
  ∀ (path : string) (cb : CB) (c : nat) (w : t),
    reaches_root n path = true →
    _startParent n path cb (Some c) w = Some (foldl FDW.open_handle w (chain n path c)).
Proof.
  induction n as [|n IH]; intros path cb c w Hr; [discriminate|].
  cbn [FDW._startParent FDW.chain FDW.reaches_root] in *.
  destruct (String.eqb path (dirname path)); [reflexivity|].
  rewrite (IH _ _ _ _ Hr). rewrite foldl_app. reflexivity.
Qed.

(** Without one, it first creates the context, unless [path] is the root. *)
Lemma startParent_fresh (n : nat) (path : string) (cb : CB) (w : t) :
  reaches_root n path = true →
  String.eqb path (dirname path) = false →
  _startParent n path cb None w
  = Some (foldl FDW.open_handle
            (FDW.set_contexts
               (FDW.contexts w ++ [{| FDW.resolved := false; FDW.reaction := cb |}]) w)
            (chain n path (length (FDW.contexts w)))).
Proof.
  destruct n as [|n]; [discriminate|]. intros Hr Hne.
  cbn [FDW._startParent FDW.chain FDW.reaches_root] in *. rewrite Hne in *.
  rewrite (startParent_chain _ _ _ _ _ Hr). rewrite foldl_app. reflexivity.
Qed.

Lemma open_handles_fields (ws : list FDW.FSWatcher) :
  ∀ w : t,
    FDW.watchers (foldl FDW.open_handle w ws) = FDW.watchers w ++ ws
    ∧ FDW.contexts (foldl FDW.open_handle w ws) = FDW.contexts w
    ∧ FDW.microtasks (foldl FDW.open_handle w ws) = FDW.microtasks w
    ∧ FDW.calls (foldl FDW.open_handle w ws) = FDW.calls w
    ∧ FDW._abortController (foldl FDW.open_handle w ws)
      = (λ ls, ls ++ map FDW.CloseWatcher (seq (length (FDW.watchers w)) (length ws)))
          <$> FDW._abortController w.
Proof.
  induction ws as [|fw ws IH]; intros w.
  - cbn. rewrite !app_nil_r. repeat split.
    destruct (FDW._abortController w); cbn; [rewrite app_nil_r|]; reflexivity.
  - cbn [foldl]. destruct (IH (FDW.open_handle w fw)) as (Hw & Hc & Hm & Hcl & Ha).
    rewrite Hw, Hc, Hm, Hcl, Ha. clear IH Hw Hc Hm Hcl Ha.
    unfold FDW.open_handle, FDW.addAbortListener. cbn.
    destruct (FDW._abortController w) as [ls|] eqn:E; cbn; rewrite ?E; cbn;
      rewrite ?length_app; cbn; rewrite <- ?app_assoc; cbn;
      repeat split; try reflexivity.
    replace (length (FDW.watchers w) + 1) with (S (length (FDW.watchers w))) by lia.
    reflexivity.
Qed.

Lemma chain_fresh (n : nat) :
  ∀ (path : string) (c : nat),
    Forall (λ fw, FDW.w_ctx fw = c ∧ FDW.w_closed fw = false) (chain n path c).
Proof.
  induction n as [|n IH]; intros path c; cbn; [constructor|].
  destruct (String.eqb path (dirname path)); [constructor|].
  apply Forall_app. split; [apply IH|]. repeat constructor.
Qed.

(** Every level has its handle: the one on its parent, for its own name. *)
Lemma chain_covers (n : nat) :
  ∀ (path A : string) (c : nat),
    A ∈ levels n path →
    ∃ fw, fw ∈ chain n path c
          ∧ FDW.w_dir fw = dirname A ∧ FDW.w_filename fw = basename A
          ∧ FDW.w_closed fw = false.
Proof.
  induction n as [|n IH]; intros path A c HA; cbn in *.
  - apply elem_of_nil in HA. contradiction.
  - destruct (String.eqb path (dirname path)).
    + apply elem_of_nil in HA. contradiction.
    + apply elem_of_cons in HA. destruct HA as [->|HA].
      * eexists. split; [apply elem_of_app; right; apply list_elem_of_singleton; reflexivity|].
        cbn. auto.
      * destruct (IH _ _ c HA) as (fw & Hin & H). exists fw. split; [|exact H].
        apply elem_of_app. left. exact Hin.
Qed.


Lemma close_all (hs : list nat) :
  ∀ (ws : list FDW.FSWatcher) (i : nat),
    i < length ws →
    (i ∈ hs ∨ ∃ fw, ws !! i = Some fw ∧ FDW.w_closed fw = true) →
    ∃ fw, foldl (λ ws h, alter FDW.close h ws) ws hs !! i = Some fw
          ∧ FDW.w_closed fw = true.
Proof.
  induction hs as [|h hs IH]; intros ws i Hi H; cbn.
  - destruct H as [H|H]; [apply elem_of_nil in H; contradiction | exact H].
  - apply IH; [rewrite length_alter; exact Hi|].
    destruct (decide (i = h)) as [->|Hne].
    + right. destruct (lookup_lt_is_Some_2 ws h Hi) as [fw Hfw].
      exists (FDW.close fw). split; [|reflexivity].
      rewrite list_lookup_alter_eq, Hfw. reflexivity.
    + destruct H as [H|(fw & Hfw & Hc)].
      * left. apply elem_of_cons in H. destruct H; [contradiction | assumption].
      * right. exists fw. split; [|exact Hc].
        rewrite list_lookup_alter_ne by congruence. exact Hfw.
Qed.

Lemma cleanups_fields (hs : list nat) :
  ∀ w : t,
    FDW.watchers (foldl FDW.run_cleanup w (map FDW.CloseWatcher hs))
    = foldl (λ ws h, alter FDW.close h ws) (FDW.watchers w) hs
    ∧ FDW.contexts (foldl FDW.run_cleanup w (map FDW.CloseWatcher hs)) = FDW.contexts w
    ∧ FDW.microtasks (foldl FDW.run_cleanup w (map FDW.CloseWatcher hs)) = FDW.microtasks w
    ∧ FDW.calls (foldl FDW.run_cleanup w (map FDW.CloseWatcher hs)) = FDW.calls w.
Proof.
  induction hs as [|h hs IH]; intros w; cbn [foldl map]; [auto|].
  destruct (IH (FDW.run_cleanup w (FDW.CloseWatcher h))) as (Hw & Hc & Hm & Hcl).
  rewrite Hw, Hc, Hm, Hcl. cbn. auto.
Qed.

(** [stop] on a watcher whose cleanups cover all its handles closes them
    all and touches neither the shared contexts, nor the queue, nor the log
    of calls. *)
Lemma stop_closes (w : t) :
  FDW._abortController w
  = Some (map FDW.CloseWatcher (seq 0 (length (FDW.watchers w)))) →
  Forall (λ fw, FDW.w_closed fw = true) (FDW.watchers (FDW.stop w))
  ∧ FDW.contexts (FDW.stop w) = FDW.contexts w
  ∧ FDW.microtasks (FDW.stop w) = FDW.microtasks w
  ∧ FDW.calls (FDW.stop w) = FDW.calls w.
Proof.
  intros Ha. unfold FDW.stop. rewrite Ha. cbn.
  destruct (cleanups_fields (seq 0 (length (FDW.watchers w))) w) as (Hw & Hc & Hm & Hcl).
  rewrite Hw, Hc, Hm, Hcl. repeat split.
  apply Forall_lookup. intros i fw Hi.
  assert (Hlt : i < length (FDW.watchers w)).
  { apply lookup_lt_Some in Hi. revert Hi.
    generalize (seq 0 (length (FDW.watchers w))). generalize (FDW.watchers w).
    intros ws hs. revert ws. induction hs as [|h hs IH]; intros ws; cbn; [auto|].
    intros H. apply IH in H. rewrite length_alter in H. exact H. }
  destruct (close_all (seq 0 (length (FDW.watchers w))) (FDW.watchers w) i Hlt)
    as (fw' & Hfw' & Hclosed).
  { left. apply elem_of_seq. lia. }
  rewrite Hi in Hfw'. injection Hfw' as ->. exact Hclosed.
Qed.

(** Resolving the shared context of an armed watcher runs the reaction:
    every handle is closed and the callback is called. *)
Lemma armed_fires (cb : CB) (w : t) :
  FDW.armed cb w → FDW.spent cb (FDW.drain (FDW.resolve 0 w)).
Proof.
  intros (Hc & Hm & Hcl & Hws & Ha).
  unfold FDW.resolve. rewrite Hc. cbn.
  unfold FDW.drain. cbn. rewrite Hm. cbn.
  match goal with |- context [FDW.stop ?w0] =>
    destruct (stop_closes w0 Ha) as (Hclosed & Hc' & Hm' & Hcl')
  end.
  unfold FDW.spent. cbn. rewrite Hc', Hm', Hcl'. cbn. rewrite Hcl.
  repeat split. exact Hclosed.
Qed.

(** A closed handle delivers nothing. *)
Lemma deliver_closed (w : t) (d k f : string) (h : nat) :
  Forall (λ fw, FDW.w_closed fw = true) (FDW.watchers w) → FDW.deliver d k f w h = w.
Proof.
  intros Hws. unfold FDW.deliver.
  destruct (FDW.watchers w !! h) as [fw|] eqn:E; [|reflexivity].
  rewrite Forall_lookup in Hws. rewrite (Hws _ _ E). reflexivity.
Qed.

Lemma deliveries_closed (d k f : string) (hs : list nat) :
  ∀ w : t,
    Forall (λ fw, FDW.w_closed fw = true) (FDW.watchers w) →
    foldl (FDW.deliver d k f) w hs = w.
Proof.
  induction hs as [|h hs IH]; intros w Hws; cbn; [reflexivity|].
  rewrite (deliver_closed _ _ _ _ _ Hws). apply IH, Hws.
Qed.

(** File-system churn leaves a watcher whose handles are all closed as it is. *)
Lemma churn_closed (es : list FDW.event) :
  ∀ w : t,
    Forall (λ fw, FDW.w_closed fw = true) (FDW.watchers w) →
    Forall (λ e, FDW.is_churn e = true) es →
    run w es = Some w.
Proof.
  induction es as [|e es IH]; intros w Hws Hes; [reflexivity|].
  apply Forall_cons in Hes. destruct Hes as [He Hes].
  destruct e; try discriminate He. cbn.
  unfold FDW.notify. rewrite (deliveries_closed _ _ _ _ _ Hws). apply IH; assumption.
Qed.

Lemma drain_idle (w : t) : FDW.microtasks w = [] → FDW.drain w = w.
Proof.
  intros H. unfold FDW.drain. rewrite H. cbn.
  destruct w; cbn in *; subst; reflexivity.
Qed.

(** The designed path of [stop]: called on an armed watcher it closes every
    handle, and no later churn calls the callback. *)
Lemma stopped_stays_silent (cb : CB) (w : t) (es : list FDW.event) :
  FDW.armed cb w →
  Forall (λ e, FDW.is_churn e = true) es →
  ∃ w', run w (FDW.CallStop :: es) = Some w' ∧ FDW.calls w' = [].
Proof.
  intros (Hc & Hm & Hcl & Hws & Ha) Hes. cbn [FDW.run FDW.step].
  destruct (stop_closes w Ha) as (Hclosed & _ & Hm' & Hcl').
  rewrite drain_idle by (rewrite Hm'; exact Hm).
  rewrite (churn_closed es _ Hclosed Hes).
  eexists. split; [reflexivity|]. rewrite Hcl'. exact Hcl.
Qed.

Lemma deliver_spent (cb : CB) (w : t) (d k f : string) (h : nat) :
  FDW.spent cb w → FDW.deliver d k f w h = w.
Proof. intros (_ & _ & Hws & _). apply deliver_closed, Hws. Qed.

Lemma deliver_armed (cb : CB) (w : t) (d k f : string) (h : nat) :
  FDW.armed cb w →
  FDW.deliver d k f w h = w ∨ FDW.spent cb (FDW.deliver d k f w h).
Proof.
  intros Harmed. unfold FDW.deliver.
  destruct (FDW.watchers w !! h) as [fw|] eqn:E; [|left; reflexivity].
  destruct (FDW.w_closed fw); [left; reflexivity|].
  destruct (negb _); [left; reflexivity|].
  destruct (_ && _); [|left; reflexivity].
  right. pose proof Harmed as (Hc & Hm & Hcl & Hws & Ha).
  rewrite Forall_lookup in Hws. destruct (Hws _ _ E) as [-> _].
  apply armed_fires. exact Harmed.
Qed.

Lemma deliver_armed_hit (cb : CB) (w : t) (fw : FDW.FSWatcher) (h : nat) :
  FDW.armed cb w →
  FDW.watchers w !! h = Some fw →
  FDW.spent cb (FDW.deliver (FDW.w_dir fw) "rename" (FDW.w_filename fw) w h).
Proof.
  intros Harmed E. unfold FDW.deliver. rewrite E.
  pose proof Harmed as (Hc & Hm & Hcl & Hws & Ha).
  rewrite Forall_lookup in Hws. destruct (Hws _ _ E) as [Hctx Hopen].
  rewrite Hopen, !String.eqb_refl. cbn. rewrite Hctx.
  apply armed_fires. exact Harmed.
Qed.

Lemma deliveries_spent (cb : CB) (d k f : string) (hs : list nat) (w : t) :
  FDW.spent cb w → foldl (FDW.deliver d k f) w hs = w.
Proof. intros (_ & _ & Hws & _). apply deliveries_closed, Hws. Qed.

Lemma deliveries_armed (cb : CB) (d k f : string) (hs : list nat) :
  ∀ w : t,
    FDW.armed cb w →
    foldl (FDW.deliver d k f) w hs = w ∨ FDW.spent cb (foldl (FDW.deliver d k f) w hs).
Proof.
  induction hs as [|h hs IH]; intros w Ha; cbn; [left; reflexivity|].
  destruct (deliver_armed cb w d k f h Ha) as [->|Hs]; [apply IH, Ha|].
  right. rewrite (deliveries_spent cb _ _ _ _ _ Hs). exact Hs.
Qed.

Lemma deliveries_hit (cb : CB) (fw : FDW.FSWatcher) (h : nat) (hs : list nat) :
  ∀ w : t,
    FDW.armed cb w →
    h ∈ hs →
    FDW.watchers w !! h = Some fw →
    FDW.spent cb (foldl (FDW.deliver (FDW.w_dir fw) "rename" (FDW.w_filename fw)) w hs).
Proof.
  induction hs as [|h0 hs IH]; intros w Ha Hin E; cbn.
  - apply elem_of_nil in Hin. contradiction.
  - apply elem_of_cons in Hin. destruct Hin as [<-|Hin].
    + pose proof (deliver_armed_hit cb w fw h Ha E) as Hs.
      rewrite (deliveries_spent cb _ _ _ _ _ Hs). exact Hs.
    + destruct (deliver_armed cb w (FDW.w_dir fw) "rename" (FDW.w_filename fw) h0 Ha)
        as [->|Hs]; [apply IH; assumption|].
      rewrite (deliveries_spent cb _ _ _ _ _ Hs). exact Hs.
Qed.

(** File-system churn leaves a spent watcher as it is. *)
Lemma churn_spent (cb : CB) (es : list FDW.event) (w : t) :
  FDW.spent cb w →
  Forall (λ e, FDW.is_churn e = true) es →
  run w es = Some w.
Proof. intros (_ & _ & Hws & _). apply churn_closed, Hws. Qed.

(** It leaves an armed one armed, or fires it. *)
Lemma churn_armed (cb : CB) (es : list FDW.event) :
  ∀ w : t,
    FDW.armed cb w →
    Forall (λ e, FDW.is_churn e = true) es →
    ∃ w', run w es = Some w' ∧ (w' = w ∨ FDW.spent cb w').
Proof.
  induction es as [|e es IH]; intros w Ha Hes; [exists w; auto|].
  apply Forall_cons in Hes. destruct Hes as [He Hes].
  destruct e; try discriminate He. cbn. unfold FDW.notify.
  destruct (deliveries_armed cb dir kind affectedFile
              (seq 0 (length (FDW.watchers w))) w Ha) as [->|Hs].
  - apply IH; assumption.
  - eexists. split; [apply (churn_spent cb); assumption|]. right. exact Hs.
Qed.

(** Once the first probe has confirmed the directory, the watcher is armed
    with the handles of [chain]. *)
Lemma watch_armed (P : string) (cb : CB) :
  reaches_root budget P = true →
  String.eqb P (dirname P) = false →
  ∃ w, step (FDW.watch P cb) (FDW.ProbeDone 0 (Stats true)) = Some w
       ∧ FDW.armed cb w
       ∧ FDW.watchers w = chain budget P 0.
Proof.
  intros Hr Hne. cbn. unfold FDW.probeDone. cbn.
  rewrite (startParent_fresh _ _ _ _ Hr Hne). cbn.
  match goal with |- context [foldl FDW.open_handle ?w0 ?ws] =>
    destruct (open_handles_fields ws w0) as (Hw & Hc & Hm & Hcl & Ha);
    set (w1 := foldl FDW.open_handle w0 ws) in *
  end.
  cbn in Hw, Hc, Hm, Hcl, Ha.
  exists w1. split.
  - unfold FDW.drain. rewrite Hm. cbn. f_equal.
    destruct w1; cbn in *; subst; reflexivity.
  - split; [|exact Hw].
    unfold FDW.armed. rewrite Hc, Hm, Hcl, Ha, Hw. repeat split.
    apply chain_fresh.
Qed.


Lemma run_app (es1 es2 : list FDW.event) :
  ∀ w : t, run w (es1 ++ es2) = run w es1 ≫= λ w', run w' es2.
Proof.
  induction es1 as [|e es1 IH]; intros w; cbn; [reflexivity|].
  destruct (FDW.step _ _ _ _ w e); [apply IH | reflexivity].
Qed.

(** C1 (amended).  Ancestor-watch strategy, the chain of handles set up:
    the constructor's probe has confirmed [P] a directory, and no [stop()]
    came before.  Let [A] be [P] or an ancestor of [P] that is a level
    [Path.dirname] reaches from [P] below its fixed point (the root for an
    absolute path, "." for a relative one).  Whatever the file system did
    since the set-up ([pre]) and does afterwards ([post]), once the removal
    of [A] has been reported (a rename of [A]'s name in [A]'s parent) the
    callback has been called exactly once: it is called for the removal,
    and no later churn calls it again.  All levels resolve the one shared
    context of the watcher. *)
Theorem ancestor_removal_fires_once (P A : string) (cb : CB)
    (pre post : list FDW.event) :
  reaches_root budget P = true →
  A ∈ levels budget P →
  Forall (λ e, FDW.is_churn e = true) pre →
  Forall (λ e, FDW.is_churn e = true) post →
  ∃ w, run (FDW.watch P cb)
         (FDW.ProbeDone 0 (Stats true)
          :: pre ++ FDW.Notify (dirname A) "rename" (basename A) :: post) = Some w
       ∧ FDW.calls w = [cb]
       ∧ length (FDW.contexts w) = 1.
Proof.
  intros Hr HA Hpre Hpost.
  assert (Hne : String.eqb P (dirname P) = false).
  { destruct budget; [discriminate|]. cbn in HA.
    destruct (String.eqb P (dirname P)); [|reflexivity].
    apply elem_of_nil in HA. contradiction. }
  destruct (watch_armed P cb Hr Hne) as (w1 & Hstep & Harmed & Hws).
  cbn [FDW.run]. rewrite Hstep. rewrite run_app.
  destruct (chain_covers budget P A 0 HA) as (fw & Hin & Hd & Hf & _).
  apply list_elem_of_lookup in Hin. destruct Hin as [h Hh]. rewrite <- Hws in Hh.
  destruct (churn_armed cb pre w1 Harmed Hpre) as (w2 & Hrun & [->|Hspent]);
    rewrite Hrun; cbn [mbind option_bind FDW.run FDW.step].
  - assert (Hs : FDW.spent cb (FDW.notify (dirname A) "rename" (basename A) w1)).
    { unfold FDW.notify. rewrite <- Hd, <- Hf.
      apply (deliveries_hit cb fw h); [exact Harmed | | exact Hh].
      apply elem_of_seq. apply lookup_lt_Some in Hh. lia. }
    rewrite (churn_spent cb post _ Hs Hpost). eexists. split; [reflexivity|].
    destruct Hs as (Hcalls & _ & _ & Hctx). rewrite Hctx. auto.
  - unfold FDW.notify. rewrite (deliveries_spent cb _ _ _ _ _ Hspent).
    rewrite (churn_spent cb post _ Hspent Hpost). eexists. split; [reflexivity|].
    destruct Hspent as (Hcalls & _ & _ & Hctx). rewrite Hctx. auto.
Qed.

End WatcherFacts.

Lemma ancestor_removal_fires_once_witness :
  ∃ w, FDW.run PosixPath.dirname PosixPath.basename FDW.PARENT 8
         (FDW.watch "/a/b" 7)
         [FDW.ProbeDone 0 (Stats true); FDW.Notify "/a/b" "change" "x";
          FDW.Notify "/" "rename" "a"; FDW.Notify "/a" "rename" "b"] = Some w
       ∧ FDW.calls w = [7]
       ∧ length (FDW.contexts w) = 1.
Proof.
  apply (ancestor_removal_fires_once PosixPath.dirname PosixPath.basename 8
           "/a/b" "/a" 7 [FDW.Notify "/a/b" "change" "x"]
           [FDW.Notify "/a" "rename" "b"]).
  - reflexivity.
  - apply list_elem_of_In. vm_compute. auto.
  - repeat constructor.
  - repeat constructor.
Defined.

(** The claim C1 fails for a directory that is removed before the chain is
    set up.  When the removal is reported while the constructor's probe,
    which still found the directory, is pending, no handle is open yet to
    receive it, and the handles opened afterwards see no further rename:
    the callback is never called.  When the probe already finds the
    directory gone, the watcher stops itself without calling the
    callback. *)
Lemma removal_before_setup_is_missed :
  (∃ w, FDW.run PosixPath.dirname PosixPath.basename FDW.PARENT 8
          (FDW.watch "/a/b" 7)
          [FDW.Notify "/a" "rename" "b"; FDW.ProbeDone 0 (Stats true);
           FDW.Notify "/a" "change" "b"; FDW.Notify "/" "change" "a"] = Some w
        ∧ FDW.calls w = []
        ∧ map FDW.watched_by (FDW.watchers w) = [("/", "a", false); ("/a", "b", false)])
  ∧ (∃ w, FDW.run PosixPath.dirname PosixPath.basename FDW.PARENT 8
            (FDW.watch "/a/b" 7)
            [FDW.ProbeDone 0 (StatError "ENOENT"); FDW.Notify "/a" "rename" "b"]
          = Some w
          ∧ FDW.calls w = []
          ∧ FDW.watchers w = []).
Proof.
  split; eexists; (split; [vm_compute; reflexivity | split; reflexivity]).
Qed.

(** C2, at the failing inputs.  [stop()] is called while the constructor's
    first probe is still pending; the probe then confirms the directory,
    [_startParent] finds no abort controller and registers no cleanup, and
    the removal of the directory calls the callback although [stop()] had
    returned.  Likewise under the polling strategy when [stop()] is called
    while a periodic probe is pending. *)
Theorem callback_fires_after_stop :
  (∃ w, FDW.run PosixPath.dirname PosixPath.basename FDW.PARENT 8
          (FDW.watch "/a/b" 7)
          [FDW.CallStop; FDW.ProbeDone 0 (Stats true);
           FDW.Notify "/a" "rename" "b"] = Some w
        ∧ FDW.calls w = [7])
  ∧ (∃ w, FDW.run PosixPath.dirname PosixPath.basename FDW.INTERVAL 8
            (FDW.watch "/a/b" 7)
            [FDW.ProbeDone 0 (Stats true); FDW.Tick 0; FDW.CallStop;
             FDW.ProbeDone 0 (Stats true)] = Some w
          ∧ FDW.calls w = [7]).
Proof.
  split; eexists; (split; [vm_compute; reflexivity | reflexivity]).
Qed.

(** C3, at the failing input.  Under the polling strategy the periodic probe
    that finds the path still a directory stops the watcher and calls the
    callback; the probe that finds it gone (or no longer a directory) does
    nothing, and the timer goes on. *)
Theorem polling_fires_while_directory {CB : Type} (dirname basename : string → string)
    (budget : nat) (P : string) (cb : CB) :
  (∃ w, FDW.run dirname basename FDW.INTERVAL budget (FDW.watch P cb)
          [FDW.ProbeDone 0 (Stats true); FDW.Tick 0; FDW.ProbeDone 0 (Stats true)]
        = Some w
        ∧ FDW.calls w = [cb]
        ∧ FDW._abortController w = None)
  ∧ (∀ gone, gone ∈ [StatError "ENOENT"; Stats false] →
       ∃ w, FDW.run dirname basename FDW.INTERVAL budget (FDW.watch P cb)
              [FDW.ProbeDone 0 (Stats true); FDW.Tick 0; FDW.ProbeDone 0 gone]
            = Some w
            ∧ FDW.calls w = []
            ∧ FDW._abortController w = Some [FDW.ClearInterval 0]).
Proof.
  split.
  - eexists. split; [vm_compute; reflexivity|]. split; reflexivity.
  - intros gone Hg. eexists.
    apply elem_of_cons in Hg. destruct Hg as [->|Hg].
    + split; [vm_compute; reflexivity|]. split; reflexivity.
    + apply list_elem_of_singleton in Hg. subst gone.
      split; [vm_compute; reflexivity|]. split; reflexivity.
Qed.
(** ** Objects as ordered maps *)

Section ObjectFacts.

Context {V : Type}.
Implicit Types (F : list (string * V)) (k : string) (v : V).

Lemma obj_get_elem F k v : MM.obj_get k F = Some v → (k, v) ∈ F.
Proof.
  induction F as [|[k0 v0] F IH]; cbn; [discriminate|].
  destruct (String.eqb_spec k0 k) as [->|Hne].
  - intros [= ->]. apply elem_of_cons. left. reflexivity.
  - intros H. apply elem_of_cons. right. apply IH, H.
Qed.

Lemma obj_get_keys F k : is_Some (MM.obj_get k F) ↔ k ∈ map fst F.
Proof.
  induction F as [|[k0 v0] F IH]; cbn.
  - split; [intros [? [=]] | intros H; apply elem_of_nil in H; contradiction].
  - destruct (String.eqb_spec k0 k) as [->|Hne].
    + split; [intros _; apply elem_of_cons; left; reflexivity | intros _; eauto].
    + rewrite IH. rewrite elem_of_cons. split; [auto | intros [H|H]; [congruence | exact H]].
Qed.

Lemma obj_get_None F k : MM.obj_get k F = None ↔ k ∉ map fst F.
Proof.
  rewrite <- obj_get_keys. destruct (MM.obj_get k F) as [v|].
  - split; [discriminate|]. intros H. exfalso. apply H. eauto.
  - split; [|reflexivity]. intros _ [? [=]].
Qed.

Lemma obj_get_NoDup F k v :
  NoDup (map fst F) → (k, v) ∈ F → MM.obj_get k F = Some v.
Proof.
  induction F as [|[k0 v0] F IH]; cbn; intros Hnd Hin.
  - apply elem_of_nil in Hin. contradiction.
  - apply NoDup_cons in Hnd. destruct Hnd as [Hk0 Hnd].
    apply elem_of_cons in Hin. destruct Hin as [[= -> ->]|Hin].
    + rewrite String.eqb_refl. reflexivity.
    + destruct (String.eqb_spec k0 k) as [->|Hne]; [|apply IH; assumption].
      exfalso. apply Hk0. apply list_elem_of_fmap. exists (k, v). auto.
Qed.

Lemma obj_get_set F k k' v :
  MM.obj_get k' (MM.obj_set k v F) = if String.eqb k k' then Some v else MM.obj_get k' F.
Proof.
  induction F as [|[k0 v0] F IH]; cbn.
  - reflexivity.
  - destruct (String.eqb_spec k0 k) as [->|Hne]; cbn.
    + destruct (String.eqb_spec k k'); reflexivity.
    + rewrite IH. destruct (String.eqb_spec k0 k') as [->|Hne'].
      * destruct (String.eqb_spec k k'); [congruence | reflexivity].
      * reflexivity.
Qed.

Lemma obj_get_delete_ne F k k' :
  k ≠ k' → MM.obj_get k' (MM.obj_delete k F) = MM.obj_get k' F.
Proof.
  intros Hne. induction F as [|[k0 v0] F IH]; cbn; [reflexivity|].
  destruct (String.eqb_spec k0 k) as [->|Hne0]; cbn.
  - destruct (String.eqb_spec k k'); [contradiction | reflexivity].
  - rewrite IH. reflexivity.
Qed.

Lemma obj_delete_keys F k k' :
  k' ∈ map fst (MM.obj_delete k F) → k' ∈ map fst F.
Proof.
  induction F as [|[k0 v0] F IH]; cbn; [auto|].
  destruct (String.eqb_spec k0 k) as [->|Hne0]; cbn.
  - intros H. apply elem_of_cons. right. exact H.
  - rewrite !elem_of_cons. intros [H|H]; [left; exact H | right; apply IH, H].
Qed.

Lemma obj_delete_NoDup F k : NoDup (map fst F) → NoDup (map fst (MM.obj_delete k F)).
Proof.
  induction F as [|[k0 v0] F IH]; cbn; [auto|]. intros Hnd.
  apply NoDup_cons in Hnd. destruct Hnd as [Hk0 Hnd].
  destruct (String.eqb_spec k0 k) as [->|Hne0]; cbn; [exact Hnd|].
  apply NoDup_cons. split; [|apply IH, Hnd].
  intros H. apply Hk0. eapply obj_delete_keys, H.
Qed.

Lemma obj_get_delete_eq F k :
  NoDup (map fst F) → MM.obj_get k (MM.obj_delete k F) = None.
Proof.
  induction F as [|[k0 v0] F IH]; cbn; [reflexivity|]. intros Hnd.
  apply NoDup_cons in Hnd. destruct Hnd as [Hk0 Hnd].
  destruct (String.eqb_spec k0 k) as [->|Hne0]; cbn.
  - apply obj_get_None. exact Hk0.
  - destruct (String.eqb_spec k0 k); [contradiction | apply IH, Hnd].
Qed.

Lemma obj_set_keys F k k' v :
  k' ∈ map fst (MM.obj_set k v F) ↔ k' = k ∨ k' ∈ map fst F.
Proof.
  rewrite <- !obj_get_keys, obj_get_set.
  destruct (String.eqb_spec k k') as [->|Hne].
  - split; [auto | eauto].
  - split; [auto | intros [H|H]; [congruence | exact H]].
Qed.

Lemma obj_set_NoDup F k v : NoDup (map fst F) → NoDup (map fst (MM.obj_set k v F)).
Proof.
  induction F as [|[k0 v0] F IH]; cbn; intros Hnd.
  - apply NoDup_singleton.
  - apply NoDup_cons in Hnd. destruct Hnd as [Hk0 Hnd].
    destruct (String.eqb_spec k0 k) as [->|Hne0]; cbn.
    + apply NoDup_cons. auto.
    + apply NoDup_cons. split; [|apply IH, Hnd].
      rewrite obj_set_keys. intros [H|H]; [congruence | contradiction].
Qed.

Lemma obj_set_Forall (P : string * V → Prop) F k v :
  P (k, v) → Forall P F → Forall P (MM.obj_set k v F).
Proof.
  intros Hkv. induction F as [|[k0 v0] F IH]; cbn; intros HF.
  - repeat constructor. exact Hkv.
  - apply Forall_cons in HF. destruct HF as [H0 HF].
    destruct (String.eqb_spec k0 k) as [->|Hne0]; constructor; auto.
Qed.

Lemma obj_delete_Forall (P : string * V → Prop) F k :
  Forall P F → Forall P (MM.obj_delete k F).
Proof.
  induction F as [|[k0 v0] F IH]; cbn; intros HF; [constructor|].
  apply Forall_cons in HF. destruct HF as [H0 HF].
  destruct (String.eqb k0 k); [exact HF | constructor; auto].
Qed.

End ObjectFacts.

(** ** Array.prototype.sort *)

Section SortFacts.

Context {A : Type}.
Variable cmp : A → A → Z.

Lemma sort_insert_Permutation (x : A) (l : list A) : MM.sort_insert cmp x l ≡ₚ x :: l.
Proof.
  induction l as [|y l IH]; cbn; [reflexivity|].
  destruct (cmp x y <=? 0)%Z; [reflexivity|].
  rewrite IH. apply Permutation_swap.
Qed.

(** The sort rearranges, it neither drops nor adds. *)
Lemma Array_sort_Permutation (l : list A) : MM.Array_sort cmp l ≡ₚ l.
Proof.
  induction l as [|x l IH]; cbn; [reflexivity|].
  rewrite sort_insert_Permutation. rewrite IH. reflexivity.
Qed.

Lemma sort_insert_Sorted (x : A) (l : list A) :
  (∀ a b, (0 < cmp a b)%Z → (cmp b a ≤ 0)%Z) →
  Sorted (λ a b, (cmp a b ≤ 0)%Z) l →
  Sorted (λ a b, (cmp a b ≤ 0)%Z) (MM.sort_insert cmp x l).
Proof.
  intros Htot. induction l as [|y l IH]; cbn; intros Hs.
  - repeat constructor.
  - destruct (Z.leb_spec (cmp x y) 0) as [Hle|Hgt].
    + constructor; [exact Hs | constructor; exact Hle].
    + apply Sorted_inv in Hs. destruct Hs as [Hs Hhd].
      constructor; [apply IH, Hs|].
      destruct l as [|z l]; cbn.
      * constructor. apply Htot, Hgt.
      * destruct (cmp x z <=? 0)%Z; constructor.
        -- apply Htot, Hgt.
        -- inversion Hhd; assumption.
Qed.

(** With a comparator that never ranks two elements each after the other,
    the result is in order. *)
Lemma Array_sort_Sorted (l : list A) :
  (∀ a b, (0 < cmp a b)%Z → (cmp b a ≤ 0)%Z) →
  Sorted (λ a b, (cmp a b ≤ 0)%Z) (MM.Array_sort cmp l).
Proof.
  intros Htot. induction l as [|x l IH]; cbn; [constructor|].
  apply sort_insert_Sorted; assumption.
Qed.

(** A list already in order is left as it is. *)
Lemma Array_sort_id (l : list A) :
  Sorted (λ a b, (cmp a b ≤ 0)%Z) l → MM.Array_sort cmp l = l.
Proof.
  induction 1 as [|x l Hs IH Hhd]; cbn; [reflexivity|].
  fold (MM.Array_sort cmp l). rewrite IH.
  destruct Hhd as [|y l' Hle]; cbn; [reflexivity|].
  destruct (Z.leb_spec (cmp x y) 0); [reflexivity | lia].
Qed.

End SortFacts.

Lemma List_filter_Permutation {A} (f : A → bool) (l l' : list A) :
  l ≡ₚ l' → List.filter f l ≡ₚ List.filter f l'.
Proof.
  induction 1 as [|x l l' _ IH|x y l|l l' l'' _ IH1 _ IH2]; cbn.
  - reflexivity.
  - destruct (f x); [constructor|]; exact IH.
  - destruct (f x), (f y); try reflexivity. apply Permutation_swap.
  - etransitivity; eassumption.
Qed.

Lemma omap_lookup_seq {A} (pre l : list A) :
  omap (λ k, (pre ++ l) !! k) (seq (length pre) (length l)) = l.
Proof.
  revert pre. induction l as [|x l IH]; intros pre; cbn; [reflexivity|].
  rewrite list_lookup_middle by reflexivity. f_equal.
  specialize (IH (pre ++ [x])). rewrite length_app in IH. cbn in IH.
  rewrite <- app_assoc in IH. cbn in IH.
  replace (length pre + 1) with (S (length pre)) in IH by lia. exact IH.
Qed.

Lemma omap_nil_iff {A B} (f : A → option B) (l : list A) :
  omap f l = [] ↔ ∀ x, x ∈ l → f x = None.
Proof.
  induction l as [|x l IH]; cbn.
  - split; [intros _ y Hy; apply elem_of_nil in Hy; contradiction | reflexivity].
  - destruct (f x) eqn:E.
    + split; [discriminate|]. intros H. specialize (H x). rewrite E in H.
      discriminate H. apply elem_of_cons. left. reflexivity.
    + rewrite IH. split.
      * intros H y Hy. apply elem_of_cons in Hy. destruct Hy as [->|Hy]; auto.
      * intros H y Hy. apply H. apply elem_of_cons. right. exact Hy.
Qed.

(** ** The emitter *)

Lemma andThen_Done (r : MM.result) : MM.andThen r MM.Done = r.
Proof. destruct r; reflexivity. Qed.

(** Listeners of other modules leave the monitor as it is. *)
Lemma calls_internal (arg : option MM.FileSystemEvent) (nls : list (string * MM.listener)) :
  ∀ r : MM.result,
    foldl (λ r l, MM.andThen r (MM.call arg l)) r (map snd nls)
    = foldl (λ r l, MM.andThen r (MM.call arg l)) r (map snd (List.filter MM.internal nls)).
Proof.
  induction nls as [|[n l] nls IH]; intros r; cbn; [reflexivity|].
  destruct l; cbn; try apply IH.
  rewrite <- IH. f_equal. destruct r; reflexivity.
Qed.

Lemma filter_filter_comm {A} (f g : A → bool) (l : list A) :
  List.filter f (List.filter g l) = List.filter g (List.filter f l).
Proof.
  induction l as [|x l IH]; cbn; [reflexivity|].
  destruct (f x) eqn:Ef, (g x) eqn:Eg; cbn; rewrite ?Ef, ?Eg, IH; reflexivity.
Qed.

(** [emit] logs the call and runs the state-changing listeners registered
    for the name. *)
Lemma emit_internal (name : string) (arg : option MM.FileSystemEvent) (m : MM.monitor) :
  MM.emit name arg m
  = foldl (λ r l, MM.andThen r (MM.call arg l))
      (MM.Done (MM.set_emitted (MM.emitted m ++ [(name, arg)]) m))
      (map snd (List.filter (λ nl, String.eqb (fst nl) name)
                  (List.filter MM.internal (MM.listeners m)))).
Proof.
  unfold MM.emit, MM.listenersOf. rewrite calls_internal.
  rewrite filter_filter_comm. reflexivity.
Qed.

Lemma emit_uninstalled (name : string) (arg : option MM.FileSystemEvent) (m : MM.monitor) :
  MM.uninstalled m →
  MM.emit name arg m = MM.Done (MM.set_emitted (MM.emitted m ++ [(name, arg)]) m).
Proof. intros H. rewrite emit_internal, H. reflexivity. Qed.

Lemma emit_mount (event : MM.FileSystemEvent) (m : MM.monitor) :
  MM.installed m →
  MM.emit "mount" (Some event) m
  = MM._onMount event (MM.set_emitted (MM.emitted m ++ [("mount", Some event)]) m).
Proof.
  intros H. rewrite emit_internal, H. cbn.
  destruct (MM._onMount _ _); reflexivity.
Qed.

Lemma emit_unmount (event : MM.FileSystemEvent) (m : MM.monitor) :
  MM.installed m →
  MM.emit "unmount" (Some event) m
  = MM._onUnmount event (MM.set_emitted (MM.emitted m ++ [("unmount", Some event)]) m).
Proof.
  intros H. rewrite emit_internal, H. cbn.
  destruct (MM._onUnmount _ _); reflexivity.
Qed.

(** No handler is registered for any other name the code emits. *)
Lemma emit_other (name : string) (arg : option MM.FileSystemEvent) (m : MM.monitor) :
  MM.installed m →
  name ∈ ["rename"; "all"; "changed"; "refresh"; "change"] →
  MM.emit name arg m = MM.Done (MM.set_emitted (MM.emitted m ++ [(name, arg)]) m).
Proof.
  intros H Hn. rewrite emit_internal, H.
  repeat (apply elem_of_cons in Hn; destruct Hn as [->|Hn]; [reflexivity|]).
  apply elem_of_nil in Hn. contradiction.
Qed.

(** Whatever the listeners, [emit] leaves the listeners, the timer and the
    passes in progress alone, and only adds to the trace. *)
Lemma call_frame (arg : option MM.FileSystemEvent) (l : MM.listener) (m : MM.monitor) :
  let m' := MM.state_of (MM.call arg l m) in
  MM.listeners m' = MM.listeners m ∧ MM.intervalVar m' = MM.intervalVar m
  ∧ MM.inflight m' = MM.inflight m ∧ MM.emitted m' = MM.emitted m.
Proof.
  destruct l, arg as [event|]; cbn; auto.
  - unfold MM._onMount. destruct (MM.event_filesystem event); cbn; auto.
  - unfold MM._onUnmount. destruct (MM.event_filesystem event); cbn; auto.
    destruct (_ !! _); cbn; auto.
Qed.

Lemma calls_frame (arg : option MM.FileSystemEvent) (ls : list MM.listener) :
  ∀ m : MM.monitor,
    let m' := MM.state_of (foldl (λ r l, MM.andThen r (MM.call arg l)) (MM.Done m) ls) in
    MM.listeners m' = MM.listeners m ∧ MM.intervalVar m' = MM.intervalVar m
    ∧ MM.inflight m' = MM.inflight m ∧ MM.emitted m' = MM.emitted m.
Proof.
  induction ls as [|l ls IH]; intros m; cbn; [auto|].
  destruct (call_frame arg l m) as (H1 & H2 & H3 & H4).
  destruct (MM.call arg l m) as [m1|err m1]; cbn in *.
  - destruct (IH m1) as (H1' & H2' & H3' & H4'). cbn in *.
    rewrite H1', H2', H3', H4'. auto.
  - assert (Hthrown : ∀ ls', foldl (λ r l0, MM.andThen r (MM.call arg l0))
                               (MM.Thrown err m1) ls' = MM.Thrown err m1).
    { induction ls' as [|l' ls' IH']; cbn; [reflexivity | exact IH']. }
    rewrite Hthrown. cbn. auto.
Qed.

Lemma emit_frame (name : string) (arg : option MM.FileSystemEvent) (m : MM.monitor) :
  let m' := MM.state_of (MM.emit name arg m) in
  MM.listeners m' = MM.listeners m ∧ MM.intervalVar m' = MM.intervalVar m
  ∧ MM.inflight m' = MM.inflight m
  ∧ MM.emitted m' = MM.emitted m ++ [(name, arg)].
Proof.
  unfold MM.emit.
  destruct (calls_frame arg (MM.listenersOf name m)
              (MM.set_emitted (MM.emitted m ++ [(name, arg)]) m)) as (H1 & H2 & H3 & H4).
  cbn in *. auto.
Qed.

(** ** Applying the events of a pass *)

Lemma emitEvents_Thrown (events : list MM.FileSystemEvent) (err : string) (m : MM.monitor) :
  foldl (λ r event,
           MM.andThen r (λ m1, MM.andThen (MM.emit (MM.type event) (Some event) m1)
                                          (MM.emit "all" (Some event))))
        (MM.Thrown err m) events = MM.Thrown err m.
Proof. induction events as [|e events IH]; cbn; [reflexivity | exact IH]. Qed.

Lemma emitEvents_cons (event : MM.FileSystemEvent) (events : list MM.FileSystemEvent)
    (m : MM.monitor) :
  MM.emitEvents (event :: events) m
  = MM.andThen (MM.andThen (MM.emit (MM.type event) (Some event) m)
                           (MM.emit "all" (Some event)))
               (MM.emitEvents events).
Proof.
  unfold MM.emitEvents. cbn [foldl MM.andThen].
  destruct (MM.andThen _ _) as [m1|err m1]; cbn; [reflexivity|].
  apply emitEvents_Thrown.
Qed.

Lemma installed_ext (m m' : MM.monitor) :
  MM.listeners m' = MM.listeners m → MM.installed m → MM.installed m'.
Proof. unfold MM.installed. intros ->. auto. Qed.

(** The events of a pass go through the handlers without a throw when no
    mount path is unmounted twice and every unmounted path is on file; the
    handlers then have applied them to [filesystemMap] in order, and the
    two maps are still in step. *)
Lemma emitEvents_spec (events : list MM.FileSystemEvent) :
  ∀ m : MM.monitor,
    MM.installed m →
    MM.consistent m →
    NoDup (MM.unmountPaths events) →
    (∀ k, k ∈ MM.unmountPaths events → k ∈ map fst (MM.filesystemMap m)) →
    ∃ m', MM.emitEvents events m = MM.Done m'
          ∧ MM.filesystemMap m' = foldl MM.applyEvent (MM.filesystemMap m) events
          ∧ MM.emitted m' = MM.emitted m ++ MM.emissions events
          ∧ MM.listeners m' = MM.listeners m
          ∧ MM.intervalVar m' = MM.intervalVar m
          ∧ MM.inflight m' = MM.inflight m
          ∧ MM.consistent m'.
Proof.
  induction events as [|event events IH]; intros m Hinst Hcons Hnd Hkeys.
  - exists m. cbn. rewrite app_nil_r. auto 10.
  - rewrite emitEvents_cons.
    destruct Hcons as (Hkeyed & Hund & Hwatched).
    destruct event as [fs|fs|fs old|member old].
    + (* mount *)
      cbn [MM.type]. rewrite (emit_mount _ _ Hinst).
      unfold MM._onMount. cbn [MM.event_filesystem]. cbv zeta. cbn [MM.andThen].
      rewrite emit_other; [|apply (installed_ext m); [reflexivity | exact Hinst]
                            |repeat constructor].
      cbn [MM.andThen].
      match goal with |- context [MM.emitEvents events ?m1] =>
        destruct (IH m1) as (m' & Hrun & HF & HE & HL & HI & HP & Hc')
      end.
      * apply (installed_ext m); [reflexivity | exact Hinst].
      * cbn. split; [|split].
        -- apply obj_set_Forall; [reflexivity | exact Hkeyed].
        -- apply obj_set_NoDup, Hund.
        -- intros k Hk. cbn in Hk |- *.
           apply obj_set_keys in Hk.
           destruct (decide (MM.mountpoints0_path fs = k)) as [Heq|Hne].
           ++ subst k. rewrite lookup_insert_eq. eauto.
           ++ rewrite lookup_insert_ne by exact Hne.
              destruct Hk as [->|Hk]; [contradiction | apply Hwatched, Hk].
      * exact Hnd.
      * intros k Hk. cbn. apply obj_set_keys. right. apply Hkeys, Hk.
      * exists m'. split; [exact Hrun|]. cbn in HF, HE, HL, HI, HP.
        rewrite HF, HE, HL, HI, HP. cbn. rewrite <- !app_assoc. auto 10.
    + (* unmount *)
      cbn [MM.type]. rewrite (emit_unmount _ _ Hinst).
      cbn [MM.unmountPaths omap] in Hnd, Hkeys. cbn in Hnd, Hkeys.
      apply NoDup_cons in Hnd. destruct Hnd as [Hfresh Hnd].
      assert (Hin : MM.mountpoints0_path fs ∈ map fst (MM.filesystemMap m)).
      { apply Hkeys. apply elem_of_cons. left. reflexivity. }
      destruct (Hwatched _ Hin) as [ref Href].
      unfold MM._onUnmount. cbn. rewrite Href. cbn [MM.andThen].
      rewrite emit_other; [|apply (installed_ext m); [reflexivity | exact Hinst]
                            |repeat constructor].
      cbn [MM.andThen].
      match goal with |- context [MM.emitEvents events ?m1] =>
        destruct (IH m1) as (m' & Hrun & HF & HE & HL & HI & HP & Hc')
      end.
      * apply (installed_ext m); [reflexivity | exact Hinst].
      * cbn. split; [|split].
        -- apply obj_delete_Forall, Hkeyed.
        -- apply obj_delete_NoDup, Hund.
        -- intros k Hk. cbn in Hk |- *.
           destruct (decide (MM.mountpoints0_path fs = k)) as [<-|Hne].
           ++ apply obj_get_keys in Hk. rewrite obj_get_delete_eq in Hk by exact Hund.
              destruct Hk as [? [=]].
           ++ rewrite lookup_delete_ne by exact Hne.
              apply Hwatched. eapply obj_delete_keys, Hk.
      * exact Hnd.
      * intros k Hk. cbn. apply obj_get_keys.
        rewrite obj_get_delete_ne.
        -- apply obj_get_keys. apply Hkeys. apply elem_of_cons. right. exact Hk.
        -- intros Heq. apply Hfresh. rewrite Heq. exact Hk.
      * exists m'. split; [exact Hrun|]. cbn in HF, HE, HL, HI, HP.
        rewrite HF, HE, HL, HI, HP. cbn. rewrite <- !app_assoc. auto 10.
    + (* rename *)
      cbn [MM.type]. rewrite emit_other; [|exact Hinst | repeat constructor].
      cbn [MM.andThen].
      rewrite emit_other; [|apply (installed_ext m); [reflexivity | exact Hinst]
                            |repeat constructor].
      cbn [MM.andThen].
      match goal with |- context [MM.emitEvents events ?m1] =>
        destruct (IH m1) as (m' & Hrun & HF & HE & HL & HI & HP & Hc')
      end.
      * apply (installed_ext m); [reflexivity | exact Hinst].
      * split; [|split]; [exact Hkeyed | exact Hund | exact Hwatched].
      * exact Hnd.
      * intros k Hk. cbn. apply Hkeys, Hk.
      * exists m'. split; [exact Hrun|]. cbn in HF, HE, HL, HI, HP.
        rewrite HF, HE, HL, HI, HP. cbn. rewrite <- !app_assoc. auto 10.
    + (* rename, with a member of [Object.prototype] *)
      cbn [MM.type]. rewrite emit_other; [|exact Hinst | repeat constructor].
      cbn [MM.andThen].
      rewrite emit_other; [|apply (installed_ext m); [reflexivity | exact Hinst]
                            |repeat constructor].
      cbn [MM.andThen].
      match goal with |- context [MM.emitEvents events ?m1] =>
        destruct (IH m1) as (m' & Hrun & HF & HE & HL & HI & HP & Hc')
      end.
      * apply (installed_ext m); [reflexivity | exact Hinst].
      * split; [|split]; [exact Hkeyed | exact Hund | exact Hwatched].
      * exact Hnd.
      * intros k Hk. cbn. apply Hkeys, Hk.
      * exists m'. split; [exact Hrun|]. cbn in HF, HE, HL, HI, HP.
        rewrite HF, HE, HL, HI, HP. cbn. rewrite <- !app_assoc. auto 10.
Qed.

(** ** One pass of the reconciler *)

Section PassFacts.

Variable toUpperCase : string → string.
Variable localeCompare : string → string → Z.
Variable v5 : string → string → string.
Variable sep : ascii.
Variable process_platform : MM.platform.

Abbreviation sortFilesystems := (MM.sortFilesystems toUpperCase localeCompare process_platform).
Abbreviation state := (MM.state toUpperCase localeCompare process_platform).
Abbreviation newState := (MM.newState toUpperCase localeCompare v5 sep process_platform).
Abbreviation finishPass := (MM.finishPass toUpperCase localeCompare process_platform).
Abbreviation intervalFunction :=
  (MM.intervalFunction toUpperCase localeCompare v5 sep process_platform).
Abbreviation passEvents := (MM.passEvents toUpperCase localeCompare v5 sep process_platform).
Abbreviation platform_le := (MM.platform_le toUpperCase localeCompare process_platform).

Lemma sortFilesystems_Permutation (l : list MM.FileSystem) : sortFilesystems l ≡ₚ l.
Proof.
  unfold MM.sortFilesystems. cbn.
  destruct process_platform; apply Array_sort_Permutation.
Qed.

Lemma sortFilesystems_Sorted (l : list MM.FileSystem) :
  MM.comparator_total localeCompare → Sorted platform_le (sortFilesystems l).
Proof.
  intros Htot. unfold MM.sortFilesystems, MM.platform_le, MM.sortKey. cbn.
  destruct process_platform;
    apply (Array_sort_Sorted (A := MM.FileSystem)); intros a b; apply Htot.
Qed.

Lemma state_elem (m : MM.monitor) (fs : MM.FileSystem) :
  fs ∈ state m ↔ fs ∈ MM.Object_values (MM.filesystemMap m).
Proof. unfold MM.state. rewrite sortFilesystems_Permutation. reflexivity. Qed.

Lemma isDirectory_no_io_error (lstat : string → StatResult) (fs : MM.FileSystem) :
  MM.no_io_error lstat →
  Functions.isDirectory (lstat (MM.mountpoints0_path fs)) = Return (MM.is_dir lstat fs).
Proof.
  intros Hok. unfold MM.is_dir, Functions.isDirectory.
  destruct (lstat (MM.mountpoints0_path fs)) as [d|code] eqn:E; [reflexivity|].
  rewrite (Hok _ _ E). reflexivity.
Qed.

(** The probes settled in [order] push the [Mount] events of the confirmed
    new candidates, in that order. *)
Lemma settle_spec (candidates : list MM.FileSystem) (m : MM.monitor)
    (lstat : string → StatResult) (order : list nat) :
  MM.no_io_error lstat →
  ∀ events,
    MM.settle candidates (MM.oldFilesystems candidates m) lstat order events
    = Return (events
              ++ map MM.Mount
                   (List.filter (λ fs, MM.is_dir lstat fs && MM.is_new (MM.filesystemMap m) fs)
                      (omap (λ k, candidates !! k) order))).
Proof.
  intros Hok. induction order as [|k order IH]; intros events; cbn.
  - rewrite app_nil_r. reflexivity.
  - unfold MM.oldFilesystems at 1. rewrite list_lookup_fmap.
    destruct (candidates !! k) as [fs|] eqn:E; cbn; [|apply IH].
    rewrite (isDirectory_no_io_error _ _ Hok). rewrite IH.
    unfold MM.is_new.
    destruct (MM.is_dir lstat fs && _); cbn; [|reflexivity].
    rewrite <- app_assoc. reflexivity.
Qed.

Lemma completionOrder_Permutation (latency : nat → nat) (n : nat) :
  MM.completionOrder latency n ≡ₚ seq 0 n.
Proof. apply Array_sort_Permutation. Qed.

Lemma completionOrder_in_issue_order (latency : nat → nat) (n : nat) :
  MM.in_issue_order latency → MM.completionOrder latency n = seq 0 n.
Proof.
  intros Hmono. apply Array_sort_id.
  generalize 0. induction n as [|n IH]; intros s; cbn; [constructor|].
  constructor; [apply IH|].
  destruct n; cbn; constructor.
  assert (latency s ≤ latency (S s)) by (apply Hmono; lia). lia.
Qed.


Lemma settled_Permutation (candidates : list MM.FileSystem) (latency : nat → nat) :
  MM.settled candidates latency ≡ₚ candidates.
Proof.
  unfold MM.settled. rewrite completionOrder_Permutation.
  pose proof (omap_lookup_seq [] candidates) as H. cbn in H. rewrite H. reflexivity.
Qed.

Lemma settled_in_issue_order (candidates : list MM.FileSystem) (latency : nat → nat) :
  MM.in_issue_order latency → MM.settled candidates latency = candidates.
Proof.
  intros H. unfold MM.settled. rewrite (completionOrder_in_issue_order _ _ H).
  apply (omap_lookup_seq [] candidates).
Qed.

Lemma mountEvents_spec (candidates : list MM.FileSystem) (m : MM.monitor)
    (lstat : string → StatResult) (latency : nat → nat) :
  MM.no_io_error lstat →
  MM.mountEvents candidates (MM.oldFilesystems candidates m) lstat latency
  = Return (map MM.Mount
              (List.filter (λ fs, MM.is_dir lstat fs && MM.is_new (MM.filesystemMap m) fs)
                 (MM.settled candidates latency))).
Proof.
  intros Hok. unfold MM.mountEvents. rewrite (settle_spec _ _ _ _ Hok). reflexivity.
Qed.

Lemma unmountPaths_mounts (l : list MM.FileSystem) : MM.unmountPaths (map MM.Mount l) = [].
Proof. induction l as [|fs l IH]; cbn; [reflexivity | exact IH]. Qed.

Lemma unmountPaths_app (l1 l2 : list MM.FileSystemEvent) :
  MM.unmountPaths (l1 ++ l2) = MM.unmountPaths l1 ++ MM.unmountPaths l2.
Proof. apply omap_app. Qed.

Lemma unmountPaths_diff (U : gmap string MM.FileSystem) (olds : list MM.FileSystem) :
  MM.unmountPaths (MM.diffEvents U olds) `sublist_of` map MM.mountpoints0_path olds.
Proof.
  induction olds as [|old olds IH]; cbn; [constructor|].
  destruct (MM.plain_get (MM.uuid old) U) as [fs|member|]; cbn.
  - destruct (negb _); cbn; apply sublist_cons, IH.
  - apply sublist_cons, IH.
  - apply sublist_skip, IH.
Qed.

Lemma consistent_paths (m : MM.monitor) :
  MM.consistent m →
  map MM.mountpoints0_path (MM.Object_values (MM.filesystemMap m))
  = map fst (MM.filesystemMap m).
Proof.
  intros (Hkeyed & _ & _). unfold MM.Object_values.
  induction Hkeyed as [|kv F Hkv _ IH]; cbn; [reflexivity|].
  rewrite Hkv, IH. reflexivity.
Qed.

Lemma insert_last {A} (l : list A) (x y : A) : <[length l := y]> (l ++ [x]) = l ++ [y].
Proof. induction l as [|z l IH]; cbn; [reflexivity | f_equal; exact IH]. Qed.

(** Lines 209-223 in a started monitor whose maps are in step: the events
    are emitted and applied in order, then "changed", then "refresh". *)
Lemma finishPass_spec (candidates : list MM.FileSystem)
    (mounted : list MM.FileSystemEvent) (m : MM.monitor) :
  MM.installed m →
  MM.consistent m →
  MM.unmountPaths mounted = [] →
  ∃ m', finishPass candidates mounted m = MM.Done m'
        ∧ MM.filesystemMap m'
          = foldl MM.applyEvent (MM.filesystemMap m)
              (mounted ++ MM.diffEvents (MM.uuidFilesystemMap candidates) (state m))
        ∧ MM.emitted m'
          = MM.emitted m
            ++ MM.emissions (mounted
                             ++ MM.diffEvents (MM.uuidFilesystemMap candidates) (state m))
            ++ [("changed", None); ("refresh", None)]
        ∧ MM.listeners m' = MM.listeners m
        ∧ MM.intervalVar m' = MM.intervalVar m
        ∧ MM.inflight m' = MM.inflight m
        ∧ MM.consistent m'.
Proof.
  intros Hinst Hcons Hmounted. unfold MM.finishPass.
  set (events := mounted
                 ++ MM.diffEvents (MM.uuidFilesystemMap candidates) (state m)).
  assert (Hperm : map MM.mountpoints0_path (state m) ≡ₚ map fst (MM.filesystemMap m)).
  { rewrite <- (consistent_paths m Hcons). unfold MM.state.
    rewrite sortFilesystems_Permutation. reflexivity. }
  assert (Hsub : MM.unmountPaths events `sublist_of` map MM.mountpoints0_path (state m)).
  { unfold events. rewrite unmountPaths_app, Hmounted. cbn.
    apply unmountPaths_diff. }
  destruct (emitEvents_spec events m Hinst Hcons) as (m1 & Hrun & HF & HE & HL & HI & HP & Hc).
  { eapply sublist_NoDup; [|exact Hsub]. rewrite Hperm. apply Hcons. }
  { intros k Hk. rewrite <- Hperm. eapply elem_of_sublist; eassumption. }
  rewrite Hrun. cbn [MM.andThen].
  rewrite emit_other; [|apply (installed_ext m); assumption | repeat constructor].
  cbn [MM.andThen].
  rewrite emit_other; [|apply (installed_ext m); assumption | repeat constructor].
  eexists. split; [reflexivity|]. cbn. rewrite HF, HE, HL, HI, HP.
  rewrite <- !app_assoc. cbn. auto 10.
Qed.

(** A whole pass in a started monitor whose maps are in step, with probes
    that fail only with "not found": the pass does not throw; its events are
    the [Mount] events of the confirmed new candidates in the order their
    probes settled, then the [Unmount] and [Rename] events of the known
    volumes in sorted order; they are emitted and applied in that order,
    followed by "changed" and "refresh". *)
Lemma intervalFunction_spec (devices : list MM.BlockDevice) (filesystems : list MM.FsSize)
    (lstat : string → StatResult) (latency : nat → nat) (m : MM.monitor) :
  MM.installed m →
  MM.consistent m →
  MM.no_io_error lstat →
  let candidates := newState devices filesystems in
  let events :=
    map MM.Mount
      (List.filter (λ fs, MM.is_dir lstat fs && MM.is_new (MM.filesystemMap m) fs)
         (MM.settled candidates latency))
    ++ MM.diffEvents (MM.uuidFilesystemMap candidates) (state m) in
  passEvents devices filesystems lstat latency m = Return events
  ∧ ∃ m', intervalFunction devices filesystems lstat latency m = MM.Done m'
          ∧ MM.filesystemMap m' = foldl MM.applyEvent (MM.filesystemMap m) events
          ∧ MM.emitted m'
            = MM.emitted m ++ MM.emissions events ++ [("changed", None); ("refresh", None)]
          ∧ MM.listeners m' = MM.listeners m
          ∧ MM.intervalVar m' = MM.intervalVar m
          ∧ MM.inflight m' = MM.inflight m ++ [MM.Settled]
          ∧ MM.consistent m'
          ∧ MM.installed m'.
Proof.
  intros Hinst Hcons Hok. cbv zeta.
  unfold MM.passEvents, MM.intervalFunction, MM.enumerationDone, MM.beginPass.
  generalize (newState devices filesystems). intros candidates. split.
  { rewrite (mountEvents_spec _ _ _ _ Hok). reflexivity. }
  cbn [MM.inflight MM.set_inflight]. rewrite list_lookup_middle by reflexivity.
  set (m0 := MM.set_inflight (MM.inflight m ++ [MM.Enumerating]) m).
  assert (Hinst0 : ∀ p, MM.installed (MM.set_pass (length (MM.inflight m)) p m0))
    by exact (λ _, Hinst).
  assert (Hcons0 : ∀ p, MM.consistent (MM.set_pass (length (MM.inflight m)) p m0))
    by exact (λ _, Hcons).
  destruct candidates as [|c cs].
  - destruct (finishPass_spec [] [] _ (Hinst0 MM.Settled) (Hcons0 MM.Settled) eq_refl)
      as (m' & Hrun & HF & HE & HL & HI & HP & Hc).
    rewrite Hrun. cbn [MM.andThen].
    unfold MM.probesDone. rewrite HP.
    unfold m0. cbn [MM.inflight MM.set_pass MM.set_inflight]. rewrite insert_last.
    rewrite list_lookup_middle by reflexivity.
    exists m'. split; [reflexivity|].
    unfold m0 in HP. cbn [MM.inflight MM.set_pass MM.set_inflight] in HP.
    rewrite insert_last in HP.
    cbn [MM.settled length MM.completionOrder seq MM.Array_sort foldr omap
         List.filter map].
    refine (conj HF (conj HE (conj HL (conj HI (conj HP (conj Hc _)))))).
    apply (installed_ext m); assumption.
  - cbn [MM.andThen]. unfold MM.probesDone.
    subst m0. cbn [MM.inflight MM.set_pass MM.set_inflight].
    rewrite insert_last. rewrite list_lookup_middle by reflexivity.
    change (MM.oldFilesystems (c :: cs)
              (MM.set_inflight (MM.inflight m ++ [MM.Enumerating]) m))
      with (MM.oldFilesystems (c :: cs) m).
    rewrite (mountEvents_spec _ _ _ _ Hok).
    match goal with |- context [finishPass _ (map MM.Mount ?l) ?m1] =>
      destruct (finishPass_spec (c :: cs) (map MM.Mount l) m1)
        as (m' & Hrun & HF & HE & HL & HI & HP & Hc)
    end; [exact Hinst | exact Hcons | apply unmountPaths_mounts |].
    rewrite Hrun. exists m'. split; [reflexivity|].
    cbn [MM.inflight MM.set_pass MM.set_inflight] in HP.
    rewrite !insert_last in HP.
    refine (conj HF (conj HE (conj HL (conj HI (conj HP (conj Hc _)))))).
    apply (installed_ext m); assumption.
Qed.

End PassFacts.

(** ** Claims about a pass *)

Section PassClaims.

Variable toUpperCase : string → string.
Variable localeCompare : string → string → Z.
Variable v5 : string → string → string.
Variable sep : ascii.
Variable process_platform : MM.platform.

Abbreviation state := (MM.state toUpperCase localeCompare process_platform).
Abbreviation newState := (MM.newState toUpperCase localeCompare v5 sep process_platform).
Abbreviation unsortedState := (MM.unsortedState v5 sep process_platform).
Abbreviation intervalFunction :=
  (MM.intervalFunction toUpperCase localeCompare v5 sep process_platform).
Abbreviation passEvents := (MM.passEvents toUpperCase localeCompare v5 sep process_platform).
Abbreviation platform_le := (MM.platform_le toUpperCase localeCompare process_platform).

(** C7 (amended).  Every pass that runs in a started monitor whose maps are
    in step, with probes that fail only with "not found", completes, and
    after the emissions of its events it emits "changed" and then
    "refresh", once each, whether or not it produced any event. *)
Theorem changed_and_refresh_after_every_pass (devices : list MM.BlockDevice)
    (filesystems : list MM.FsSize) (lstat : string → StatResult)
    (latency : nat → nat) (m : MM.monitor) :
  MM.installed m →
  MM.consistent m →
  MM.no_io_error lstat →
  ∃ events m',
    passEvents devices filesystems lstat latency m = Return events
    ∧ intervalFunction devices filesystems lstat latency m = MM.Done m'
    ∧ MM.emitted m'
      = MM.emitted m ++ MM.emissions events ++ [("changed", None); ("refresh", None)].
Proof.
  intros Hinst Hcons Hok.
  destruct (intervalFunction_spec toUpperCase localeCompare v5 sep process_platform
              devices filesystems lstat latency m Hinst Hcons Hok)
    as (Hev & m' & Hrun & _ & HE & _).
  eexists. exists m'. split; [exact Hev|]. split; [exact Hrun | exact HE].
Qed.

Lemma List_filter_true {A} (f g : A → bool) (l : list A) :
  (∀ x, g x = true) → List.filter (λ x, f x && g x) l = List.filter f l.
Proof.
  intros H. induction l as [|x l IH]; cbn; [reflexivity|].
  rewrite H, andb_true_r, IH. reflexivity.
Qed.

(** C6 (amended).  From an empty prior state a pass produces exactly one
    [Mount] event per candidate that survived the filters and whose mount
    path the probe confirmed to be a directory, and no other event.  The
    events are produced, and emitted, in the order in which the probes
    settled; when the probes settle in the order they were issued this is
    the order of the sorted candidate list, which is in the platform's
    order whenever [localeCompare] never ranks two strings each after the
    other. *)
Theorem mounts_from_empty_state (devices : list MM.BlockDevice)
    (filesystems : list MM.FsSize) (lstat : string → StatResult)
    (latency : nat → nat) (m : MM.monitor) :
  MM.installed m →
  MM.filesystemMap m = [] →
  MM.no_io_error lstat →
  ∃ events m',
    passEvents devices filesystems lstat latency m = Return events
    ∧ intervalFunction devices filesystems lstat latency m = MM.Done m'
    ∧ MM.emitted m'
      = MM.emitted m ++ MM.emissions events ++ [("changed", None); ("refresh", None)]
    ∧ events
      = map MM.Mount
          (List.filter (MM.is_dir lstat) (MM.settled (newState devices filesystems) latency))
    ∧ events
      ≡ₚ map MM.Mount (List.filter (MM.is_dir lstat) (unsortedState devices filesystems))
    ∧ (MM.in_issue_order latency →
       events = map MM.Mount (List.filter (MM.is_dir lstat) (newState devices filesystems)))
    ∧ newState devices filesystems ≡ₚ unsortedState devices filesystems
    ∧ (MM.comparator_total localeCompare →
       Sorted platform_le (newState devices filesystems)).
Proof.
  intros Hinst Hempty Hok.
  assert (Hcons : MM.consistent m).
  { unfold MM.consistent. rewrite Hempty. cbn. split; [constructor|].
    split; [constructor|]. intros k Hk. apply elem_of_nil in Hk. contradiction. }
  destruct (intervalFunction_spec toUpperCase localeCompare v5 sep process_platform
              devices filesystems lstat latency m Hinst Hcons Hok)
    as (Hev & m' & Hrun & _ & HE & _).
  assert (Hstate : state m = []).
  { unfold MM.state. rewrite Hempty. unfold MM.sortFilesystems. cbn.
    destruct process_platform; reflexivity. }
  rewrite Hstate, Hempty in Hev, HE. cbn [MM.diffEvents omap] in Hev, HE.
  rewrite app_nil_r in Hev, HE.
  rewrite List_filter_true in Hev, HE by reflexivity.
  assert (Hperm : newState devices filesystems ≡ₚ unsortedState devices filesystems)
    by apply sortFilesystems_Permutation.
  eexists. exists m'. split; [exact Hev|]. split; [exact Hrun|]. split; [exact HE|].
  split; [reflexivity|]. split; [|split; [|split]].
  - apply Permutation_map, List_filter_Permutation.
    rewrite settled_Permutation. exact Hperm.
  - intros Hord. rewrite (settled_in_issue_order _ _ Hord). reflexivity.
  - exact Hperm.
  - apply sortFilesystems_Sorted.
Qed.

End PassClaims.

Lemma no_io_error_allDirectories : MM.no_io_error Examples.allDirectories.
Proof. intros p code H. discriminate H. Qed.

Lemma installed_idle : MM.installed Examples.idle.
Proof. reflexivity. Qed.

Lemma consistent_idle : MM.consistent Examples.idle.
Proof.
  split; [constructor|]. split; [constructor|].
  intros k Hk. apply elem_of_nil in Hk. contradiction.
Qed.

(** The claim C7 fails on the module's quiet state: a pass over an empty
    enumeration produces no event and yet emits "changed". *)
Lemma changed_emitted_without_events :
  Examples.passEvents [] [] Examples.allDirectories Examples.inOrder Examples.idle
  = Return []
  ∧ MM.emitted (MM.state_of (Examples.intervalFunction [] [] Examples.allDirectories
                               Examples.inOrder Examples.idle))
    = MM.emitted Examples.idle ++ [("changed", None); ("refresh", None)].
Proof. split; vm_compute; reflexivity. Qed.

Lemma changed_and_refresh_after_every_pass_witness :
  ∃ events m',
    Examples.passEvents [Examples.backup] [] Examples.allDirectories Examples.inOrder
      Examples.idle = Return events
    ∧ Examples.intervalFunction [Examples.backup] [] Examples.allDirectories
        Examples.inOrder Examples.idle = MM.Done m'
    ∧ MM.emitted m'
      = MM.emitted Examples.idle ++ MM.emissions events
        ++ [("changed", None); ("refresh", None)].
Proof.
  exact (changed_and_refresh_after_every_pass AsciiLocale.toUpperCase
           AsciiLocale.localeCompare AsciiLocale.v5 "/"%char MM.darwin
           [Examples.backup] [] Examples.allDirectories Examples.inOrder Examples.idle
           installed_idle consistent_idle no_io_error_allDirectories).
Defined.

(** The claim C6 fails when the probes settle out of order: the sorted
    candidates are alpha, Backup, the events come Backup first. *)
Lemma mounts_out_of_sort_order :
  MM.newState AsciiLocale.toUpperCase AsciiLocale.localeCompare AsciiLocale.v5
    "/"%char MM.darwin [Examples.alpha; Examples.backup] []
  = [MM.ofDevice Examples.alpha; MM.ofDevice Examples.backup]
  ∧ Examples.passEvents [Examples.alpha; Examples.backup] [] Examples.allDirectories
      Examples.reversed Examples.idle
    = Return [MM.Mount (MM.ofDevice Examples.backup); MM.Mount (MM.ofDevice Examples.alpha)].
Proof. split; vm_compute; reflexivity. Qed.

Lemma mounts_from_empty_state_witness :
  ∃ events m',
    Examples.passEvents [Examples.alpha; Examples.backup] [] Examples.allDirectories
      Examples.reversed Examples.idle = Return events
    ∧ Examples.intervalFunction [Examples.alpha; Examples.backup] []
        Examples.allDirectories Examples.reversed Examples.idle = MM.Done m'
    ∧ events ≡ₚ [MM.Mount (MM.ofDevice Examples.alpha);
                 MM.Mount (MM.ofDevice Examples.backup)].
Proof.
  destruct (mounts_from_empty_state AsciiLocale.toUpperCase
           AsciiLocale.localeCompare AsciiLocale.v5 "/"%char MM.darwin
           [Examples.alpha; Examples.backup] [] Examples.allDirectories
           Examples.reversed Examples.idle
           installed_idle eq_refl no_io_error_allDirectories)
    as (events & m' & Hev & Hrun & _ & _ & Hperm & _).
  exists events, m'. split; [exact Hev|]. split; [exact Hrun|]. exact Hperm.
Defined.

(** ** The scheduler and the watcher callbacks *)

Lemma listener_eqb_eq (a b : MM.listener) : MM.listener_eqb a b = true → a = b.
Proof.
  destruct a, b; cbn; try discriminate; try reflexivity.
  intros H. apply Nat.eqb_eq in H. subst. reflexivity.
Qed.

Lemma remove_first_internal (name : string) (l : MM.listener)
    (ls : list (string * MM.listener)) :
  MM.internal (name, l) = true →
  List.filter MM.internal (MM.remove_first name l ls)
  = MM.remove_first name l (List.filter MM.internal ls).
Proof.
  intros Hint. induction ls as [|[n l0] ls IH]; cbn; [reflexivity|].
  destruct (String.eqb_spec n name) as [->|Hne]; cbn.
  - destruct (MM.listener_eqb l0 l) eqn:El.
    + apply listener_eqb_eq in El. subst l0. rewrite Hint. cbn.
      rewrite String.eqb_refl. destruct l; cbn; try reflexivity. discriminate Hint.
    + cbn. destruct (MM.internal (name, l0)) eqn:Ei; cbn; [|exact IH].
      rewrite String.eqb_refl, El. cbn. rewrite IH. reflexivity.
  - destruct (MM.internal (n, l0)) eqn:Ei; cbn; [|exact IH].
    destruct (String.eqb_spec n name); [contradiction|]. cbn. rewrite IH. reflexivity.
Qed.

Lemma removeListener_internal (name : string) (l : MM.listener) (m : MM.monitor) :
  MM.internal (name, l) = true →
  List.filter MM.internal (MM.listeners (MM.removeListener name l m))
  = rev (MM.remove_first name l (rev (List.filter MM.internal (MM.listeners m)))).
Proof.
  intros Hint. unfold MM.removeListener. cbn.
  rewrite List.filter_rev, (remove_first_internal _ _ _ Hint), List.filter_rev.
  reflexivity.
Qed.

(** [stop] takes away every handler [start] had registered. *)
Lemma stop_uninstalls (m : MM.monitor) :
  MM.installed m → MM.intervalVar m = Some MM.Timer → MM.uninstalled (MM.stop m).
Proof.
  intros Hinst Hi. unfold MM.stop, MM.uninstalled. rewrite Hi. cbn [MM.listeners MM.set_intervalVar].
  rewrite !removeListener_internal by reflexivity. rewrite Hinst. reflexivity.
Qed.

Section SchedulerClaims.

Variable dirname : string → string.
Variable basename : string → string.
Variable METHOD : FDW.method.
Variable budget : nat.
Variable toUpperCase : string → string.
Variable localeCompare : string → string → Z.
Variable v5 : string → string → string.
Variable sep : ascii.
Variable process_platform : MM.platform.

Abbreviation mstep :=
  (MM.mstep dirname basename METHOD budget toUpperCase localeCompare v5 sep
     process_platform).
Abbreviation watcherTask := (MM.watcherTask dirname basename METHOD budget).

(** C8 (amended).  Passes may overlap: while the monitor is started, every
    firing of the interval timer starts a new pass, whatever the number of
    passes still in progress, which it raises by one. *)
Theorem timer_starts_pass_regardless (m : MM.monitor) :
  MM.intervalVar m = Some MM.Timer →
  mstep m MM.TimerFires = Some (MM.beginPass m)
  ∧ MM.passesInProgress (MM.beginPass m) = S (MM.passesInProgress m).
Proof.
  intros Hi. cbn. rewrite Hi. split; [reflexivity|].
  unfold MM.passesInProgress, MM.beginPass. cbn.
  rewrite List.filter_app, length_app. cbn. lia.
Qed.

(** C10.  In a started monitor that is then stopped, a watcher that is
    still live and whose callback fires (for a path still on file) emits
    "unmount", "all" and "change", and neither [filesystemMap] nor
    [deletionWatchers] changes: the entries of the fired watcher stay. *)
Theorem watcher_fires_in_stopped_monitor (m : MM.monitor) (ref : nat)
    (w w' : @FDW.t MM.callback) (e : FDW.event) (p : string) (fs : MM.FileSystem) :
  MM.installed m →
  MM.intervalVar m = Some MM.Timer →
  MM.heap m !! ref = Some w →
  FDW.by_owner e = false →
  FDW.step dirname basename METHOD budget w e = Some w' →
  FDW.calls w' = FDW.calls w ++ [MM.OnDeleted p] →
  MM.obj_get p (MM.filesystemMap m) = Some fs →
  ∃ m', watcherTask ref e (MM.stop m) = Some m'
        ∧ MM.emitted m'
          = MM.emitted m ++ [("unmount", Some (MM.Unmount fs));
                             ("all", Some (MM.Unmount fs));
                             ("change", None)]
        ∧ MM.filesystemMap m' = MM.filesystemMap m
        ∧ MM.deletionWatchers m' = MM.deletionWatchers m
        ∧ MM.deletionWatchers m' !! p = MM.deletionWatchers m !! p
        ∧ MM.heap m' = <[ref := w']> (MM.heap m).
Proof.
  intros Hinst Hi Hw He Hstep Hcalls Hfs.
  pose proof (stop_uninstalls m Hinst Hi) as Hun.
  assert (Hstop : ∀ h, MM.uninstalled (MM.set_heap h (MM.stop m))) by exact (λ _, Hun).
  assert (Hfields : MM.heap (MM.stop m) = MM.heap m
                    ∧ MM.filesystemMap (MM.stop m) = MM.filesystemMap m
                    ∧ MM.deletionWatchers (MM.stop m) = MM.deletionWatchers m
                    ∧ MM.emitted (MM.stop m) = MM.emitted m).
  { unfold MM.stop. rewrite Hi. cbn. auto. }
  destruct Hfields as (Hh & HF & HD & HE).
  unfold MM.watcherTask. rewrite He, Hh, Hw, Hstep, Hcalls.
  rewrite drop_app_length. cbn [foldl MM.runCallback].
  unfold MM.onDeleted. cbn [MM.filesystemMap MM.set_heap]. rewrite HF, Hfs.
  rewrite emit_uninstalled by apply Hstop. cbn [MM.andThen].
  rewrite emit_uninstalled by apply Hstop. cbn [MM.andThen].
  rewrite emit_uninstalled by apply Hstop.
  eexists. split; [reflexivity|]. cbn. rewrite HF, HD, HE, <- !app_assoc. cbn.
  auto 10.
Qed.

End SchedulerClaims.

(** The claim C8 fails right after the module is loaded: the first pass is
    still waiting for the enumeration when the timer fires, and two passes
    are in progress. *)
Lemma two_passes_in_progress :
  MM.passesInProgress MM.loaded = 1
  ∧ MM.passesInProgress <$> Examples.mrun MM.loaded [MM.TimerFires] = Some 2.
Proof. split; vm_compute; reflexivity. Qed.

Lemma timer_starts_pass_regardless_witness :
  Examples.mrun MM.loaded [MM.TimerFires] = Some (MM.beginPass MM.loaded)
  ∧ MM.passesInProgress (MM.beginPass MM.loaded) = 2.
Proof.
  exact (timer_starts_pass_regardless PosixPath.dirname PosixPath.basename FDW.PARENT 8
           AsciiLocale.toUpperCase AsciiLocale.localeCompare AsciiLocale.v5 "/"%char
           MM.darwin MM.loaded eq_refl).
Defined.

Lemma watcher_fires_in_stopped_monitor_witness :
  ∃ m', MM.watcherTask PosixPath.dirname PosixPath.basename FDW.PARENT 8 0
          (FDW.Notify "/Volumes" "rename" "Backup") (MM.stop Examples.watchingBackup)
        = Some m'
        ∧ MM.emitted m'
          = MM.emitted Examples.watchingBackup
            ++ [("unmount", Some (MM.Unmount (MM.ofDevice Examples.backup)));
                ("all", Some (MM.Unmount (MM.ofDevice Examples.backup)));
                ("change", None)]
        ∧ MM.filesystemMap m' = MM.filesystemMap Examples.watchingBackup
        ∧ MM.deletionWatchers m' = MM.deletionWatchers Examples.watchingBackup.
Proof.
  epose proof (watcher_fires_in_stopped_monitor PosixPath.dirname PosixPath.basename
                 FDW.PARENT 8 Examples.watchingBackup 0 _ _
                 (FDW.Notify "/Volumes" "rename" "Backup") "/Volumes/Backup"
                 (MM.ofDevice Examples.backup)) as H.
  edestruct H as (m' & Hrun & HE & HF & HD & _); clear H.
  - reflexivity.
  - reflexivity.
  - vm_compute. reflexivity.
  - reflexivity.
  - vm_compute. reflexivity.
  - vm_compute. reflexivity.
  - vm_compute. reflexivity.
  - exists m'. split; [exact Hrun|]. split; [exact HE|]. split; [exact HF | exact HD].
Defined.

(** C4, at the failing input: the spec's own example.  The pass that sees
    the relabelled volume emits the one [Rename] event, but no handler is
    registered for "rename" ([start] registers [_onMount] under "onRename"),
    so [filesystemMap] keeps the old volume, and the next pass over the
    same enumeration emits the [Rename] event again. *)
Theorem rename_leaves_state_stale :
  Examples.passEvents [Examples.myBackup] [] Examples.allDirectories Examples.inOrder
    Examples.withBackup
  = Return [MM.Rename (MM.ofDevice Examples.myBackup) (MM.ofDevice Examples.backup)]
  ∧ MM.obj_get "/Volumes/Backup"
      (MM.filesystemMap
         (MM.state_of (Examples.intervalFunction [Examples.myBackup] []
                         Examples.allDirectories Examples.inOrder Examples.withBackup)))
    = Some (MM.ofDevice Examples.backup)
  ∧ Examples.passEvents [Examples.myBackup] [] Examples.allDirectories Examples.inOrder
      (MM.state_of (Examples.intervalFunction [Examples.myBackup] []
                      Examples.allDirectories Examples.inOrder Examples.withBackup))
    = Return [MM.Rename (MM.ofDevice Examples.myBackup) (MM.ofDevice Examples.backup)].
Proof. repeat split; vm_compute; reflexivity. Qed.

(** ** Two passes over the same enumeration *)

Lemma applyEvent_NoDup (F : list (string * MM.FileSystem)) (event : MM.FileSystemEvent) :
  NoDup (map fst F) → NoDup (map fst (MM.applyEvent F event)).
Proof.
  destruct event; cbn; [apply obj_set_NoDup | apply obj_delete_NoDup | auto | auto].
Qed.

(** Where an entry of [filesystemMap] comes from once events are applied:
    it was there and its path was not unmounted, or an event mounted it. *)
Lemma applyEvents_get (events : list MM.FileSystemEvent) :
  ∀ (F : list (string * MM.FileSystem)) (k : string) (v : MM.FileSystem),
    NoDup (map fst F) →
    MM.obj_get k (foldl MM.applyEvent F events) = Some v →
    (MM.obj_get k F = Some v ∧ k ∉ MM.unmountPaths events)
    ∨ (MM.Mount v ∈ events ∧ MM.mountpoints0_path v = k).
Proof.
  induction events as [|event events IH]; intros F k v Hnd Hget; cbn in Hget.
  - left. split; [exact Hget|]. intros H. apply elem_of_nil in H. exact H.
  - destruct (IH _ k v (applyEvent_NoDup F event Hnd) Hget) as [[Hg Hn]|[Hin Hp]].
    + destruct event as [fs|fs|fs old|member old]; cbn in Hg.
      * rewrite obj_get_set in Hg.
        destruct (String.eqb_spec (MM.mountpoints0_path fs) k) as [Hk|Hk].
        -- injection Hg as ->. right. split; [apply elem_of_cons; left; reflexivity | exact Hk].
        -- left. split; [exact Hg | exact Hn].
      * destruct (decide (MM.mountpoints0_path fs = k)) as [Hk|Hk].
        -- subst k. rewrite obj_get_delete_eq in Hg by exact Hnd. discriminate Hg.
        -- rewrite obj_get_delete_ne in Hg by exact Hk.
           left. split; [exact Hg|]. cbn. intros H.
           apply elem_of_cons in H. destruct H as [H|H]; [congruence | contradiction].
      * left. split; [exact Hg | exact Hn].
      * left. split; [exact Hg | exact Hn].
    + right. split; [apply elem_of_cons; right; exact Hin | exact Hp].
Qed.

(** A path on file or mounted by an event, and unmounted by none, is on
    file afterwards. *)
Lemma applyEvents_present (events : list MM.FileSystemEvent) :
  ∀ (F : list (string * MM.FileSystem)) (k : string),
    (is_Some (MM.obj_get k F)
     ∨ ∃ fs, MM.Mount fs ∈ events ∧ MM.mountpoints0_path fs = k) →
    k ∉ MM.unmountPaths events →
    is_Some (MM.obj_get k (foldl MM.applyEvent F events)).
Proof.
  induction events as [|event events IH]; intros F k Hsrc Hn; cbn.
  - destruct Hsrc as [H|(fs & H & _)]; [exact H|]. apply elem_of_nil in H. contradiction.
  - destruct event as [fs|fs|fs old|member old]; cbn in Hn |- *.
    + apply IH; [|exact Hn]. rewrite obj_get_set.
      destruct (String.eqb_spec (MM.mountpoints0_path fs) k) as [Hk|Hk]; [left; eauto|].
      destruct Hsrc as [H|(fs' & H & Hp)]; [left; exact H|].
      apply elem_of_cons in H. destruct H as [[= ->]|H]; [contradiction|].
      right. exists fs'. auto.
    + rewrite elem_of_cons in Hn.
      apply IH; [|intros H; apply Hn; right; exact H].
      rewrite obj_get_delete_ne by (intros H; apply Hn; left; symmetry; exact H).
      destruct Hsrc as [H|(fs' & H & Hp)]; [left; exact H|].
      apply elem_of_cons in H. destruct H as [[=]|H].
      right. exists fs'. auto.
    + apply IH; [|exact Hn].
      destruct Hsrc as [H|(fs' & H & Hp)]; [left; exact H|].
      apply elem_of_cons in H. destruct H as [[=]|H].
      right. exists fs'. auto.
    + apply IH; [|exact Hn].
      destruct Hsrc as [H|(fs' & H & Hp)]; [left; exact H|].
      apply elem_of_cons in H. destruct H as [[=]|H].
      right. exists fs'. auto.
Qed.

Lemma uuidMap_other (candidates : list MM.FileSystem) :
  ∀ (R : gmap string MM.FileSystem) (u : string),
    u ∉ map MM.uuid candidates →
    foldl (λ R fs, <[MM.uuid fs := fs]> R) R candidates !! u = R !! u.
Proof.
  induction candidates as [|c cs IH]; intros R u Hu; cbn; [reflexivity|].
  cbn in Hu. rewrite elem_of_cons in Hu.
  rewrite IH by (intros H; apply Hu; right; exact H).
  apply lookup_insert_ne. intros H. apply Hu. left. symmetry. exact H.
Qed.

(** Every candidate's identity is an own property of the map. *)
Lemma uuidMap_listed (candidates : list MM.FileSystem) (u : string) :
  u ∈ map MM.uuid candidates → is_Some (MM.uuidFilesystemMap candidates !! u).
Proof.
  unfold MM.uuidFilesystemMap. generalize (∅ : gmap string MM.FileSystem).
  induction candidates as [|c cs IH]; intros R Hu; cbn in Hu |- *.
  - apply elem_of_nil in Hu. contradiction.
  - destruct (decide (u ∈ map MM.uuid cs)) as [Hin|Hout]; [apply IH, Hin|].
    rewrite uuidMap_other by exact Hout.
    apply elem_of_cons in Hu. destruct Hu as [->|Hu]; [|contradiction].
    rewrite lookup_insert_eq. eauto.
Qed.

Lemma plain_get_Own {V} (key : string) (obj : gmap string V) (v : V) :
  MM.plain_get key obj = MM.Own v ↔ obj !! key = Some v.
Proof.
  unfold MM.plain_get. destruct (obj !! key) as [v'|].
  - split; intros [= ->]; reflexivity.
  - destruct (bool_decide _); split; discriminate.
Qed.

Lemma plain_get_Inherited {V} (key member : string) (obj : gmap string V) :
  MM.plain_get key obj = MM.Inherited member
  ↔ obj !! key = None ∧ key ∈ MM.Object_prototype ∧ member = key.
Proof.
  unfold MM.plain_get. destruct (obj !! key) as [v'|].
  - split; [discriminate | intros [[=] _]].
  - destruct (bool_decide_reflect (key ∈ MM.Object_prototype)) as [Hin|Hout].
    + split; [intros [= <-]; auto | intros (_ & _ & ->); reflexivity].
    + split; [discriminate | intros (_ & Hin & _); contradiction].
Qed.

Lemma plain_get_Undefined {V} (key : string) (obj : gmap string V) :
  MM.plain_get key obj = MM.Undefined
  ↔ obj !! key = None ∧ key ∉ MM.Object_prototype.
Proof.
  unfold MM.plain_get. destruct (obj !! key) as [v'|].
  - split; [discriminate | intros [[=] _]].
  - destruct (bool_decide_reflect (key ∈ MM.Object_prototype)) as [Hin|Hout].
    + split; [discriminate | intros [_ Hout]; contradiction].
    + split; auto.
Qed.

Lemma diff_unmount_elem (U : gmap string MM.FileSystem) (olds : list MM.FileSystem)
    (old : MM.FileSystem) :
  old ∈ olds → MM.plain_get (MM.uuid old) U = MM.Undefined →
  MM.Unmount old ∈ MM.diffEvents U olds.
Proof.
  intros Hin HU. apply list_elem_of_omap. exists old. split; [exact Hin|].
  rewrite HU. reflexivity.
Qed.

Lemma diff_rename_elem (U : gmap string MM.FileSystem) (olds : list MM.FileSystem)
    (old fs : MM.FileSystem) :
  old ∈ olds → MM.plain_get (MM.uuid old) U = MM.Own fs →
  String.eqb (MM.label fs) (MM.label old) = false →
  MM.Rename fs old ∈ MM.diffEvents U olds.
Proof.
  intros Hin HU Hl. apply list_elem_of_omap. exists old. split; [exact Hin|].
  rewrite HU, Hl. reflexivity.
Qed.

Lemma diff_inherited_elem (U : gmap string MM.FileSystem) (olds : list MM.FileSystem)
    (old : MM.FileSystem) (member : string) :
  old ∈ olds → MM.plain_get (MM.uuid old) U = MM.Inherited member →
  MM.RenameInherited member old ∈ MM.diffEvents U olds.
Proof.
  intros Hin HU. apply list_elem_of_omap. exists old. split; [exact Hin|].
  rewrite HU. reflexivity.
Qed.

Lemma diff_no_mount (U : gmap string MM.FileSystem) (olds : list MM.FileSystem)
    (fs : MM.FileSystem) :
  MM.Mount fs ∉ MM.diffEvents U olds.
Proof.
  intros H. apply list_elem_of_omap in H. destruct H as (old & _ & H).
  destruct (MM.plain_get (MM.uuid old) U); [destruct (negb _)| |]; discriminate H.
Qed.

Lemma unmountPaths_elem (events : list MM.FileSystemEvent) (k : string) :
  k ∈ MM.unmountPaths events ↔
  ∃ old, MM.Unmount old ∈ events ∧ MM.mountpoints0_path old = k.
Proof.
  unfold MM.unmountPaths. rewrite list_elem_of_omap. split.
  - intros (event & Hin & H). destruct event as [fs|fs|fs old|member old]; try discriminate H.
    injection H as <-. exists fs. auto.
  - intros (old & Hin & <-). exists (MM.Unmount old). auto.
Qed.

Lemma List_filter_nil {A} (f : A → bool) (l : list A) :
  (∀ x, x ∈ l → f x = false) → List.filter f l = [].
Proof.
  induction l as [|x l IH]; intros H; cbn; [reflexivity|].
  rewrite (H x) by (apply elem_of_cons; left; reflexivity).
  apply IH. intros y Hy. apply H. apply elem_of_cons. right. exact Hy.
Qed.

Lemma List_filter_elem {A} (f : A → bool) (l : list A) (x : A) :
  x ∈ List.filter f l ↔ x ∈ l ∧ f x = true.
Proof. rewrite !list_elem_of_In. apply List.filter_In. Qed.

Section TwoPasses.

Variable toUpperCase : string → string.
Variable localeCompare : string → string → Z.
Variable v5 : string → string → string.
Variable sep : ascii.
Variable process_platform : MM.platform.

Abbreviation state := (MM.state toUpperCase localeCompare process_platform).
Abbreviation newState := (MM.newState toUpperCase localeCompare v5 sep process_platform).
Abbreviation intervalFunction :=
  (MM.intervalFunction toUpperCase localeCompare v5 sep process_platform).
Abbreviation passEvents := (MM.passEvents toUpperCase localeCompare v5 sep process_platform).

(** C5 (amended).  In a started monitor whose maps are in step, with probes
    that fail only with "not found" and answer the same in both passes:
    when the first pass produces no "rename" event, every volume it mounts
    has the label of the candidate the identity map holds under the volume's
    identity, and it unmounts no volume whose mount path a confirmed
    candidate occupies, then a second pass over the same enumeration
    produces no event; it emits "changed" and "refresh" only and leaves
    [filesystemMap] as it is. *)
Theorem second_pass_is_silent (devices : list MM.BlockDevice)
    (filesystems : list MM.FsSize) (lstat : string → StatResult)
    (latency latency' : nat → nat) (m : MM.monitor) :
  MM.installed m →
  MM.consistent m →
  MM.no_io_error lstat →
  (∀ events event,
     passEvents devices filesystems lstat latency m = Return events →
     event ∈ events →
     MM.type event ≠ "rename") →
  (∀ events c f,
     passEvents devices filesystems lstat latency m = Return events →
     MM.Mount c ∈ events →
     MM.plain_get (MM.uuid c) (MM.uuidFilesystemMap (newState devices filesystems))
     = MM.Own f →
     MM.label f = MM.label c) →
  (∀ events old c,
     passEvents devices filesystems lstat latency m = Return events →
     MM.Unmount old ∈ events →
     c ∈ newState devices filesystems →
     MM.is_dir lstat c = true →
     MM.mountpoints0_path c ≠ MM.mountpoints0_path old) →
  ∃ m1 m2,
    intervalFunction devices filesystems lstat latency m = MM.Done m1
    ∧ passEvents devices filesystems lstat latency' m1 = Return []
    ∧ intervalFunction devices filesystems lstat latency' m1 = MM.Done m2
    ∧ MM.emitted m2 = MM.emitted m1 ++ [("changed", None); ("refresh", None)]
    ∧ MM.filesystemMap m2 = MM.filesystemMap m1.
Proof.
  intros Hinst Hcons Hok Hnorename Hlabels Htakeover.
  destruct (intervalFunction_spec toUpperCase localeCompare v5 sep process_platform
              devices filesystems lstat latency m Hinst Hcons Hok)
    as (Hev1 & m1 & Hrun1 & HF1 & _ & _ & _ & _ & Hcons1 & Hinst1).
  destruct (intervalFunction_spec toUpperCase localeCompare v5 sep process_platform
              devices filesystems lstat latency' m1 Hinst1 Hcons1 Hok)
    as (Hev2 & m2 & Hrun2 & HF2 & HE2 & _).
  pose proof (λ event, Hnorename _ event Hev1) as Hnr.
  pose proof (λ c f, Hlabels _ c f Hev1) as Hlb.
  pose proof (λ old c, Htakeover _ old c Hev1) as Hto.
  clear Hnorename Hlabels Htakeover.
  set (candidates := newState devices filesystems) in *.
  set (events1 := map MM.Mount
                    (List.filter
                       (λ fs, MM.is_dir lstat fs && MM.is_new (MM.filesystemMap m) fs)
                       (MM.settled candidates latency))
                  ++ MM.diffEvents (MM.uuidFilesystemMap candidates) (state m)) in *.
  assert (Hmounted : ∀ c, MM.Mount c ∈ events1 → c ∈ candidates).
  { intros c Hc. apply elem_of_app in Hc. destruct Hc as [Hc|Hc].
    - apply list_elem_of_fmap in Hc. destruct Hc as (c' & [= <-] & Hc).
      apply List_filter_elem in Hc. destruct Hc as [Hc _].
      rewrite settled_Permutation in Hc. exact Hc.
    - exfalso. eapply diff_no_mount, Hc. }
  (* no candidate is mounted by the second pass *)
  assert (Ha : List.filter
                 (λ fs, MM.is_dir lstat fs && MM.is_new (MM.filesystemMap m1) fs)
                 (MM.settled candidates latency') = []).
  { apply List_filter_nil. intros c Hc. rewrite settled_Permutation in Hc.
    destruct (MM.is_dir lstat c) eqn:Hdir; [cbn|reflexivity].
    unfold MM.is_new. rewrite HF1.
    destruct (applyEvents_present events1 (MM.filesystemMap m) (MM.mountpoints0_path c))
      as [v Hv]; [| |rewrite Hv; reflexivity].
    - destruct (MM.obj_get (MM.mountpoints0_path c) (MM.filesystemMap m)) as [v|] eqn:Eold;
        [left; eauto|].
      right. exists c. split; [|reflexivity].
      apply elem_of_app. left. apply list_elem_of_fmap. exists c. split; [reflexivity|].
      apply List_filter_elem. split; [rewrite settled_Permutation; exact Hc|].
      unfold MM.is_new. rewrite Hdir, Eold. reflexivity.
    - intros Hun. apply unmountPaths_elem in Hun. destruct Hun as (old & Hold & Hp).
      apply (Hto old c Hold Hc Hdir). symmetry. exact Hp. }
  (* no known volume is unmounted or renamed by the second pass *)
  assert (Hb : MM.diffEvents (MM.uuidFilesystemMap candidates) (state m1) = []).
  { apply omap_nil_iff. intros v Hv.
    apply state_elem in Hv. unfold MM.Object_values in Hv.
    apply list_elem_of_fmap in Hv. destruct Hv as ([k v'] & Hvv & Hkv). cbn in Hvv. subst v'.
    destruct Hcons1 as (_ & Hnd1 & _). pose proof Hcons as (Hkeyed & Hnd & _).
    pose proof (obj_get_NoDup _ _ _ Hnd1 Hkv) as Hget. rewrite HF1 in Hget.
    destruct (applyEvents_get events1 _ k v Hnd Hget) as [[Hg Hn]|[Hin _]].
    - apply obj_get_elem in Hg.
      assert (Hpath : MM.mountpoints0_path v = k).
      { rewrite Forall_forall in Hkeyed. apply (Hkeyed (k, v)), Hg. }
      assert (Hst : v ∈ state m).
      { apply state_elem. unfold MM.Object_values. apply list_elem_of_fmap.
        exists (k, v). auto. }
      destruct (MM.plain_get (MM.uuid v) (MM.uuidFilesystemMap candidates))
        as [fs|member|] eqn:EU.
      + destruct (String.eqb (MM.label fs) (MM.label v)) eqn:El; [reflexivity|].
        exfalso. apply (Hnr (MM.Rename fs v)); [|reflexivity]. apply elem_of_app. right.
        apply diff_rename_elem; assumption.
      + exfalso. apply (Hnr (MM.RenameInherited member v)); [|reflexivity].
        apply elem_of_app. right. apply diff_inherited_elem; assumption.
      + exfalso. apply Hn. apply unmountPaths_elem. exists v. split; [|exact Hpath].
        apply elem_of_app. right. apply diff_unmount_elem; assumption.
    - destruct (uuidMap_listed candidates (MM.uuid v)) as [f Hf].
      { apply list_elem_of_fmap. exists v. split; [reflexivity | apply Hmounted, Hin]. }
      apply plain_get_Own in Hf. rewrite Hf.
      rewrite (Hlb v f Hin Hf). rewrite String.eqb_refl. reflexivity. }
  rewrite Ha, Hb in Hev2, HF2, HE2. cbn in Hev2, HF2, HE2.
  exists m1, m2. auto.
Qed.

End TwoPasses.

(** The claim C5 fails when a volume of another identity has taken over a
    known mount path: the first pass only unmounts the known volume, the
    second pass over the same enumeration mounts the new one. *)
Lemma second_pass_mounts_after_takeover :
  Examples.passEvents [Examples.other] [] Examples.allDirectories Examples.inOrder
    Examples.withBackup
  = Return [MM.Unmount (MM.ofDevice Examples.backup)]
  ∧ Examples.passEvents [Examples.other] [] Examples.allDirectories Examples.inOrder
      (MM.state_of (Examples.intervalFunction [Examples.other] []
                      Examples.allDirectories Examples.inOrder Examples.withBackup))
    = Return [MM.Mount (MM.ofDevice Examples.other)].
Proof. split; vm_compute; reflexivity. Qed.

(** Two volumes that carry one identity under different labels: the first
    pass from an empty state mounts both, and the second pass over the same
    enumeration reports a rename, since the identity map holds the later
    of the two. *)
Lemma second_pass_renames_on_identity_clash :
  let devices := [Examples.disk "disk5s1" "A" "/Volumes/A" "u5";
                  Examples.disk "disk6s1" "B" "/Volumes/B" "u5"] in
  Examples.passEvents devices [] Examples.allDirectories Examples.inOrder Examples.idle
  = Return [MM.Mount (MM.ofDevice (Examples.disk "disk5s1" "A" "/Volumes/A" "u5"));
            MM.Mount (MM.ofDevice (Examples.disk "disk6s1" "B" "/Volumes/B" "u5"))]
  ∧ Examples.passEvents devices [] Examples.allDirectories Examples.inOrder
      (MM.state_of (Examples.intervalFunction devices [] Examples.allDirectories
                      Examples.inOrder Examples.idle))
    = Return [MM.Rename (MM.ofDevice (Examples.disk "disk6s1" "B" "/Volumes/B" "u5"))
                (MM.ofDevice (Examples.disk "disk5s1" "A" "/Volumes/A" "u5"))].
Proof. split; vm_compute; reflexivity. Qed.

Lemma installed_withBackup : MM.installed Examples.withBackup.
Proof. reflexivity. Qed.

Lemma consistent_withBackup : MM.consistent Examples.withBackup.
Proof.
  split; [|split].
  - vm_compute. repeat constructor.
  - vm_compute. apply NoDup_singleton.
  - intros k Hk. vm_compute in Hk. apply list_elem_of_singleton in Hk. subst k.
    vm_compute. eauto.
Qed.

Lemma second_pass_is_silent_witness :
  ∃ m1 m2,
    Examples.intervalFunction [Examples.alpha] [] Examples.allDirectories
      Examples.inOrder Examples.withBackup = MM.Done m1
    ∧ Examples.passEvents [Examples.alpha] [] Examples.allDirectories
        Examples.reversed m1 = Return []
    ∧ Examples.intervalFunction [Examples.alpha] [] Examples.allDirectories
        Examples.reversed m1 = MM.Done m2
    ∧ MM.emitted m2 = MM.emitted m1 ++ [("changed", None); ("refresh", None)]
    ∧ MM.filesystemMap m2 = MM.filesystemMap m1.
Proof.
  apply (second_pass_is_silent AsciiLocale.toUpperCase AsciiLocale.localeCompare
           AsciiLocale.v5 "/"%char MM.darwin [Examples.alpha] []
           Examples.allDirectories Examples.inOrder Examples.reversed
           Examples.withBackup installed_withBackup consistent_withBackup
           no_io_error_allDirectories).
  - intros events event H Hin. vm_compute in H. injection H as <-.
    repeat (apply elem_of_cons in Hin; destruct Hin as [->|Hin]; [discriminate|]).
    apply elem_of_nil in Hin. contradiction.
  - intros events c f H Hin Hf. vm_compute in H. injection H as <-.
    apply elem_of_cons in Hin. destruct Hin as [[= ->]|Hin].
    + vm_compute in Hf. injection Hf as <-. reflexivity.
    + apply list_elem_of_singleton in Hin. discriminate Hin.
  - intros events old c H Hin Hc _. vm_compute in H. injection H as <-.
    vm_compute in Hc. apply list_elem_of_singleton in Hc. subst c.
    apply elem_of_cons in Hin. destruct Hin as [Hin|Hin]; [discriminate Hin|].
    apply list_elem_of_singleton in Hin. injection Hin as ->.
    vm_compute. discriminate.
Defined.

(** ** The invariant of the monitor *)

Lemma emitEvents_uninstalled (events : list MM.FileSystemEvent) :
  ∀ m : MM.monitor,
    MM.uninstalled m →
    MM.emitEvents events m
    = MM.Done (MM.set_emitted (MM.emitted m ++ MM.emissions events) m).
Proof.
  induction events as [|event events IH]; intros m Hun.
  - cbn. rewrite app_nil_r. destruct m; reflexivity.
  - rewrite emitEvents_cons.
    rewrite emit_uninstalled by exact Hun. cbn [MM.andThen].
    rewrite emit_uninstalled by exact Hun. cbn [MM.andThen].
    rewrite IH by exact Hun. cbn. rewrite <- !app_assoc. reflexivity.
Qed.

Lemma settle_mounts (candidates : list MM.FileSystem) (olds : list (option MM.FileSystem))
    (lstat : string → StatResult) (order : list nat) :
  ∀ events mounted,
    MM.unmountPaths events = [] →
    MM.settle candidates olds lstat order events = Return mounted →
    MM.unmountPaths mounted = [].
Proof.
  induction order as [|k order IH]; intros events mounted He; cbn.
  - intros [= <-]. exact He.
  - destruct (candidates !! k) as [fs|]; [|apply IH, He].
    destruct (olds !! k) as [old|]; [|apply IH, He].
    destruct (Functions.isDirectory _) as [b|err]; [|discriminate].
    apply IH. destruct (b && _); [|exact He].
    rewrite unmountPaths_app, He. reflexivity.
Qed.

Section Invariant.

Variable dirname : string → string.
Variable basename : string → string.
Variable METHOD : FDW.method.
Variable budget : nat.
Variable toUpperCase : string → string.
Variable localeCompare : string → string → Z.
Variable v5 : string → string → string.
Variable sep : ascii.
Variable process_platform : MM.platform.

Abbreviation finishPass := (MM.finishPass toUpperCase localeCompare process_platform).
Abbreviation mstep :=
  (MM.mstep dirname basename METHOD budget toUpperCase localeCompare v5 sep
     process_platform).
Abbreviation mrun :=
  (MM.mrun dirname basename METHOD budget toUpperCase localeCompare v5 sep
     process_platform).

Lemma finishPass_invariant (candidates : list MM.FileSystem)
    (mounted : list MM.FileSystemEvent) (m : MM.monitor) :
  MM.invariant m →
  MM.unmountPaths mounted = [] →
  MM.invariant (MM.state_of (finishPass candidates mounted m)).
Proof.
  intros [Hcons Hl] Hmounted. unfold MM.invariant.
  destruct (MM.intervalVar m) as [[]|] eqn:Hi.
  - destruct (finishPass_spec toUpperCase localeCompare process_platform
                candidates mounted m Hl Hcons Hmounted)
      as (m' & Hrun & _ & _ & HL & HI & _ & Hc).
    rewrite Hrun. cbn. rewrite HI, Hi. split; [exact Hc|].
    apply (installed_ext m); assumption.
  - unfold MM.finishPass. rewrite emitEvents_uninstalled by exact Hl.
    cbn [MM.andThen]. rewrite emit_uninstalled by exact Hl.
    cbn [MM.andThen]. rewrite emit_uninstalled by exact Hl.
    cbn. rewrite Hi. split; [exact Hcons | exact Hl].
Qed.

Lemma onDeleted_invariant (p : string) (m : MM.monitor) :
  MM.invariant m → MM.invariant (MM.state_of (MM.onDeleted p m)).
Proof.
  intros [Hcons Hl]. unfold MM.onDeleted.
  destruct (MM.obj_get p (MM.filesystemMap m)) as [fs|] eqn:Hget; [|split; assumption].
  change (MM.andThen (MM.emit "unmount" (Some (MM.Unmount fs)) m)
            (MM.emit "all" (Some (MM.Unmount fs))))
    with (MM.andThen (MM.emit (MM.type (MM.Unmount fs)) (Some (MM.Unmount fs)) m)
            (MM.emit "all" (Some (MM.Unmount fs)))).
  rewrite <- (andThen_Done (MM.andThen (MM.emit (MM.type (MM.Unmount fs)) _ m) _)).
  change MM.Done with (MM.emitEvents []). rewrite <- emitEvents_cons.
  unfold MM.invariant. destruct (MM.intervalVar m) as [[]|] eqn:Hi.
  - assert (Hpath : MM.mountpoints0_path fs = p).
    { destruct Hcons as (Hkeyed & _). rewrite Forall_forall in Hkeyed.
      apply (Hkeyed (p, fs)). apply obj_get_elem, Hget. }
    destruct (emitEvents_spec [MM.Unmount fs] m Hl Hcons)
      as (m' & Hrun & _ & _ & HL & HI & _ & Hc).
    { cbn. apply NoDup_singleton. }
    { intros k Hk. cbn in Hk. apply list_elem_of_singleton in Hk. subst k.
      rewrite Hpath. apply obj_get_keys. eauto. }
    rewrite Hrun. cbn [MM.andThen].
    rewrite emit_other; [|apply (installed_ext m); assumption | repeat constructor].
    cbn. rewrite HI, Hi. split; [exact Hc | apply (installed_ext m); assumption].
  - rewrite emitEvents_uninstalled by exact Hl. cbn [MM.andThen].
    rewrite emit_uninstalled by exact Hl. cbn. rewrite Hi. split; assumption.
Qed.

Lemma runCallbacks_invariant (fired : list MM.callback) :
  ∀ m : MM.monitor, MM.invariant m → MM.invariant (foldl MM.runCallback m fired).
Proof.
  induction fired as [|[p] fired IH]; intros m Hm; cbn; [exact Hm|].
  apply IH, onDeleted_invariant, Hm.
Qed.

Lemma start_invariant (m : MM.monitor) : MM.invariant m → MM.invariant (MM.start m).
Proof.
  intros [Hcons Hl]. unfold MM.start.
  destruct (MM.intervalVar m) as [[]|] eqn:Hi; [split; [exact Hcons | rewrite Hi; exact Hl]|].
  split; [exact Hcons|]. cbn. unfold MM.installed. cbn.
  rewrite <- !app_assoc, List.filter_app. unfold MM.uninstalled in Hl. rewrite Hl.
  reflexivity.
Qed.

Lemma stop_invariant (m : MM.monitor) : MM.invariant m → MM.invariant (MM.stop m).
Proof.
  intros [Hcons Hl].
  destruct (MM.intervalVar m) as [[]|] eqn:Hi.
  - split.
    + unfold MM.stop. rewrite Hi. exact Hcons.
    + pose proof (stop_uninstalls m Hl Hi) as Hun.
      unfold MM.stop in *. rewrite Hi in *. exact Hun.
  - unfold MM.stop. rewrite Hi. split; [exact Hcons | rewrite Hi; exact Hl].
Qed.

(** Every task keeps the invariant. *)
Lemma mstep_invariant (m m' : MM.monitor) (e : MM.mevent) :
  MM.invariant m → mstep m e = Some m' → MM.invariant m'.
Proof.
  intros Hm. destruct e as [|p devices filesystems|p|p lstat latency|ref e| |]; cbn.
  - intros [= <-]. destruct (MM.intervalVar m); exact Hm.
  - intros [= <-]. unfold MM.enumerationDone.
    destruct (MM.inflight m !! p) as [[| |]|]; try exact Hm.
    destruct (MM.newState _ _ _ _ _ _ _) as [|c cs]; [|exact Hm].
    apply finishPass_invariant; [exact Hm | reflexivity].
  - intros [= <-]. destruct (MM.inflight m !! p) as [[| |]|]; exact Hm.
  - intros [= <-]. unfold MM.probesDone.
    destruct (MM.inflight m !! p) as [[|candidates olds|]|]; try exact Hm.
    destruct (MM.mountEvents candidates olds lstat latency) as [mounted|err] eqn:E;
      [|exact Hm].
    apply finishPass_invariant; [exact Hm|].
    eapply settle_mounts; [|exact E]. reflexivity.
  - unfold MM.watcherTask. destruct (FDW.by_owner e); [intros [= <-]; exact Hm|].
    destruct (MM.heap m !! ref) as [w|]; [|intros [= <-]; exact Hm].
    destruct (FDW.step _ _ _ _ w e) as [w'|]; [|discriminate].
    intros [= <-]. apply runCallbacks_invariant. exact Hm.
  - intros [= <-]. apply start_invariant, Hm.
  - intros [= <-]. apply stop_invariant, Hm.
Qed.

(** The invariant holds once the module is loaded and after every sequence
    of tasks: the hypotheses of the theorems on a pass hold whenever a pass
    runs in a started monitor. *)
Lemma invariant_reachable (es : list MM.mevent) :
  ∀ m m' : MM.monitor, MM.invariant m → mrun m es = Some m' → MM.invariant m'.
Proof.
  induction es as [|e es IH]; intros m m' Hm; cbn.
  - intros [= <-]. exact Hm.
  - destruct (MM.mstep _ _ _ _ _ _ _ _ _ m e) as [m1|] eqn:E; [|discriminate].
    apply IH. eapply mstep_invariant; eassumption.
Qed.

End Invariant.

Lemma invariant_loaded : MM.invariant MM.loaded.
Proof.
  split; [|reflexivity]. split; [constructor|]. split; [constructor|].
  intros k Hk. apply elem_of_nil in Hk. contradiction.
Qed.

(** * Further properties *)

(** ** Functions.ts *)

(** X1.  [exists] and [isDirectory] agree on failures: each answers [false]
    for "not found" and rethrows every other error of [lstat], with that
    error's code, and throws in no other case; [exists] confirms whatever
    [lstat] finds, [isDirectory] only a directory. *)
Theorem exists_agrees_with_isDirectory (r : StatResult) :
  (Functions.exists_ r = Return true ↔ ∃ d, r = Stats d)
  ∧ (Functions.isDirectory r = Return true ↔ r = Stats true)
  ∧ (Functions.exists_ r = Return false ↔ r = StatError "ENOENT")
  ∧ (Functions.isDirectory r = Return false
     ↔ r = Stats false ∨ r = StatError "ENOENT")
  ∧ (∀ code, Functions.exists_ r = Throw code
             ↔ r = StatError code ∧ code ≠ "ENOENT")
  ∧ (∀ code, Functions.isDirectory r = Throw code
             ↔ r = StatError code ∧ code ≠ "ENOENT").
Proof.
  destruct r as [d|c]; cbn; [|destruct (String.eqb_spec c "ENOENT") as [->|Hne]];
    repeat match goal with
           | |- _ ∧ _ => split
           | |- _ ↔ _ => split
           | |- ∀ _, _ => intro
           | H : ∃ _, _ |- _ => destruct H
           | H : _ ∧ _ |- _ => destruct H
           | H : _ ∨ _ |- _ => destruct H
           end;
    try discriminate; try congruence; eauto;
    try (left; congruence); right; congruence.
Qed.

Section RemoveFromList.

Context `{EqDecision A}.

Lemma indexOf_None (value : A) (array : list A) :
  Functions.indexOf value array = None ↔ value ∉ array.
Proof.
  induction array as [|x array IH]; cbn.
  - split; [intros _ H; apply elem_of_nil in H; exact H | reflexivity].
  - destruct (decide (x = value)) as [->|Hne].
    + split; [discriminate|]. intros H. exfalso. apply H. apply elem_of_cons. auto.
    + rewrite elem_of_cons. destruct (Functions.indexOf value array) as [i|]; cbn.
      * split; [discriminate|]. intros H. exfalso. apply H. right.
        destruct (decide (value ∈ array)) as [Hin|Hin]; [exact Hin|].
        apply IH in Hin. discriminate Hin.
      * split; [|reflexivity]. intros _ [H|H]; [congruence|].
        apply IH in H; [exact H | reflexivity].
Qed.

Lemma indexOf_Some (value : A) (array : list A) (idx : nat) :
  Functions.indexOf value array = Some idx →
  ∃ before after,
    array = before ++ value :: after ∧ (value ∉ before) ∧ length before = idx.
Proof.
  revert idx. induction array as [|x array IH]; intros idx; cbn; [discriminate|].
  destruct (decide (x = value)) as [->|Hne].
  - intros [= <-]. exists [], array. repeat split. apply not_elem_of_nil.
  - destruct (Functions.indexOf value array) as [i|]; cbn; [|discriminate].
    intros [= <-]. destruct (IH i eq_refl) as (before & after & -> & Hnot & Hlen).
    exists (x :: before), after. repeat split.
    + intros H. apply elem_of_cons in H. destruct H as [H|H]; [congruence | contradiction].
    + cbn. rewrite Hlen. reflexivity.
Qed.

Lemma removeFromList_spec (array : list A) (value : A) :
  ((value ∉ array) ∧ Functions.removeFromList array value = (false, array))
  ∨ (∃ before after,
       array = before ++ value :: after
       ∧ (value ∉ before)
       ∧ Functions.removeFromList array value = (true, before ++ after)).
Proof.
  unfold Functions.removeFromList.
  destruct (Functions.indexOf value array) as [idx|] eqn:E.
  - right. destruct (indexOf_Some _ _ _ E) as (before & after & -> & Hnot & Hlen).
    exists before, after. repeat split; [exact Hnot|]. f_equal.
    subst idx. clear. induction before as [|x before IH]; cbn; [reflexivity|].
    f_equal. exact IH.
  - left. split; [apply indexOf_None, E | reflexivity].
Qed.

(** X2.  [removeFromList] returns [false] exactly when the value is not in
    the array, and then leaves the array as it is; otherwise it returns
    [true] and has removed the first occurrence of the value and nothing
    else: what came before and what came after stay, in order, later
    occurrences included. *)
Theorem removeFromList_first_occurrence (array : list A) (value : A) :
  ((value ∉ array) ∧ Functions.removeFromList array value = (false, array))
  ∨ (∃ before after,
       array = before ++ value :: after
       ∧ (value ∉ before)
       ∧ Functions.removeFromList array value = (true, before ++ after)).
Proof. apply removeFromList_spec. Qed.

(** X3.  A successful [removeFromList] takes away exactly one element: the
    array before the call is a rearrangement of the value and the array
    after it, and is one longer. *)
Theorem removeFromList_one_less (array array' : list A) (value : A) :
  Functions.removeFromList array value = (true, array') →
  array ≡ₚ value :: array' ∧ length array = S (length array').
Proof.
  intros H.
  destruct (removeFromList_spec array value)
    as [[_ H']|(before & after & -> & _ & H')]; rewrite H' in H.
  - discriminate H.
  - injection H as <-. split.
    + symmetry. apply Permutation_middle.
    + rewrite !length_app. cbn. lia.
Qed.

End RemoveFromList.

Lemma removeFromList_one_less_witness :
  [3; 1; 4; 1; 5] ≡ₚ 1 :: [3; 4; 1; 5] ∧ length [3; 1; 4; 1; 5] = S (length [3; 4; 1; 5]).
Proof. exact (removeFromList_one_less [3; 1; 4; 1; 5] [3; 4; 1; 5] 1 eq_refl). Defined.

(** *** sleep *)

Lemma sleep_done_stays (es : list Functions.sleep_event) :
  ∀ s : Functions.Sleep,
    Functions.s_timeout s = false →
    Functions.s_onAbort s = false →
    Functions.s_timeout (Functions.sleep_run s es) = false
    ∧ Functions.s_onAbort (Functions.sleep_run s es) = false
    ∧ Functions.s_settled (Functions.sleep_run s es) = Functions.s_settled s
    ∧ Functions.s_wakeups (Functions.sleep_run s es) = Functions.s_wakeups s.
Proof.
  induction es as [|e es IH]; intros s Ht Ha; cbn; [auto|].
  destruct s as [ms sig t a st wk]. cbn in Ht, Ha. subst t a.
  destruct e; cbn.
  - apply IH; reflexivity.
  - destruct sig as [[|]|]; cbn; apply IH; reflexivity.
Qed.

Lemma sleep_run_spec (ms : Z) (signal : option bool) (es : list Functions.sleep_event) :
  let s := Functions.sleep_run (Functions.sleep ms signal) es in
  ((Functions.TimeoutFires ∈ es ∨ (signal = Some false ∧ Functions.SignalAborts ∈ es))
   ∧ Functions.s_wakeups s = 1 ∧ Functions.s_settled s = true
   ∧ Functions.s_timeout s = false ∧ Functions.s_onAbort s = false)
  ∨ (¬ (Functions.TimeoutFires ∈ es ∨ (signal = Some false ∧ Functions.SignalAborts ∈ es))
     ∧ Functions.s_wakeups s = 0 ∧ Functions.s_settled s = false
     ∧ Functions.s_timeout s = true
     ∧ Functions.s_onAbort s = match signal with Some _ => true | None => false end).
Proof.
  cbn zeta. induction es as [|e es IH].
  - right. cbn. repeat split. intros [H|[_ H]]; apply elem_of_nil in H; exact H.
  - destruct e.
    + left. split; [left; apply elem_of_cons; auto|].
      cbn [Functions.sleep_run foldl Functions.sleep_step Functions.sleep
           Functions.s_timeout].
      match goal with |- context [foldl Functions.sleep_step ?s1 es] =>
        destruct (sleep_done_stays es s1 eq_refl eq_refl) as (H1 & H2 & H3 & H4)
      end.
      unfold Functions.sleep_run in *. rewrite H1, H2, H3, H4. auto.
    + destruct signal as [[|]|].
      * (* a signal that had aborted before: nothing happens *)
        change (Functions.sleep_run (Functions.sleep ms (Some true))
                  (Functions.SignalAborts :: es))
          with (Functions.sleep_run (Functions.sleep ms (Some true)) es).
        destruct IH as [(Hw & H)|(Hw & H)]; [left|right]; (split; [|exact H]).
        -- destruct Hw as [Hw|[[=] _]]. left. apply elem_of_cons. auto.
        -- intros [Hw'|[[=] _]]. apply Hw. left.
           apply elem_of_cons in Hw'. destruct Hw' as [[=]|Hw']. exact Hw'.
      * left. split; [right; split; [reflexivity | apply elem_of_cons; auto]|].
        cbn [Functions.sleep_run foldl Functions.sleep_step Functions.sleep
             Functions.s_signal Functions.s_onAbort].
        match goal with |- context [foldl Functions.sleep_step ?s1 es] =>
          destruct (sleep_done_stays es s1 eq_refl eq_refl) as (H1 & H2 & H3 & H4)
        end.
        unfold Functions.sleep_run in *. rewrite H1, H2, H3, H4. auto.
      * change (Functions.sleep_run (Functions.sleep ms None)
                  (Functions.SignalAborts :: es))
          with (Functions.sleep_run (Functions.sleep ms None) es).
        destruct IH as [(Hw & H)|(Hw & H)]; [left|right]; (split; [|exact H]).
        -- destruct Hw as [Hw|[[=] _]]. left. apply elem_of_cons. auto.
        -- intros [Hw'|[[=] _]]. apply Hw. left.
           apply elem_of_cons in Hw'. destruct Hw' as [[=]|Hw']. exact Hw'.
Qed.

(** X4.  [sleep] resumes its caller at most once, and exactly when the
    timer has fired or a signal that was passed, and had not aborted
    before the call, has aborted.  Without a signal, or with one that had
    already aborted, only the timer ends the sleep. *)
Theorem sleep_wakes_once (ms : Z) (signal : option bool)
    (es : list Functions.sleep_event) :
  Functions.s_wakeups (Functions.sleep_run (Functions.sleep ms signal) es) ≤ 1
  ∧ (Functions.s_wakeups (Functions.sleep_run (Functions.sleep ms signal) es) = 1
     ↔ Functions.TimeoutFires ∈ es
       ∨ (signal = Some false ∧ Functions.SignalAborts ∈ es)).
Proof.
  destruct (sleep_run_spec ms signal es) as [(Hw & H1 & _)|(Hw & H0 & _)].
  - rewrite H1. split; [lia|]. split; [intros _; exact Hw | reflexivity].
  - rewrite H0. split; [lia|]. split; [discriminate | intros H; contradiction].
Qed.

(** X5.  [sleep] leaves nothing behind: once it has resolved, the timer is
    no longer pending (fired or cleared) and [onAbort] is off the signal;
    until then the timer is pending and, when a signal was passed,
    [onAbort] is registered on it. *)
Theorem sleep_releases (ms : Z) (signal : option bool)
    (es : list Functions.sleep_event) :
  let s := Functions.sleep_run (Functions.sleep ms signal) es in
  if Functions.s_settled s
  then Functions.s_timeout s = false ∧ Functions.s_onAbort s = false
  else Functions.s_timeout s = true
       ∧ Functions.s_onAbort s = match signal with Some _ => true | None => false end.
Proof.
  cbn zeta.
  destruct (sleep_run_spec ms signal es) as [(_ & _ & -> & H)|(_ & _ & -> & H)]; exact H.
Qed.

(** ** FolderDeletionWatcher.ts *)

Section WatcherMore.

Context {CB : Type}.
Variable dirname : string → string.
Variable basename : string → string.
Variable budget : nat.

Abbreviation t := (@FDW.t CB).
Abbreviation chain := (FDW.chain dirname basename).
Abbreviation levels := (FDW.levels dirname).
Abbreviation reaches_root := (FDW.reaches_root dirname).
Abbreviation run := (FDW.run dirname basename FDW.PARENT budget).
Abbreviation step := (FDW.step dirname basename FDW.PARENT budget).

Lemma run_fixed (METHOD : FDW.method) (ok : FDW.event → Prop) (w : t) (es : list FDW.event) :
  (∀ e, ok e → FDW.step dirname basename METHOD budget w e = Some w) →
  Forall ok es →
  FDW.run dirname basename METHOD budget w es = Some w.
Proof.
  intros Hfix. induction 1 as [|e es He _ IH]; cbn; [reflexivity|].
  rewrite (Hfix e He). exact IH.
Qed.

(** The handles of the chain are those of the levels, outermost first. *)
Lemma chain_levels (n : nat) :
  ∀ (path : string) (c : nat),
    map FDW.watched_by (chain n path c)
    = rev (map (FDW.handle_of dirname basename) (levels n path)).
Proof.
  induction n as [|n IH]; intros path c; cbn; [reflexivity|].
  destruct (String.eqb path (dirname path)); [reflexivity|].
  rewrite map_app, IH. reflexivity.
Qed.

Lemma chain_length (n : nat) (path : string) (c : nat) :
  length (chain n path c) = length (levels n path).
Proof.
  rewrite <- (length_map FDW.watched_by), chain_levels, length_rev, length_map.
  reflexivity.
Qed.

Lemma chain_level (n : nat) (path : string) (c : nat) (fw : FDW.FSWatcher) :
  fw ∈ chain n path c →
  ∃ A, A ∈ levels n path ∧ FDW.w_dir fw = dirname A ∧ FDW.w_filename fw = basename A.
Proof.
  intros Hin. assert (H : FDW.watched_by fw ∈ map FDW.watched_by (chain n path c)).
  { apply list_elem_of_fmap. exists fw. auto. }
  rewrite chain_levels in H.
  apply list_elem_of_In, List.in_rev, list_elem_of_In in H.
  apply list_elem_of_fmap in H. destruct H as (A & HA & Hin').
  exists A. split; [exact Hin'|]. injection HA as -> -> _. auto.
Qed.

(** The watcher once its first probe has confirmed the directory, root
    path or not. *)
Lemma watch_confirmed (P : string) (cb : CB) :
  reaches_root budget P = true →
  ∃ w, step (FDW.watch P cb) (FDW.ProbeDone 0 (Stats true)) = Some w
       ∧ FDW.watchers w = chain budget P 0
       ∧ FDW.calls w = []
       ∧ FDW.microtasks w = []
       ∧ FDW._abortController w
         = Some (map FDW.CloseWatcher (seq 0 (length (FDW.watchers w)))).
Proof.
  intros Hr. destruct (String.eqb P (dirname P)) eqn:Hroot.
  - destruct budget as [|n]; [discriminate|].
    cbn. unfold FDW.probeDone. cbn. rewrite Hroot. cbn.
    eexists. split; [reflexivity|]. cbn. auto.
  - destruct (watch_armed dirname basename budget P cb Hr Hroot)
      as (w & Hstep & (_ & Hm & Hc & _ & Ha) & Hws).
    exists w. auto.
Qed.

(** A notification no open handle is waiting for changes nothing. *)
Lemma notify_miss (d k f : string) (w : t) :
  (∀ fw, fw ∈ FDW.watchers w →
         String.eqb (FDW.w_dir fw) d && (String.eqb k "rename"
                                         && String.eqb f (FDW.w_filename fw)) = false) →
  FDW.notify d k f w = w.
Proof.
  intros Hmiss. unfold FDW.notify. generalize (seq 0 (length (FDW.watchers w))).
  intros hs. induction hs as [|h hs IH]; cbn; [reflexivity|].
  replace (FDW.deliver d k f w h) with w; [exact IH|].
  unfold FDW.deliver. destruct (FDW.watchers w !! h) as [fw|] eqn:E; [|reflexivity].
  apply list_elem_of_lookup_2 in E. specialize (Hmiss fw E).
  destruct (FDW.w_closed fw); [reflexivity|].
  destruct (String.eqb (FDW.w_dir fw) d); cbn in *; [|reflexivity].
  rewrite Hmiss. reflexivity.
Qed.

(** X6.  A path that is not a directory when the watcher is created (not
    found, not a directory, or any failure of [stat]) is never watched,
    under either strategy: the watcher stops itself, opens no handle and
    starts no timer, and nothing short of a new [start()] ever calls the
    callback. *)
Theorem not_a_directory_is_never_watched (METHOD : FDW.method) (P : string) (cb : CB)
    (r : StatResult) (es : list FDW.event) :
  FDW.isDirectory r = Return false →
  Forall (λ e, e ≠ FDW.CallStart) es →
  ∃ w, FDW.run dirname basename METHOD budget (FDW.watch P cb) (FDW.ProbeDone 0 r :: es)
       = Some w
       ∧ FDW.calls w = []
       ∧ FDW.watchers w = []
       ∧ FDW.intervals w = []
       ∧ FDW._abortController w = None.
Proof.
  intros Hr Hes. cbn [FDW.run FDW.step]. unfold FDW.probeDone. cbn. rewrite Hr. cbn.
  rewrite (run_fixed METHOD (λ e, e ≠ FDW.CallStart)); [|clear; intros e He|exact Hes].
  - eexists. split; [reflexivity|]. cbn. auto.
  - destruct e as [d k f|i|k r0| |].
    + reflexivity.
    + cbn. destruct i; reflexivity.
    + cbn. unfold FDW.probeDone. cbn. destruct k; reflexivity.
    + reflexivity.
    + contradiction.
Qed.

(** X7.  [stop()] on a watcher whose chain is set up (ancestor-watch
    strategy, first probe done, no [stop()] before it) closes every handle
    and drops the controller; no change in the file system calls the
    callback afterwards. *)
Theorem stop_silences_the_chain (P : string) (cb : CB) (es : list FDW.event) :
  reaches_root budget P = true →
  Forall (λ e, FDW.is_churn e = true) es →
  ∃ w, run (FDW.watch P cb) (FDW.ProbeDone 0 (Stats true) :: FDW.CallStop :: es) = Some w
       ∧ FDW.calls w = []
       ∧ Forall (λ fw, FDW.w_closed fw = true) (FDW.watchers w)
       ∧ length (FDW.watchers w) = length (levels budget P)
       ∧ FDW._abortController w = None.
Proof.
  intros Hr Hes.
  destruct (watch_confirmed P cb Hr) as (w1 & Hstep & Hws & Hc & Hm & Ha).
  cbn [FDW.run]. rewrite Hstep. cbn [FDW.step].
  destruct (stop_closes w1 Ha) as (Hclosed & _ & Hm' & Hc').
  rewrite drain_idle by (rewrite Hm'; exact Hm).
  rewrite (churn_closed dirname basename budget es _ Hclosed Hes).
  eexists. split; [reflexivity|]. rewrite Hc', Hc. repeat split; [exact Hclosed| |].
  - unfold FDW.stop. rewrite Ha. cbn.
    destruct (cleanups_fields (seq 0 (length (FDW.watchers w1))) w1) as (Hw & _).
    rewrite Hw. clear -Hws. rewrite <- chain_length with (c := 0), <- Hws.
    generalize (seq 0 (length (FDW.watchers w1))). generalize (FDW.watchers w1).
    intros ws hs. revert ws. induction hs as [|h hs IH]; intros ws; cbn; [reflexivity|].
    rewrite IH, length_alter. reflexivity.
  - apply stop_drops_controller.
Qed.

(** X8.  Only the removal of a level calls the callback: as long as no
    notification is a rename of the name of [P] or of an ancestor in its
    parent directory, whatever else is reported (other kinds of change,
    other names, other directories) leaves the callback uncalled. *)
Theorem unrelated_changes_never_fire (P : string) (cb : CB) (es : list FDW.event) :
  reaches_root budget P = true →
  Forall (λ e, FDW.is_churn e = true
               ∧ FDW.reports_removal dirname basename (levels budget P) e = false) es →
  ∃ w, run (FDW.watch P cb) (FDW.ProbeDone 0 (Stats true) :: es) = Some w
       ∧ FDW.calls w = []
       ∧ Forall (λ fw, FDW.w_closed fw = false) (FDW.watchers w).
Proof.
  intros Hr Hes.
  destruct (watch_confirmed P cb Hr) as (w1 & Hstep & Hws & Hc & Hm & Ha).
  cbn [FDW.run]. rewrite Hstep.
  rewrite (run_fixed FDW.PARENT
             (λ e, FDW.is_churn e = true
                   ∧ FDW.reports_removal dirname basename (levels budget P) e = false));
    [| |exact Hes].
  - exists w1. split; [reflexivity|]. split; [exact Hc|]. rewrite Hws.
    eapply Forall_impl; [apply (chain_fresh dirname basename)|]. cbn. intros fw [_ H]. exact H.
  - intros e [He Hmiss]. destruct e as [d k f| | | |]; try discriminate He.
    cbn [FDW.step]. f_equal. apply notify_miss. intros fw Hfw.
    rewrite Hws in Hfw. destruct (chain_level _ _ _ _ Hfw) as (A & HA & Hd & Hf).
    cbn in Hmiss. destruct (String.eqb k "rename"); [|apply andb_false_r].
    cbn in Hmiss. rewrite andb_true_l.
    destruct (String.eqb_spec (FDW.w_dir fw) d) as [Hd'|]; [|reflexivity].
    destruct (String.eqb_spec f (FDW.w_filename fw)) as [Hf'|]; [|reflexivity].
    exfalso. apply not_true_iff_false in Hmiss. apply Hmiss.
    apply existsb_exists. exists A. split; [apply list_elem_of_In, HA|].
    rewrite <- Hd, Hd', Hf', Hf, !String.eqb_refl. reflexivity.
Qed.

(** X9.  Once the first probe has confirmed the directory, with no
    [stop()] before it, the watcher holds exactly one open handle per
    level from [P] up to, and not including, the fixed point of
    [Path.dirname]: the handle of a level watches the level's parent for
    the level's name; the outermost level comes first, and each handle has
    its cleanup registered.  For the root itself there is no handle. *)
Theorem handles_follow_levels (P : string) (cb : CB) :
  reaches_root budget P = true →
  ∃ w, step (FDW.watch P cb) (FDW.ProbeDone 0 (Stats true)) = Some w
       ∧ map FDW.watched_by (FDW.watchers w)
         = rev (map (FDW.handle_of dirname basename) (levels budget P))
       ∧ FDW._abortController w
         = Some (map FDW.CloseWatcher (seq 0 (length (levels budget P)))).
Proof.
  intros Hr.
  destruct (watch_confirmed P cb Hr) as (w1 & Hstep & Hws & Hc & Hm & Ha).
  exists w1. split; [exact Hstep|]. rewrite Ha, Hws, chain_levels, chain_length. auto.
Qed.


Lemma cleanups_keep (ls : list FDW.cleanup) :
  ∀ w : t,
    FDW.microtasks (foldl FDW.run_cleanup w ls) = FDW.microtasks w
    ∧ FDW.calls (foldl FDW.run_cleanup w ls) = FDW.calls w.
Proof.
  induction ls as [|c ls IH]; intros w; cbn [foldl]; [auto|].
  destruct (IH (FDW.run_cleanup w c)) as [-> ->]. destruct c; cbn; auto.
Qed.

Lemma stop_keeps (w : t) :
  FDW.microtasks (FDW.stop w) = FDW.microtasks w ∧ FDW.calls (FDW.stop w) = FDW.calls w.
Proof.
  unfold FDW.stop. destruct (FDW._abortController w) as [ls|]; [|auto].
  cbn. apply cleanups_keep.
Qed.

(** A watcher that has called a callback through a watch notification has
    gone through [stop] first. *)
Lemma deliver_released (d k f : string) (w : t) (h : nat) :
  FDW.microtasks w = [] →
  FDW.calls w = [] ∨ FDW._abortController w = None →
  FDW.microtasks (FDW.deliver d k f w h) = []
  ∧ (FDW.calls (FDW.deliver d k f w h) = []
     ∨ FDW._abortController (FDW.deliver d k f w h) = None).
Proof.
  intros Hm HK. unfold FDW.deliver.
  destruct (FDW.watchers w !! h) as [fw|]; [|auto].
  destruct (FDW.w_closed fw); [auto|].
  destruct (negb _); [auto|]. destruct (_ && _); [|auto].
  unfold FDW.resolve. destruct (FDW.contexts w !! FDW.w_ctx fw) as [sc|] eqn:E;
    [|rewrite drain_idle by exact Hm; auto].
  destruct (FDW.resolved sc); [rewrite drain_idle by exact Hm; auto|].
  unfold FDW.drain. cbn. rewrite Hm. cbn.
  rewrite list_lookup_insert_eq by (eapply lookup_lt_Some, E). cbn.
  match goal with |- context [FDW.stop ?w0] =>
    destruct (stop_keeps w0) as [Hm' _]; pose proof (stop_drops_controller w0) as Ha
  end.
  rewrite Hm', Ha. cbn. auto.
Qed.

Lemma churn_released (es : list FDW.event) :
  ∀ w w' : t,
    FDW.microtasks w = [] →
    FDW.calls w = [] ∨ FDW._abortController w = None →
    Forall (λ e, FDW.is_churn e = true) es →
    run w es = Some w' →
    FDW.microtasks w' = [] ∧ (FDW.calls w' = [] ∨ FDW._abortController w' = None).
Proof.
  induction es as [|e es IH]; intros w w' Hm HK Hes; cbn.
  - intros [= <-]. auto.
  - apply Forall_cons in Hes. destruct Hes as [He Hes].
    destruct e as [d k f| | | |]; try discriminate He. cbn.
    apply IH; [| |exact Hes]; unfold FDW.notify;
      generalize (seq 0 (length (FDW.watchers w))); intros hs;
      revert w Hm HK; induction hs as [|h hs IHh]; intros w Hm HK; cbn; auto;
      destruct (deliver_released d k f w h Hm HK) as [Hm1 HK1];
      apply IHh; assumption.
Qed.

(** The removal of a level spends an armed watcher, whatever was reported
    before and is reported afterwards. *)
Lemma removal_spends (P A : string) (cb : CB) (w1 : t) (pre post : list FDW.event) :
  FDW.armed cb w1 →
  FDW.watchers w1 = chain budget P 0 →
  A ∈ levels budget P →
  Forall (λ e, FDW.is_churn e = true) pre →
  Forall (λ e, FDW.is_churn e = true) post →
  ∃ w, run w1 (pre ++ FDW.Notify (dirname A) "rename" (basename A) :: post) = Some w
       ∧ FDW.spent cb w.
Proof.
  intros Harmed Hws HA Hpre Hpost. rewrite run_app.
  destruct (chain_covers dirname basename budget P A 0 HA) as (fw & Hin & Hd & Hf & _).
  apply list_elem_of_lookup in Hin. destruct Hin as [h Hh]. rewrite <- Hws in Hh.
  destruct (churn_armed dirname basename budget cb pre w1 Harmed Hpre)
    as (w2 & Hrun & [->|Hspent]);
    rewrite Hrun; cbn [mbind option_bind FDW.run FDW.step].
  - assert (Hs : FDW.spent cb (FDW.notify (dirname A) "rename" (basename A) w1)).
    { unfold FDW.notify. rewrite <- Hd, <- Hf.
      apply (deliveries_hit cb fw h); [exact Harmed | | exact Hh].
      apply elem_of_seq. apply lookup_lt_Some in Hh. lia. }
    rewrite (churn_spent dirname basename budget cb post _ Hs Hpost). eauto.
  - unfold FDW.notify. rewrite (deliveries_spent cb _ _ _ _ _ Hspent).
    rewrite (churn_spent dirname basename budget cb post _ Hspent Hpost). eauto.
Qed.

(** X10.  Ancestor-watch strategy, a watcher whose first probe confirmed
    the directory and on which [stop()] has not been called.  Once the
    removal of [P] or of a level above it has been reported, the watcher
    has released everything: the callback has been called once, every
    handle is closed and the controller is dropped, and a [stop()] at that
    point changes nothing. *)
Theorem fired_watcher_is_released (P A : string) (cb : CB) (pre post : list FDW.event) :
  reaches_root budget P = true →
  A ∈ levels budget P →
  Forall (λ e, FDW.is_churn e = true) pre →
  Forall (λ e, FDW.is_churn e = true) post →
  ∃ w, run (FDW.watch P cb)
         (FDW.ProbeDone 0 (Stats true)
          :: pre ++ FDW.Notify (dirname A) "rename" (basename A) :: post) = Some w
       ∧ FDW.calls w = [cb]
       ∧ Forall (λ fw, FDW.w_closed fw = true) (FDW.watchers w)
       ∧ FDW._abortController w = None
       ∧ step w FDW.CallStop = Some w.
Proof.
  intros Hr HA Hpre Hpost.
  assert (Hne : String.eqb P (dirname P) = false).
  { destruct budget; [discriminate|]. cbn in HA.
    destruct (String.eqb P (dirname P)); [|reflexivity].
    apply elem_of_nil in HA. contradiction. }
  destruct (watch_armed dirname basename budget P cb Hr Hne) as (w1 & Hstep & Harmed & Hws).
  cbn [FDW.run]. rewrite Hstep.
  destruct (removal_spends P A cb w1 pre post Harmed Hws HA Hpre Hpost)
    as (w & Hrun & Hcalls & _ & Hclosed & _).
  destruct (churn_released
              (pre ++ FDW.Notify (dirname A) "rename" (basename A) :: post) w1 w)
    as [Hm [HK|HK]]; try exact Hrun.
  - apply Harmed.
  - left. apply Harmed.
  - apply Forall_app. split; [exact Hpre|]. constructor; [reflexivity | exact Hpost].
  - rewrite Hcalls in HK. discriminate HK.
  - exists w. split; [exact Hrun|]. repeat split; try assumption.
    cbn. unfold FDW.stop. rewrite HK. rewrite drain_idle by exact Hm. reflexivity.
Qed.

Lemma polling_stop (w : t) :
  FDW.polling w →
  FDW.polling (FDW.stop w)
  ∧ FDW._abortController (FDW.stop w) = None
  ∧ Forall (λ iv, FDW.i_cleared iv = true) (FDW.intervals (FDW.stop w))
  ∧ FDW.awaiting (FDW.stop w) = FDW.awaiting w
  ∧ FDW.calls (FDW.stop w) = FDW.calls w.
Proof.
  intros (Hc & Hw & Hm & Ha & iv & Hi & [[Hiv Hac]|[Hiv Hac]]);
    unfold FDW.stop; rewrite Hac.
  - cbn. rewrite Hi. cbn. unfold FDW.polling. cbn.
    repeat split; try assumption; [|repeat constructor].
    exists (FDW.clear iv). split; [reflexivity|]. right. auto.
  - rewrite Hi. repeat split; try assumption; [|repeat constructor; exact Hiv].
    exists iv. auto.
Qed.

(** Without a new [start()], every task keeps the polling watcher in this
    shape. *)
Lemma polling_step (w w' : t) (e : FDW.event) :
  FDW.polling w →
  e ≠ FDW.CallStart →
  FDW.step dirname basename FDW.INTERVAL budget w e = Some w' →
  FDW.polling w'.
Proof.
  intros Hp He. pose proof Hp as (Hc & Hw & Hm & Ha & iv & Hi & Hiv).
  destruct e as [d k f|i|k r| |]; cbn.
  - intros [= <-]. unfold FDW.notify. rewrite Hw. exact Hp.
  - intros [= <-]. unfold FDW.tick. rewrite Hi.
    destruct i as [|i]; cbn; [|rewrite drain_idle by exact Hm; exact Hp].
    destruct (FDW.i_cleared iv) eqn:Ecl; [rewrite drain_idle by exact Hm; exact Hp|].
    rewrite drain_idle by exact Hm. unfold FDW.polling. cbn.
    repeat split; try assumption.
    + apply Forall_app. split; [exact Ha|]. repeat constructor. discriminate.
    + exists iv. split; [exact Hi|]. rewrite Ecl. exact Hiv.
  - unfold FDW.probeDone. destruct (FDW.awaiting w !! k) as [kont|] eqn:Ek;
      [|intros [= <-]; exact Hp].
    assert (Hk : kont ≠ FDW.KStart).
    { rewrite Forall_forall in Ha. apply Ha. eapply list_elem_of_lookup_2, Ek. }
    assert (Hp1 : FDW.polling (FDW.set_awaiting (delete k (FDW.awaiting w)) w)).
    { unfold FDW.polling. cbn. repeat split; try assumption.
      - apply Forall_delete, Ha.
      - exists iv. auto. }
    destruct kont as [|path cb]; [contradiction|].
    assert (Hb : ∀ b : bool, FDW.polling
                        (FDW.drain
                           (if b
                            then FDW.set_calls
                                   (FDW.calls (FDW.stop (FDW.set_awaiting
                                                           (delete k (FDW.awaiting w)) w))
                                    ++ [cb])
                                   (FDW.stop (FDW.set_awaiting
                                                (delete k (FDW.awaiting w)) w))
                            else FDW.set_awaiting (delete k (FDW.awaiting w)) w))).
    { intros [|].
      - destruct (polling_stop _ Hp1) as (Hs & _).
        rewrite drain_idle by apply Hs. exact Hs.
      - rewrite drain_idle by apply Hp1. exact Hp1. }
    destruct r as [[|]|code]; cbn; intros [= <-];
      [exact (Hb true) | exact (Hb false) | exact (Hb false)].
  - intros [= <-]. destruct (polling_stop _ Hp) as (Hs & _).
    rewrite drain_idle by apply Hs. exact Hs.
  - contradiction.
Qed.

Lemma polling_run (es : list FDW.event) :
  ∀ w w' : t,
    FDW.polling w →
    Forall (λ e, e ≠ FDW.CallStart) es →
    FDW.run dirname basename FDW.INTERVAL budget w es = Some w' →
    FDW.polling w'.
Proof.
  induction es as [|e es IH]; intros w w' Hp Hes; cbn.
  - intros [= <-]. exact Hp.
  - apply Forall_cons in Hes. destruct Hes as [He Hes].
    destruct (FDW.step _ _ _ _ w e) as [w1|] eqn:E; [|discriminate].
    apply IH; [|exact Hes]. eapply polling_step; eassumption.
Qed.

(** X11.  Polling strategy, timer set up by the first probe.  Whatever
    happened since, short of a new [start()]: a [stop()] called while no
    periodic probe is pending clears the timer and drops the controller,
    and nothing short of a new [start()] starts a probe or calls the
    callback afterwards.  (With a periodic probe pending, the callback can
    still be called after [stop()]: the second case of C2.) *)
Theorem stop_cancels_polling (P : string) (cb : CB) (pre es : list FDW.event) (w0 : t) :
  Forall (λ e, e ≠ FDW.CallStart) pre →
  Forall (λ e, e ≠ FDW.CallStart) es →
  FDW.run dirname basename FDW.INTERVAL budget (FDW.watch P cb)
    (FDW.ProbeDone 0 (Stats true) :: pre) = Some w0 →
  FDW.awaiting w0 = [] →
  ∃ w, FDW.run dirname basename FDW.INTERVAL budget w0 (FDW.CallStop :: es) = Some w
       ∧ FDW.calls w = FDW.calls w0
       ∧ FDW.awaiting w = []
       ∧ Forall (λ iv, FDW.i_cleared iv = true) (FDW.intervals w)
       ∧ length (FDW.intervals w) = 1
       ∧ FDW._abortController w = None.
Proof.
  intros Hpre Hes Hrun Hidle.
  assert (Hp0 : FDW.polling w0).
  { cbn [FDW.run FDW.step] in Hrun. unfold FDW.probeDone in Hrun. cbn in Hrun.
    eapply polling_run; [|exact Hpre | exact Hrun].
    unfold FDW.polling. cbn. repeat split; [constructor|].
    eexists. split; [reflexivity|]. left. auto. }
  destruct (polling_stop _ Hp0) as (Hs & Hac & Hcl & Haw & Hcalls).
  rewrite Hidle in Haw.
  cbn [FDW.run FDW.step]. rewrite drain_idle by apply Hs.
  rewrite (run_fixed FDW.INTERVAL (λ e, e ≠ FDW.CallStart)); [| |exact Hes].
  - eexists. split; [reflexivity|].
    destruct Hs as (_ & _ & _ & _ & iv & Hi & _). rewrite Hi in Hcl |- *.
    repeat split; assumption.
  - intros e He. destruct Hs as (Hc & Hw & Hm & _ & iv & Hi & _).
    rewrite Hi in Hcl. apply Forall_cons in Hcl. destruct Hcl as [Hcl _].
    destruct e as [d k f|i|k r| |]; cbn.
    + unfold FDW.notify. rewrite Hw. reflexivity.
    + unfold FDW.tick. rewrite Hi.
      destruct i as [|i]; cbn; [rewrite Hcl|]; rewrite drain_idle by exact Hm; reflexivity.
    + unfold FDW.probeDone. rewrite Haw. reflexivity.
    + unfold FDW.stop at 1. rewrite Hac. rewrite drain_idle by exact Hm. reflexivity.
    + contradiction.
Qed.

End WatcherMore.

Lemma not_a_directory_is_never_watched_witness :
  ∃ w, FDW.run PosixPath.dirname PosixPath.basename FDW.PARENT 8 (FDW.watch "/a/b" 7)
         [FDW.ProbeDone 0 (StatError "EACCES"); FDW.Notify "/a" "rename" "b";
          FDW.Tick 0; FDW.CallStop]
       = Some w
       ∧ FDW.calls w = []
       ∧ FDW.watchers w = []
       ∧ FDW.intervals w = []
       ∧ FDW._abortController w = None.
Proof.
  apply (not_a_directory_is_never_watched PosixPath.dirname PosixPath.basename 8
           FDW.PARENT "/a/b" 7 (StatError "EACCES")
           [FDW.Notify "/a" "rename" "b"; FDW.Tick 0; FDW.CallStop]).
  - reflexivity.
  - repeat constructor; discriminate.
Defined.

Lemma stop_silences_the_chain_witness :
  ∃ w, FDW.run PosixPath.dirname PosixPath.basename FDW.PARENT 8 (FDW.watch "/a/b" 7)
         [FDW.ProbeDone 0 (Stats true); FDW.CallStop; FDW.Notify "/a" "rename" "b"]
       = Some w
       ∧ FDW.calls w = []
       ∧ Forall (λ fw, FDW.w_closed fw = true) (FDW.watchers w)
       ∧ length (FDW.watchers w) = 2
       ∧ FDW._abortController w = None.
Proof.
  apply (stop_silences_the_chain PosixPath.dirname PosixPath.basename 8 "/a/b" 7
           [FDW.Notify "/a" "rename" "b"]).
  - reflexivity.
  - repeat constructor.
Defined.

Lemma unrelated_changes_never_fire_witness :
  ∃ w, FDW.run PosixPath.dirname PosixPath.basename FDW.PARENT 8 (FDW.watch "/a/b" 7)
         [FDW.ProbeDone 0 (Stats true); FDW.Notify "/a" "change" "b";
          FDW.Notify "/a" "rename" "c"; FDW.Notify "/a/b" "rename" "x"]
       = Some w
       ∧ FDW.calls w = []
       ∧ Forall (λ fw, FDW.w_closed fw = false) (FDW.watchers w).
Proof.
  apply (unrelated_changes_never_fire PosixPath.dirname PosixPath.basename 8 "/a/b" 7
           [FDW.Notify "/a" "change" "b"; FDW.Notify "/a" "rename" "c";
            FDW.Notify "/a/b" "rename" "x"]).
  - reflexivity.
  - repeat constructor.
Defined.

Lemma handles_follow_levels_witness :
  ∃ w, FDW.step PosixPath.dirname PosixPath.basename FDW.PARENT 8 (FDW.watch "/a/b" 7)
         (FDW.ProbeDone 0 (Stats true)) = Some w
       ∧ map FDW.watched_by (FDW.watchers w) = [("/", "a", false); ("/a", "b", false)]
       ∧ FDW._abortController w = Some [FDW.CloseWatcher 0; FDW.CloseWatcher 1].
Proof.
  exact (handles_follow_levels PosixPath.dirname PosixPath.basename 8 "/a/b" 7 eq_refl).
Defined.

Lemma fired_watcher_is_released_witness :
  ∃ w, FDW.run PosixPath.dirname PosixPath.basename FDW.PARENT 8 (FDW.watch "/a/b" 7)
         [FDW.ProbeDone 0 (Stats true); FDW.Notify "/" "rename" "a";
          FDW.Notify "/a" "rename" "b"]
       = Some w
       ∧ FDW.calls w = [7]
       ∧ Forall (λ fw, FDW.w_closed fw = true) (FDW.watchers w)
       ∧ FDW._abortController w = None
       ∧ FDW.step PosixPath.dirname PosixPath.basename FDW.PARENT 8 w FDW.CallStop = Some w.
Proof.
  apply (fired_watcher_is_released PosixPath.dirname PosixPath.basename 8 "/a/b" "/a" 7
           [] [FDW.Notify "/a" "rename" "b"]).
  - reflexivity.
  - apply list_elem_of_In. vm_compute. auto.
  - constructor.
  - repeat constructor.
Defined.

Lemma stop_cancels_polling_witness :
  ∃ w0 w,
    FDW.run PosixPath.dirname PosixPath.basename FDW.INTERVAL 8 (FDW.watch "/a/b" 7)
      [FDW.ProbeDone 0 (Stats true); FDW.Tick 0; FDW.ProbeDone 0 (StatError "ENOENT")]
    = Some w0
    ∧ FDW.run PosixPath.dirname PosixPath.basename FDW.INTERVAL 8 w0
        [FDW.CallStop; FDW.Tick 0; FDW.ProbeDone 0 (Stats true); FDW.Tick 0]
      = Some w
    ∧ FDW.calls w = []
    ∧ FDW.awaiting w = []
    ∧ Forall (λ iv, FDW.i_cleared iv = true) (FDW.intervals w)
    ∧ FDW._abortController w = None.
Proof.
  eexists.
  edestruct (stop_cancels_polling PosixPath.dirname PosixPath.basename 8 "/a/b" 7
               [FDW.Tick 0; FDW.ProbeDone 0 (StatError "ENOENT")]
               [FDW.Tick 0; FDW.ProbeDone 0 (Stats true); FDW.Tick 0])
    as (w & Hrun & Hcalls & Haw & Hcl & _ & Hac).
  - repeat constructor; discriminate.
  - repeat constructor; discriminate.
  - vm_compute. reflexivity.
  - reflexivity.
  - exists w. split; [reflexivity|]. split; [exact Hrun|]. split; [exact Hcalls|].
    split; [exact Haw|]. split; [exact Hcl | exact Hac].
Defined.
(** ** MountMonitor.ts *)

(** *** A watcher object keeps its path and its callback *)

Section WatcherIdentity.

Context {CB : Type}.
Variable dirname : string → string.
Variable basename : string → string.
Variable METHOD : FDW.method.
Variable budget : nat.

Abbreviation ident := (λ w : @FDW.t CB, (FDW._path w, FDW._callback w)).

Lemma foldl_ident {A} (f : @FDW.t CB → A → @FDW.t CB) :
  (∀ w a, ident (f w a) = ident w) → ∀ l w, ident (foldl f w l) = ident w.
Proof.
  intros Hf. induction l as [|a l IH]; intros w; cbn [foldl]; [reflexivity|].
  rewrite IH. apply Hf.
Qed.

Lemma stop_ident (w : @FDW.t CB) : ident (FDW.stop w) = ident w.
Proof.
  unfold FDW.stop. destruct (FDW._abortController w) as [ls|]; [|reflexivity].
  cbn. apply (foldl_ident FDW.run_cleanup). intros w0 [h|i]; reflexivity.
Qed.

Lemma addAbortListener_ident (c : FDW.cleanup) (w : @FDW.t CB) :
  ident (FDW.addAbortListener c w) = ident w.
Proof. unfold FDW.addAbortListener. destruct (FDW._abortController w); reflexivity. Qed.

Lemma startParent_ident (n : nat) :
  ∀ (path : string) (cb : CB) (sc : option nat) (w w' : @FDW.t CB),
    FDW._startParent dirname basename n path cb sc w = Some w' → ident w' = ident w.
Proof.
  induction n as [|n IH]; intros path cb sc w w'; cbn; [discriminate|].
  destruct (String.eqb path (dirname path)); [intros [= <-]; reflexivity|].
  destruct sc as [c|].
  - destruct (FDW._startParent _ _ n _ _ _ _) as [w2|] eqn:E; [|discriminate].
    intros [= <-]. rewrite addAbortListener_ident. cbn. apply (IH _ _ _ _ _ E).
  - destruct (FDW._startParent _ _ n _ _ _ _) as [w2|] eqn:E; [|discriminate].
    intros [= <-]. rewrite addAbortListener_ident. cbn. apply (IH _ _ _ _ _ E).
Qed.

Lemma drain_ident (w : @FDW.t CB) : ident (FDW.drain w) = ident w.
Proof.
  unfold FDW.drain.
  rewrite (foldl_ident FDW.run_job); [reflexivity|].
  intros w0 [c]. cbn. destruct (FDW.contexts w0 !! c); [|reflexivity].
  cbn. apply stop_ident.
Qed.

Lemma resolve_ident (c : nat) (w : @FDW.t CB) : ident (FDW.resolve c w) = ident w.
Proof.
  unfold FDW.resolve. destruct (FDW.contexts w !! c) as [sc|]; [|reflexivity].
  destruct (FDW.resolved sc); reflexivity.
Qed.

Lemma notify_ident (dir kind affectedFile : string) (w : @FDW.t CB) :
  ident (FDW.notify dir kind affectedFile w) = ident w.
Proof.
  unfold FDW.notify. apply (foldl_ident (FDW.deliver dir kind affectedFile)).
  intros w0 h. unfold FDW.deliver.
  destruct (FDW.watchers w0 !! h) as [fw|]; [|reflexivity].
  destruct (FDW.w_closed fw); [reflexivity|].
  destruct (negb _); [reflexivity|].
  destruct (_ && _); [|reflexivity].
  rewrite drain_ident. apply resolve_ident.
Qed.

Lemma tick_ident (i : nat) (w : @FDW.t CB) : ident (FDW.tick i w) = ident w.
Proof.
  unfold FDW.tick. destruct (FDW.intervals w !! i) as [iv|]; [|reflexivity].
  destruct (FDW.i_cleared iv); reflexivity.
Qed.

Lemma resume_ident (k : FDW.continuation) (b : bool) (w w' : @FDW.t CB) :
  FDW.resume dirname basename METHOD budget k b w = Some w' → ident w' = ident w.
Proof.
  destruct k as [|path cb], b; cbn.
  - destruct METHOD.
    + intros [= <-]. unfold FDW._startInterval. rewrite addAbortListener_ident. reflexivity.
    + apply startParent_ident.
  - intros [= <-]. apply stop_ident.
  - intros [= <-]. cbn. apply (stop_ident w).
  - intros [= <-]. reflexivity.
Qed.

(** No task of a watcher object changes the path it was built for or the
    callback it was given. *)
Lemma step_ident (w w' : @FDW.t CB) (e : FDW.event) :
  FDW.step dirname basename METHOD budget w e = Some w' → ident w' = ident w.
Proof.
  destruct e as [dir kind file|i|k r| |]; cbn.
  - intros [= <-]. apply notify_ident.
  - intros [= <-]. rewrite drain_ident. apply tick_ident.
  - unfold FDW.probeDone. destruct (FDW.awaiting w !! k) as [kont|]; [|intros [= <-]; reflexivity].
    destruct r as [d|code]; cbn.
    + destruct (FDW.resume _ _ _ _ kont d _) as [w1|] eqn:E; [|discriminate].
      cbn. intros [= <-]. rewrite drain_ident. apply (resume_ident _ _ _ _ E).
    + destruct (FDW.resume _ _ _ _ kont false _) as [w1|] eqn:E; [|discriminate].
      cbn. intros [= <-]. rewrite drain_ident. apply (resume_ident _ _ _ _ E).
  - intros [= <-]. rewrite drain_ident. apply stop_ident.
  - intros [= <-]. rewrite drain_ident. unfold FDW.start.
    destruct (FDW._abortController w); reflexivity.
Qed.

End WatcherIdentity.

(** *** What every listener configuration keeps *)

Section Keeps.

Variable toUpperCase : string → string.
Variable localeCompare : string → string → Z.
Variable process_platform : MM.platform.

Variable I : MM.monitor → Prop.
Hypothesis I_emitted : ∀ e m, I m → I (MM.set_emitted e m).
Hypothesis I_onMount : ∀ event m, I m → I (MM.state_of (MM._onMount event m)).
Hypothesis I_onUnmount : ∀ event m, I m → I (MM.state_of (MM._onUnmount event m)).

Lemma andThen_keeps (r : MM.result) (f : MM.monitor → MM.result) :
  I (MM.state_of r) → (∀ m, I m → I (MM.state_of (f m))) →
  I (MM.state_of (MM.andThen r f)).
Proof. destruct r as [m|err m]; cbn; auto. Qed.

Lemma call_keeps (arg : option MM.FileSystemEvent) (l : MM.listener) (m : MM.monitor) :
  I m → I (MM.state_of (MM.call arg l m)).
Proof. destruct l, arg as [event|]; cbn; auto. Qed.

Lemma calls_keep (arg : option MM.FileSystemEvent) (ls : list MM.listener) :
  ∀ r : MM.result,
    I (MM.state_of r) →
    I (MM.state_of (foldl (λ r l, MM.andThen r (MM.call arg l)) r ls)).
Proof.
  induction ls as [|l ls IH]; intros r Hr; cbn [foldl]; [exact Hr|].
  apply IH. apply andThen_keeps; [exact Hr|]. intros m. apply call_keeps.
Qed.

Lemma emit_keeps (name : string) (arg : option MM.FileSystemEvent) (m : MM.monitor) :
  I m → I (MM.state_of (MM.emit name arg m)).
Proof. intros Hm. unfold MM.emit. apply calls_keep. cbn. apply I_emitted, Hm. Qed.

Lemma emitEvents_keeps (events : list MM.FileSystemEvent) (m : MM.monitor) :
  I m → I (MM.state_of (MM.emitEvents events m)).
Proof.
  intros Hm. unfold MM.emitEvents.
  assert (H : ∀ r, I (MM.state_of r) →
              I (MM.state_of
                   (foldl (λ r event,
                             MM.andThen r (λ m1, MM.andThen (MM.emit (MM.type event) (Some event) m1)
                                                   (MM.emit "all" (Some event))))
                          r events))).
  { induction events as [|event events IH]; intros r Hr; cbn [foldl]; [exact Hr|].
    apply IH. apply andThen_keeps; [exact Hr|]. intros m1 Hm1.
    apply andThen_keeps; [apply emit_keeps, Hm1|]. intros m2. apply emit_keeps. }
  apply H. exact Hm.
Qed.

Lemma finishPass_keeps (candidates : list MM.FileSystem)
    (mounted : list MM.FileSystemEvent) (m : MM.monitor) :
  I m →
  I (MM.state_of (MM.finishPass toUpperCase localeCompare process_platform
                    candidates mounted m)).
Proof.
  intros Hm. unfold MM.finishPass.
  apply andThen_keeps; [|intros m1; apply emit_keeps].
  apply andThen_keeps; [|intros m1; apply emit_keeps].
  apply emitEvents_keeps, Hm.
Qed.

Lemma onDeleted_keeps (p : string) (m : MM.monitor) :
  I m → I (MM.state_of (MM.onDeleted p m)).
Proof.
  intros Hm. unfold MM.onDeleted.
  destruct (MM.obj_get p (MM.filesystemMap m)) as [fs|]; [|exact Hm].
  apply andThen_keeps; [|intros m1; apply emit_keeps].
  apply andThen_keeps; [|intros m1; apply emit_keeps].
  apply emit_keeps, Hm.
Qed.

Lemma runCallbacks_keep (fired : list MM.callback) :
  ∀ m : MM.monitor, I m → I (foldl MM.runCallback m fired).
Proof.
  induction fired as [|[p] fired IH]; intros m Hm; cbn [foldl]; [exact Hm|].
  apply IH. cbn. apply onDeleted_keeps, Hm.
Qed.

End Keeps.

(** *** The two maps stay in step *)

Lemma in_step_ext (m m' : MM.monitor) :
  MM.filesystemMap m' = MM.filesystemMap m →
  MM.deletionWatchers m' = MM.deletionWatchers m →
  MM.heap m' = MM.heap m →
  MM.in_step m → MM.in_step m'.
Proof.
  unfold MM.in_step, MM.consistent. intros -> -> ->. auto.
Qed.

Lemma in_step_onMount (event : MM.FileSystemEvent) (m : MM.monitor) :
  MM.in_step m → MM.in_step (MM.state_of (MM._onMount event m)).
Proof.
  intros Hm. unfold MM._onMount.
  destruct (MM.event_filesystem event) as [fs|]; [|exact Hm].
  destruct Hm as ((Hkeyed & Hnd & Hwatched) & Hfiled & Hrefs).
  set (p := MM.mountpoints0_path fs).
  unfold MM.in_step, MM.consistent. cbn. fold p.
  split; [split; [|split]|split].
  - apply obj_set_Forall; [reflexivity | exact Hkeyed].
  - apply obj_set_NoDup, Hnd.
  - intros k Hk. apply obj_set_keys in Hk. destruct Hk as [->|Hk].
    + rewrite lookup_insert_eq. eauto.
    + destruct (decide (p = k)) as [->|Hne]; [rewrite lookup_insert_eq; eauto|].
      rewrite lookup_insert_ne by exact Hne. apply Hwatched, Hk.
  - intros k Hk. apply obj_set_keys.
    destruct (decide (p = k)) as [->|Hne]; [left; reflexivity|].
    rewrite lookup_insert_ne in Hk by exact Hne. right. apply Hfiled, Hk.
  - intros k ref Hk. destruct (decide (p = k)) as [<-|Hne].
    + rewrite lookup_insert_eq in Hk. injection Hk as <-.
      exists (FDW.watch p (MM.OnDeleted p)).
      rewrite list_lookup_middle by reflexivity. auto.
    + rewrite lookup_insert_ne in Hk by exact Hne.
      destruct (Hrefs k ref Hk) as (w & Hw & Hid).
      exists w. split; [|exact Hid]. apply lookup_app_l_Some, Hw.
Qed.

Lemma in_step_onUnmount (event : MM.FileSystemEvent) (m : MM.monitor) :
  MM.in_step m → MM.in_step (MM.state_of (MM._onUnmount event m)).
Proof.
  intros Hm. unfold MM._onUnmount.
  destruct (MM.event_filesystem event) as [fs|]; [|exact Hm].
  destruct Hm as ((Hkeyed & Hnd & Hwatched) & Hfiled & Hrefs).
  set (p := MM.mountpoints0_path fs).
  assert (Hkeep : ∀ k, k ≠ p → k ∈ map fst (MM.filesystemMap m) →
                       k ∈ map fst (MM.obj_delete p (MM.filesystemMap m))).
  { intros k Hne Hk. apply obj_get_keys. rewrite obj_get_delete_ne by congruence.
    apply obj_get_keys, Hk. }
  assert (Hgone : p ∉ map fst (MM.obj_delete p (MM.filesystemMap m))).
  { apply obj_get_None, obj_get_delete_eq, Hnd. }
  unfold MM.in_step, MM.consistent. cbn. fold p.
  destruct (MM.deletionWatchers m !! p) as [ref|] eqn:Hp; cbn.
  - split; [split; [|split]|split].
    + apply obj_delete_Forall, Hkeyed.
    + apply obj_delete_NoDup, Hnd.
    + intros k Hk. destruct (decide (p = k)) as [<-|Hne]; [contradiction|].
      rewrite lookup_delete_ne by exact Hne. eapply Hwatched, obj_delete_keys, Hk.
    + intros k Hk. destruct (decide (p = k)) as [<-|Hne].
      * rewrite lookup_delete_eq in Hk. destruct Hk as [? [=]].
      * rewrite lookup_delete_ne in Hk by exact Hne. apply Hkeep; [congruence|].
        apply Hfiled, Hk.
    + intros k ref' Hk. destruct (decide (p = k)) as [<-|Hne].
      * rewrite lookup_delete_eq in Hk. discriminate Hk.
      * rewrite lookup_delete_ne in Hk by exact Hne.
        destruct (Hrefs k ref' Hk) as (w & Hw & Hpath & Hcb).
        destruct (decide (ref = ref')) as [<-|Hr].
        -- exists (FDW.stop w). rewrite list_lookup_alter, Hw. cbn.
           rewrite decide_True by reflexivity.
           pose proof (stop_ident w) as Hid. cbn in Hid.
           injection Hid as -> ->. auto.
        -- exists w. rewrite list_lookup_alter_ne by exact Hr. auto.
  - split; [split; [|split]|split].
    + apply obj_delete_Forall, Hkeyed.
    + apply obj_delete_NoDup, Hnd.
    + intros k Hk. eapply Hwatched, obj_delete_keys, Hk.
    + intros k Hk. apply Hkeep; [|apply Hfiled, Hk].
      intros ->. rewrite Hp in Hk. destruct Hk as [? [=]].
    + exact Hrefs.
Qed.

Section InStep.

Variable dirname : string → string.
Variable basename : string → string.
Variable METHOD : FDW.method.
Variable budget : nat.
Variable toUpperCase : string → string.
Variable localeCompare : string → string → Z.
Variable v5 : string → string → string.
Variable sep : ascii.
Variable process_platform : MM.platform.

Abbreviation mstep :=
  (MM.mstep dirname basename METHOD budget toUpperCase localeCompare v5 sep
     process_platform).
Abbreviation mrun :=
  (MM.mrun dirname basename METHOD budget toUpperCase localeCompare v5 sep
     process_platform).

Lemma finishPass_in_step (candidates : list MM.FileSystem)
    (mounted : list MM.FileSystemEvent) (m : MM.monitor) :
  MM.in_step m →
  MM.in_step (MM.state_of (MM.finishPass toUpperCase localeCompare process_platform
                             candidates mounted m)).
Proof.
  apply finishPass_keeps.
  - intros e m0. apply in_step_ext; reflexivity.
  - apply in_step_onMount.
  - apply in_step_onUnmount.
Qed.

Lemma watcherTask_in_step (ref : nat) (e : FDW.event) (m m' : MM.monitor) :
  MM.in_step m →
  MM.watcherTask dirname basename METHOD budget ref e m = Some m' →
  MM.in_step m'.
Proof.
  intros Hm. unfold MM.watcherTask.
  destruct (FDW.by_owner e); [intros [= <-]; exact Hm|].
  destruct (MM.heap m !! ref) as [w|] eqn:Hw; [|intros [= <-]; exact Hm].
  destruct (FDW.step _ _ _ _ w e) as [w'|] eqn:E; [|discriminate].
  intros [= <-]. apply runCallbacks_keep.
  - intros e0 m0. apply in_step_ext; reflexivity.
  - apply in_step_onMount.
  - apply in_step_onUnmount.
  - destruct Hm as (Hcons & Hfiled & Hrefs).
    split; [exact Hcons|]. split; [exact Hfiled|].
    intros k ref' Hk. cbn. destruct (Hrefs k ref' Hk) as (w0 & Hw0 & Hpath & Hcb).
    destruct (decide (ref = ref')) as [<-|Hr].
    + exists w'. rewrite list_lookup_insert_eq by (eapply lookup_lt_Some, Hw).
      rewrite Hw in Hw0. injection Hw0 as <-.
      pose proof (step_ident _ _ _ _ _ _ _ E) as Hid. cbn in Hid.
      injection Hid as -> ->. auto.
    + exists w0. rewrite list_lookup_insert_ne by exact Hr. auto.
Qed.

(** Every task keeps the two maps in step. *)
Lemma mstep_in_step (m m' : MM.monitor) (e : MM.mevent) :
  MM.in_step m → mstep m e = Some m' → MM.in_step m'.
Proof.
  intros Hm. destruct e as [|p devices filesystems|p|p lstat latency|ref e| |]; cbn.
  - intros [= <-]. destruct (MM.intervalVar m); exact Hm.
  - intros [= <-]. unfold MM.enumerationDone.
    destruct (MM.inflight m !! p) as [[| |]|]; try exact Hm.
    destruct (MM.newState _ _ _ _ _ _ _) as [|c cs]; [|exact Hm].
    apply finishPass_in_step. exact Hm.
  - intros [= <-]. destruct (MM.inflight m !! p) as [[| |]|]; exact Hm.
  - intros [= <-]. unfold MM.probesDone.
    destruct (MM.inflight m !! p) as [[|candidates olds|]|]; try exact Hm.
    destruct (MM.mountEvents candidates olds lstat latency) as [mounted|err];
      [|exact Hm].
    apply finishPass_in_step. exact Hm.
  - apply watcherTask_in_step, Hm.
  - intros [= <-]. unfold MM.start. destruct (MM.intervalVar m); exact Hm.
  - intros [= <-]. unfold MM.stop. destruct (MM.intervalVar m); exact Hm.
Qed.

(** X12. Whatever listeners are registered, and whether handlers throw or
    not, every sequence of tasks keeps [filesystemMap] and
    [deletionWatchers] in step: the same paths are on file and watched,
    each volume under its own mount path, and the watcher filed under a
    path is a watcher object built for that path with the callback of that
    path. *)
Theorem maps_stay_in_step (es : list MM.mevent) :
  ∀ m m' : MM.monitor,
    MM.in_step m → mrun m es = Some m' →
    Forall (λ kv, MM.mountpoints0_path (snd kv) = fst kv) (MM.filesystemMap m')
    ∧ NoDup (map fst (MM.filesystemMap m'))
    ∧ (∀ k, k ∈ map fst (MM.filesystemMap m') ↔ is_Some (MM.deletionWatchers m' !! k))
    ∧ (∀ k ref, MM.deletionWatchers m' !! k = Some ref →
         ∃ w, MM.heap m' !! ref = Some w
              ∧ FDW._path w = k ∧ FDW._callback w = MM.OnDeleted k).
Proof.
  induction es as [|e es IH]; intros m m' Hm; cbn.
  - intros [= <-]. destruct Hm as ((Hkeyed & Hnd & Hwatched) & Hfiled & Hrefs).
    repeat split; auto.
  - destruct (MM.mstep _ _ _ _ _ _ _ _ _ m e) as [m1|] eqn:E; [|discriminate].
    apply IH. eapply mstep_in_step; eassumption.
Qed.

End InStep.

Lemma in_step_loaded : MM.in_step MM.loaded.
Proof.
  split; [apply invariant_loaded|]. split.
  - intros k [ref Hk]. cbn in Hk. rewrite lookup_empty in Hk. discriminate Hk.
  - intros k ref Hk. cbn in Hk. rewrite lookup_empty in Hk. discriminate Hk.
Qed.

Lemma maps_stay_in_step_witness :
  let es := [MM.EnumerationDone 0 [Examples.backup; Examples.alpha] [];
             MM.ProbesDone 0 Examples.allDirectories Examples.inOrder;
             MM.WatcherTask 1 (FDW.ProbeDone 0 (Stats true));
             MM.WatcherTask 1 (FDW.Notify "/Volumes" "rename" "Backup")] in
  ∃ m, Examples.mrun MM.loaded es = Some m
       ∧ map fst (MM.filesystemMap m) = ["/Volumes/alpha"]
       ∧ NoDup (map fst (MM.filesystemMap m))
       ∧ (∀ k ref, MM.deletionWatchers m !! k = Some ref →
            ∃ w, MM.heap m !! ref = Some w
                 ∧ FDW._path w = k ∧ FDW._callback w = MM.OnDeleted k).
Proof.
  intros es. exists (default MM.loaded (Examples.mrun MM.loaded es)).
  split; [vm_compute; reflexivity|]. split; [vm_compute; reflexivity|].
  destruct (maps_stay_in_step PosixPath.dirname PosixPath.basename FDW.PARENT 8
              AsciiLocale.toUpperCase AsciiLocale.localeCompare AsciiLocale.v5
              "/"%char MM.darwin es MM.loaded
              (default MM.loaded (Examples.mrun MM.loaded es)) in_step_loaded)
    as (_ & Hnd & _ & Hrefs); [vm_compute; reflexivity|].
  split; [exact Hnd | exact Hrefs].
Defined.
(** *** [start] and [stop] *)

(** X13. [start] in a started monitor and [stop] in a stopped monitor do
    nothing: calling either twice is the same as calling it once. *)
Theorem start_and_stop_are_idempotent (m : MM.monitor) :
  MM.start (MM.start m) = MM.start m ∧ MM.stop (MM.stop m) = MM.stop m.
Proof.
  unfold MM.start, MM.stop. split.
  - destruct (MM.intervalVar m) eqn:E; cbn; [rewrite E|]; reflexivity.
  - destruct (MM.intervalVar m) eqn:E; cbn; [|rewrite E]; reflexivity.
Qed.

Lemma rev_snoc3 {A} (l : list A) (a b c : A) :
  rev (((l ++ [a]) ++ [b]) ++ [c]) = c :: b :: a :: rev l.
Proof. rewrite !rev_app_distr. reflexivity. Qed.

(** X14. [stop] right after [start] in a stopped monitor removes exactly
    the three listeners [start] added, whatever else is registered, and
    clears the timer; the pass [start] began is still in progress. *)
Theorem stop_undoes_start (m : MM.monitor) :
  MM.intervalVar m = None →
  let m' := MM.stop (MM.start m) in
  MM.listeners m' = MM.listeners m
  ∧ MM.intervalVar m' = None
  ∧ MM.filesystemMap m' = MM.filesystemMap m
  ∧ MM.deletionWatchers m' = MM.deletionWatchers m
  ∧ MM.heap m' = MM.heap m
  ∧ MM.emitted m' = MM.emitted m
  ∧ MM.inflight m' = MM.inflight m ++ [MM.Enumerating].
Proof.
  intros Hi. unfold MM.start, MM.stop. rewrite Hi. cbn.
  repeat split.
  rewrite rev_snoc3. cbn. rewrite rev_involutive.
  change (rev (("unmount", MM.L_onUnmount) :: ("onRename", MM.L_onMount)
               :: rev (MM.listeners m)))
    with ((rev (rev (MM.listeners m)) ++ [("onRename", MM.L_onMount)])
          ++ [("unmount", MM.L_onUnmount)]).
  rewrite rev_involutive, rev_app_distr. cbn.
  rewrite rev_app_distr. cbn. rewrite rev_involutive. cbn.
  reflexivity.
Qed.

Lemma stop_undoes_start_witness :
  let m := MM.on "mount" (MM.L_external 1) MM.empty in
  MM.listeners (MM.stop (MM.start m)) = [("mount", MM.L_external 1)]
  ∧ MM.inflight (MM.stop (MM.start m)) = [MM.Enumerating].
Proof.
  intros m.
  destruct (stop_undoes_start m eq_refl) as (HL & _ & _ & _ & _ & _ & HP).
  split; [exact HL | exact HP].
Defined.

(** *** The accessors *)

Section Accessors.

Variable toUpperCase : string → string.
Variable localeCompare : string → string → Z.
Variable process_platform : MM.platform.

Abbreviation sortFilesystems := (MM.sortFilesystems toUpperCase localeCompare process_platform).
Abbreviation state := (MM.state toUpperCase localeCompare process_platform).
Abbreviation filesystemOf := (MM.filesystemOf toUpperCase localeCompare process_platform).
Abbreviation isMounted := (MM.isMounted toUpperCase localeCompare process_platform).
Abbreviation platform_le := (MM.platform_le toUpperCase localeCompare process_platform).

Lemma sortFilesystems_id (l : list MM.FileSystem) :
  Sorted platform_le l → sortFilesystems l = l.
Proof.
  intros Hs. unfold MM.sortFilesystems. cbn [negb MM.SORT].
  unfold MM.platform_le, MM.sortKey in Hs.
  destruct process_platform; apply Array_sort_id; exact Hs.
Qed.

(** X15. When [localeCompare] ranks consistently, the getter [state] lists
    exactly the volumes on file, each as often as it is filed, in the
    platform's order, and sorting the list again changes nothing. *)
Theorem state_is_sorted_snapshot (m : MM.monitor) :
  MM.comparator_total localeCompare →
  state m ≡ₚ MM.Object_values (MM.filesystemMap m)
  ∧ Sorted platform_le (state m)
  ∧ sortFilesystems (state m) = state m.
Proof.
  intros Htotal. split; [apply sortFilesystems_Permutation|].
  assert (Hs : Sorted platform_le (state m)) by (apply sortFilesystems_Sorted, Htotal).
  split; [exact Hs | apply sortFilesystems_id, Hs].
Qed.

Lemma filesystemOf_fold (p : string) (l : list MM.FileSystem) :
  ∀ (seen : list MM.FileSystem) (R : option MM.FileSystem),
    match R with
    | Some r =>
        r ∈ seen ∧ String.prefix (MM.mountpoints0_path r) p = true
        ∧ ∀ fs, fs ∈ seen → String.prefix (MM.mountpoints0_path fs) p = true →
                String.length (MM.mountpoints0_path fs)
                ≤ String.length (MM.mountpoints0_path r)
    | None => ∀ fs, fs ∈ seen → String.prefix (MM.mountpoints0_path fs) p = false
    end →
    match foldl (λ R fs,
                   if match R with
                      | None => true
                      | Some r => Nat.ltb (String.length (MM.mountpoints0_path r))
                                          (String.length (MM.mountpoints0_path fs))
                      end
                   then if String.prefix (MM.mountpoints0_path fs) p then Some fs else R
                   else R) R l with
    | Some r =>
        r ∈ seen ++ l ∧ String.prefix (MM.mountpoints0_path r) p = true
        ∧ ∀ fs, fs ∈ seen ++ l → String.prefix (MM.mountpoints0_path fs) p = true →
                String.length (MM.mountpoints0_path fs)
                ≤ String.length (MM.mountpoints0_path r)
    | None => ∀ fs, fs ∈ seen ++ l → String.prefix (MM.mountpoints0_path fs) p = false
    end.
Proof.
  induction l as [|x l IH]; intros seen R HR; cbn [foldl].
  - rewrite app_nil_r. exact HR.
  - replace (seen ++ x :: l) with ((seen ++ [x]) ++ l) by (rewrite <- app_assoc; reflexivity).
    apply IH. destruct R as [r|].
    + destruct HR as (Hin & Hpre & Hmax).
      destruct (Nat.ltb_spec (String.length (MM.mountpoints0_path r))
                  (String.length (MM.mountpoints0_path x))) as [Hlt|Hge].
      * destruct (String.prefix (MM.mountpoints0_path x) p) eqn:Hx.
        -- split; [apply elem_of_app; right; apply list_elem_of_singleton; reflexivity|].
           split; [exact Hx|]. intros fs Hfs Hp.
           apply elem_of_app in Hfs. destruct Hfs as [Hfs|Hfs].
           ++ specialize (Hmax fs Hfs Hp). lia.
           ++ apply list_elem_of_singleton in Hfs. subst fs. lia.
        -- split; [apply elem_of_app; left; exact Hin|].
           split; [exact Hpre|]. intros fs Hfs Hp.
           apply elem_of_app in Hfs. destruct Hfs as [Hfs|Hfs]; [apply Hmax; assumption|].
           apply list_elem_of_singleton in Hfs. subst fs. congruence.
      * split; [apply elem_of_app; left; exact Hin|].
        split; [exact Hpre|]. intros fs Hfs Hp.
        apply elem_of_app in Hfs. destruct Hfs as [Hfs|Hfs]; [apply Hmax; assumption|].
        apply list_elem_of_singleton in Hfs. subst fs. exact Hge.
    + destruct (String.prefix (MM.mountpoints0_path x) p) eqn:Hx.
      * split; [apply elem_of_app; right; apply list_elem_of_singleton; reflexivity|].
        split; [exact Hx|]. intros fs Hfs Hp.
        apply elem_of_app in Hfs. destruct Hfs as [Hfs|Hfs].
        -- rewrite (HR fs Hfs) in Hp. discriminate Hp.
        -- apply list_elem_of_singleton in Hfs. subst fs. lia.
      * intros fs Hfs. apply elem_of_app in Hfs. destruct Hfs as [Hfs|Hfs]; [apply HR, Hfs|].
        apply list_elem_of_singleton in Hfs. subst fs. exact Hx.
Qed.

(** X16. [filesystem( path )] returns a volume on file whose mount path is
    a prefix of [path] and no shorter than any other such mount path; it
    returns nothing exactly when no mount path on file is a prefix. *)
Theorem filesystemOf_longest_prefix (p : string) (m : MM.monitor) :
  match filesystemOf p m with
  | Some r =>
      r ∈ MM.Object_values (MM.filesystemMap m)
      ∧ String.prefix (MM.mountpoints0_path r) p = true
      ∧ ∀ fs, fs ∈ MM.Object_values (MM.filesystemMap m) →
              String.prefix (MM.mountpoints0_path fs) p = true →
              String.length (MM.mountpoints0_path fs)
              ≤ String.length (MM.mountpoints0_path r)
  | None =>
      ∀ fs, fs ∈ MM.Object_values (MM.filesystemMap m) →
            String.prefix (MM.mountpoints0_path fs) p = false
  end.
Proof.
  pose proof (filesystemOf_fold p (state m) [] None) as H. cbn [app] in H.
  unfold MM.filesystemOf.
  destruct (foldl _ None (state m)) as [r|].
  - destruct H as (Hin & Hpre & Hmax).
    { intros fs Hfs. apply elem_of_nil in Hfs. contradiction. }
    split; [apply state_elem in Hin; exact Hin|]. split; [exact Hpre|].
    intros fs Hfs. apply Hmax. apply state_elem. exact Hfs.
  - intros fs Hfs. apply H.
    + intros fs' Hfs'. apply elem_of_nil in Hfs'. contradiction.
    + apply state_elem. exact Hfs.
Qed.

Lemma isMounted_on_file (p : string) (m : MM.monitor) :
  MM.consistent m →
  isMounted p m = true ↔ is_Some (MM.obj_get p (MM.filesystemMap m)).
Proof.
  intros Hcons. unfold MM.isMounted. rewrite obj_get_keys.
  rewrite <- (consistent_paths m Hcons). rewrite List.existsb_exists. split.
  - intros (drive & Hin & Heq). apply String.eqb_eq in Heq. subst p.
    apply list_elem_of_fmap. exists drive. split; [reflexivity|].
    apply list_elem_of_In in Hin. apply state_elem in Hin. exact Hin.
  - intros Hin. apply list_elem_of_fmap in Hin. destruct Hin as (drive & -> & Hin).
    exists drive. split; [|apply String.eqb_refl].
    apply list_elem_of_In. apply state_elem. exact Hin.
Qed.

(** X17. With every volume filed under its own mount path, [isMounted]
    answers whether [filesystemMap] has an entry for exactly that path,
    and then the path has a deletion watcher. *)
Theorem isMounted_iff_on_file (p : string) (m : MM.monitor) :
  MM.consistent m →
  (isMounted p m = true ↔ is_Some (MM.obj_get p (MM.filesystemMap m)))
  ∧ (isMounted p m = true → is_Some (MM.deletionWatchers m !! p)).
Proof.
  intros Hcons. split; [apply isMounted_on_file, Hcons|].
  intros H. apply (isMounted_on_file p m Hcons) in H.
  destruct Hcons as (_ & _ & Hwatched). apply Hwatched, obj_get_keys, H.
Qed.

End Accessors.

Lemma comparator_total_ascii : MM.comparator_total AsciiLocale.localeCompare.
Proof.
  intros a b. unfold AsciiLocale.localeCompare.
  rewrite (String.compare_antisym a b).
  destruct (String.compare b a); cbn; lia.
Qed.

Lemma state_is_sorted_snapshot_witness :
  let state := MM.state AsciiLocale.toUpperCase AsciiLocale.localeCompare MM.darwin in
  state Examples.withBackup ≡ₚ MM.Object_values (MM.filesystemMap Examples.withBackup)
  ∧ MM.sortFilesystems AsciiLocale.toUpperCase AsciiLocale.localeCompare MM.darwin
      (state Examples.withBackup) = state Examples.withBackup.
Proof.
  intros state.
  destruct (state_is_sorted_snapshot AsciiLocale.toUpperCase AsciiLocale.localeCompare
              MM.darwin Examples.withBackup comparator_total_ascii) as (Hp & _ & Hi).
  split; [exact Hp | exact Hi].
Defined.

Lemma isMounted_iff_on_file_witness :
  MM.isMounted AsciiLocale.toUpperCase AsciiLocale.localeCompare MM.darwin
    "/Volumes/Backup" Examples.withBackup = true
  ∧ is_Some (MM.deletionWatchers Examples.withBackup !! "/Volumes/Backup").
Proof.
  destruct (isMounted_iff_on_file AsciiLocale.toUpperCase AsciiLocale.localeCompare
              MM.darwin "/Volumes/Backup" Examples.withBackup consistent_withBackup)
    as [Hiff Hw].
  assert (H : MM.isMounted AsciiLocale.toUpperCase AsciiLocale.localeCompare MM.darwin
                "/Volumes/Backup" Examples.withBackup = true)
    by (apply Hiff; vm_compute; eauto).
  split; [exact H | exact (Hw H)].
Defined.
(** *** More on a pass *)

Lemma uuidMap_last (candidates : list MM.FileSystem) (u : string) :
  ∀ R : gmap string MM.FileSystem,
    foldl (λ R fs, <[MM.uuid fs := fs]> R) R candidates !! u
    = match last (List.filter (λ fs, String.eqb (MM.uuid fs) u) candidates) with
      | Some fs => Some fs
      | None => R !! u
      end.
Proof.
  induction candidates as [|c cs IH]; intros R; cbn [foldl List.filter]; [reflexivity|].
  rewrite IH. destruct (String.eqb_spec (MM.uuid c) u) as [Hu|Hu].
  - rewrite last_cons. destruct (last _); [reflexivity|].
    rewrite Hu. apply lookup_insert_eq.
  - destruct (last _); [reflexivity|]. apply lookup_insert_ne, Hu.
Qed.

Lemma uuidMap_lookup (candidates : list MM.FileSystem) (u : string) :
  MM.uuidFilesystemMap candidates !! u
  = last (List.filter (λ fs, String.eqb (MM.uuid fs) u) candidates).
Proof.
  unfold MM.uuidFilesystemMap. rewrite uuidMap_last.
  destruct (last _); [reflexivity | apply lookup_empty].
Qed.

Lemma uuidMap_None (candidates : list MM.FileSystem) (u : string) :
  MM.uuidFilesystemMap candidates !! u = None ↔ u ∉ map MM.uuid candidates.
Proof.
  rewrite uuidMap_lookup, last_None. split.
  - intros Hnil Hin. apply list_elem_of_fmap in Hin. destruct Hin as (fs & -> & Hin).
    assert (Hfs : fs ∈ List.filter (λ fs0, String.eqb (MM.uuid fs0) (MM.uuid fs)) candidates).
    { apply List_filter_elem. split; [exact Hin | apply String.eqb_refl]. }
    rewrite Hnil in Hfs. apply elem_of_nil in Hfs. exact Hfs.
  - intros Hnot. apply List_filter_nil. intros fs Hfs.
    destruct (String.eqb_spec (MM.uuid fs) u) as [<-|]; [|reflexivity].
    exfalso. apply Hnot. apply list_elem_of_fmap. exists fs. auto.
Qed.

(** Reading the identity map: the last candidate that carries the identity;
    with no such candidate, the inherited member for the name of a member
    of [Object.prototype], and [undefined] otherwise. *)
Lemma uuidMap_read (candidates : list MM.FileSystem) (u : string) :
  MM.plain_get u (MM.uuidFilesystemMap candidates)
  = match last (List.filter (λ fs, String.eqb (MM.uuid fs) u) candidates) with
    | Some fs => MM.Own fs
    | None => if bool_decide (u ∈ MM.Object_prototype) then MM.Inherited u
              else MM.Undefined
    end.
Proof. unfold MM.plain_get. rewrite uuidMap_lookup. reflexivity. Qed.

(** X18. Line 210 reads the identity map as an object literal: under an
    identity that candidates of the pass carry it finds the last of them in
    sorted order; under an identity no candidate carries it finds the
    inherited member when the identity names a member of
    [Object.prototype], and [undefined] only otherwise. *)
Theorem identity_clash_last_wins (candidates : list MM.FileSystem) (u : string) :
  MM.plain_get u (MM.uuidFilesystemMap candidates)
  = match last (List.filter (λ fs, String.eqb (MM.uuid fs) u) candidates) with
    | Some fs => MM.Own fs
    | None => if bool_decide (u ∈ MM.Object_prototype) then MM.Inherited u
              else MM.Undefined
    end
  ∧ (MM.plain_get u (MM.uuidFilesystemMap candidates) = MM.Undefined
     ↔ (u ∉ map MM.uuid candidates) ∧ (u ∉ MM.Object_prototype)).
Proof.
  split; [apply uuidMap_read|].
  rewrite plain_get_Undefined, uuidMap_None. reflexivity.
Qed.

Lemma settle_throws (candidates : list MM.FileSystem) (m : MM.monitor)
    (lstat : string → StatResult) (k : nat) (c : MM.FileSystem) (code : string) :
  candidates !! k = Some c →
  Functions.isDirectory (lstat (MM.mountpoints0_path c)) = Throw code →
  ∀ order events,
    k ∈ order →
    ∃ err fs,
      MM.settle candidates (MM.oldFilesystems candidates m) lstat order events = Throw err
      ∧ fs ∈ candidates
      ∧ lstat (MM.mountpoints0_path fs) = StatError err
      ∧ err ≠ "ENOENT".
Proof.
  intros Hc Hthrow. induction order as [|k0 order IH]; intros events Hk.
  - apply elem_of_nil in Hk. contradiction.
  - cbn [MM.settle]. unfold MM.oldFilesystems at 1. rewrite list_lookup_fmap.
    destruct (candidates !! k0) as [fs|] eqn:E; cbn.
    + destruct (Functions.isDirectory (lstat (MM.mountpoints0_path fs))) as [b|err] eqn:Ed.
      * apply IH. apply elem_of_cons in Hk. destruct Hk as [->|Hk]; [|exact Hk].
        rewrite Hc in E. injection E as <-. rewrite Hthrow in Ed. discriminate Ed.
      * exists err, fs. split; [reflexivity|].
        split; [eapply list_elem_of_lookup_2, E|].
        unfold Functions.isDirectory in Ed.
        destruct (lstat (MM.mountpoints0_path fs)) as [d|code']; [discriminate Ed|].
        destruct (String.eqb_spec code' "ENOENT") as [|Hne]; [discriminate Ed|].
        injection Ed as <-. auto.
    + apply IH. apply elem_of_cons in Hk. destruct Hk as [->|Hk]; [|exact Hk].
      rewrite Hc in E. discriminate E.
Qed.

Lemma set_pass_last (m : MM.monitor) (ph ph' : MM.pass) :
  MM.set_pass (length (MM.inflight m)) ph (MM.set_inflight (MM.inflight m ++ [ph']) m)
  = MM.set_inflight (MM.inflight m ++ [ph]) m.
Proof. unfold MM.set_pass. cbn. rewrite insert_last. reflexivity. Qed.

Lemma inflight_last (m : MM.monitor) (ph : MM.pass) :
  MM.inflight (MM.set_inflight (MM.inflight m ++ [ph]) m) !! length (MM.inflight m)
  = Some ph.
Proof. cbn. apply list_lookup_middle. reflexivity. Qed.

Section PassMore.

Variable toUpperCase : string → string.
Variable localeCompare : string → string → Z.
Variable v5 : string → string → string.
Variable sep : ascii.
Variable process_platform : MM.platform.

Abbreviation state := (MM.state toUpperCase localeCompare process_platform).
Abbreviation isMounted := (MM.isMounted toUpperCase localeCompare process_platform).
Abbreviation newState := (MM.newState toUpperCase localeCompare v5 sep process_platform).
Abbreviation unsortedState := (MM.unsortedState v5 sep process_platform).
Abbreviation finishPass := (MM.finishPass toUpperCase localeCompare process_platform).
Abbreviation intervalFunction :=
  (MM.intervalFunction toUpperCase localeCompare v5 sep process_platform).
Abbreviation passEvents := (MM.passEvents toUpperCase localeCompare v5 sep process_platform).

Lemma finishPass_inflight (candidates : list MM.FileSystem)
    (mounted : list MM.FileSystemEvent) (m : MM.monitor) :
  MM.inflight (MM.state_of (finishPass candidates mounted m)) = MM.inflight m.
Proof.
  apply (finishPass_keeps toUpperCase localeCompare process_platform
           (λ m', MM.inflight m' = MM.inflight m)); [auto | | | reflexivity].
  - intros event m0 H. unfold MM._onMount.
    destruct (MM.event_filesystem event); exact H.
  - intros event m0 H. unfold MM._onUnmount.
    destruct (MM.event_filesystem event); [|exact H]. cbn.
    destruct (MM.deletionWatchers m0 !! _); exact H.
Qed.

(** A pass whose probes fail only with "not found" comes down to lines
    209-223 run on the [Mount] events of the confirmed new candidates. *)
Lemma intervalFunction_unfold (devices : list MM.BlockDevice)
    (filesystems : list MM.FsSize) (lstat : string → StatResult)
    (latency : nat → nat) (m : MM.monitor) :
  MM.no_io_error lstat →
  intervalFunction devices filesystems lstat latency m
  = finishPass (newState devices filesystems)
      (map MM.Mount
         (List.filter (λ fs, MM.is_dir lstat fs && MM.is_new (MM.filesystemMap m) fs)
            (MM.settled (newState devices filesystems) latency)))
      (MM.set_inflight (MM.inflight m ++ [MM.Settled]) m).
Proof.
  intros Hok.
  unfold MM.intervalFunction, MM.beginPass. cbv zeta. unfold MM.enumerationDone.
  rewrite inflight_last.
  generalize (newState devices filesystems). intros candidates.
  destruct candidates as [|c cs].
  - rewrite set_pass_last.
    change (MM.settled [] latency) with (@nil MM.FileSystem).
    cbn [List.filter map].
    pose proof (finishPass_inflight [] []
                  (MM.set_inflight (MM.inflight m ++ [MM.Settled]) m)) as Hp.
    destruct (finishPass [] [] _) as [m'|err m']; [|reflexivity].
    cbn [MM.andThen]. unfold MM.probesDone. cbn [MM.state_of] in Hp. rewrite Hp.
    rewrite inflight_last. reflexivity.
  - cbn [MM.andThen]. rewrite set_pass_last. unfold MM.probesDone.
    rewrite inflight_last.
    change (MM.oldFilesystems (c :: cs)
              (MM.set_inflight (MM.inflight m ++ [MM.Enumerating]) m))
      with (MM.oldFilesystems (c :: cs) m).
    rewrite (mountEvents_spec _ _ _ _ Hok).
    rewrite set_pass_last. reflexivity.
Qed.

(** X19. A pass in a stopped monitor emits its events, "changed" and
    "refresh" like any other, but records nothing: [filesystemMap],
    [deletionWatchers] and the watcher objects are as before, so the next
    pass will report the same mounts again. *)
Theorem stopped_pass_records_nothing (devices : list MM.BlockDevice)
    (filesystems : list MM.FsSize) (lstat : string → StatResult)
    (latency : nat → nat) (m : MM.monitor) :
  MM.uninstalled m →
  MM.no_io_error lstat →
  ∃ events,
    passEvents devices filesystems lstat latency m = Return events
    ∧ intervalFunction devices filesystems lstat latency m
      = MM.Done (MM.set_emitted
                   (MM.emitted m ++ MM.emissions events
                    ++ [("changed", None); ("refresh", None)])
                   (MM.set_inflight (MM.inflight m ++ [MM.Settled]) m))
    ∧ passEvents devices filesystems lstat latency
        (MM.state_of (intervalFunction devices filesystems lstat latency m))
      = Return events.
Proof.
  intros Hun Hok. eexists. split.
  { unfold MM.passEvents. rewrite (mountEvents_spec _ _ _ _ Hok). reflexivity. }
  rewrite (intervalFunction_unfold _ _ _ _ _ Hok). unfold MM.finishPass.
  rewrite emitEvents_uninstalled by exact Hun. cbn [MM.andThen].
  rewrite emit_uninstalled by exact Hun. cbn [MM.andThen].
  rewrite emit_uninstalled by exact Hun.
  split.
  - cbn. rewrite <- !app_assoc. reflexivity.
  - cbn [MM.state_of]. unfold MM.passEvents.
    rewrite (mountEvents_spec _ _ _ _ Hok). reflexivity.
Qed.

(** X20. One probe that fails with an error other than "not found" rejects
    the whole pass: it throws that probe's (or an earlier failing probe's)
    error, emits nothing, not even "changed" or "refresh", and leaves the
    maps as they are. *)
Theorem failing_probe_discards_the_pass (devices : list MM.BlockDevice)
    (filesystems : list MM.FsSize) (lstat : string → StatResult)
    (latency : nat → nat) (m : MM.monitor) (c : MM.FileSystem) (code : string) :
  c ∈ newState devices filesystems →
  lstat (MM.mountpoints0_path c) = StatError code →
  code ≠ "ENOENT" →
  ∃ err fs,
    intervalFunction devices filesystems lstat latency m
    = MM.Thrown err (MM.set_inflight (MM.inflight m ++ [MM.Settled]) m)
    ∧ passEvents devices filesystems lstat latency m = Throw err
    ∧ fs ∈ newState devices filesystems
    ∧ lstat (MM.mountpoints0_path fs) = StatError err
    ∧ err ≠ "ENOENT".
Proof.
  intros Hc Hstat Hcode.
  unfold MM.passEvents, MM.intervalFunction, MM.beginPass. cbv zeta.
  unfold MM.enumerationDone. rewrite inflight_last.
  revert Hc. generalize (newState devices filesystems). intros candidates Hc.
  apply list_elem_of_lookup_1 in Hc. destruct Hc as [k Hk].
  assert (Hthrow : Functions.isDirectory (lstat (MM.mountpoints0_path c)) = Throw code).
  { rewrite Hstat. cbn. destruct (String.eqb_spec code "ENOENT"); [contradiction | reflexivity]. }
  destruct (settle_throws candidates m lstat k c code Hk Hthrow
              (MM.completionOrder latency (length candidates)) [])
    as (err & fs & Hsettle & Hfs & Hfail & Herr).
  { rewrite completionOrder_Permutation. apply elem_of_seq.
    apply lookup_lt_Some in Hk. lia. }
  exists err, fs.
  destruct candidates as [|c0 cs]; [apply elem_of_nil in Hfs; contradiction|].
  cbn [MM.andThen]. rewrite set_pass_last. unfold MM.probesDone.
  rewrite inflight_last.
  change (MM.oldFilesystems (c0 :: cs)
            (MM.set_inflight (MM.inflight m ++ [MM.Enumerating]) m))
    with (MM.oldFilesystems (c0 :: cs) m).
  unfold MM.mountEvents. rewrite Hsettle.
  rewrite set_pass_last. auto.
Qed.

End PassMore.

Lemma uninstalled_stop_idle : MM.uninstalled (MM.stop Examples.idle).
Proof. reflexivity. Qed.

Lemma stopped_pass_records_nothing_witness :
  ∃ events,
    Examples.passEvents [Examples.backup] [] Examples.allDirectories Examples.inOrder
      (MM.stop Examples.idle) = Return events
    ∧ events = [MM.Mount (MM.ofDevice Examples.backup)]
    ∧ MM.filesystemMap
        (MM.state_of (Examples.intervalFunction [Examples.backup] []
                        Examples.allDirectories Examples.inOrder (MM.stop Examples.idle)))
      = [].
Proof.
  destruct (stopped_pass_records_nothing AsciiLocale.toUpperCase AsciiLocale.localeCompare
              AsciiLocale.v5 "/"%char MM.darwin [Examples.backup] []
              Examples.allDirectories Examples.inOrder (MM.stop Examples.idle)
              uninstalled_stop_idle no_io_error_allDirectories)
    as (events & Hev & Hrun & _).
  exists events. split; [exact Hev|]. split.
  - unfold Examples.passEvents in *.
    assert (H : Return events = Return [MM.Mount (MM.ofDevice Examples.backup)])
      by (rewrite <- Hev; vm_compute; reflexivity).
    injection H as ->. reflexivity.
  - unfold Examples.intervalFunction. rewrite Hrun. reflexivity.
Defined.

Lemma failing_probe_discards_the_pass_witness :
  let lstat := λ p : string,
    if String.eqb p "/Volumes/Backup" then StatError "EACCES" else Stats true in
  ∃ err,
    Examples.intervalFunction [Examples.backup; Examples.alpha] [] lstat Examples.inOrder
      Examples.idle
    = MM.Thrown err (MM.set_inflight (MM.inflight Examples.idle ++ [MM.Settled]) Examples.idle)
    ∧ err ≠ "ENOENT".
Proof.
  intros lstat.
  destruct (failing_probe_discards_the_pass AsciiLocale.toUpperCase
              AsciiLocale.localeCompare AsciiLocale.v5 "/"%char MM.darwin
              [Examples.backup; Examples.alpha] [] lstat Examples.inOrder Examples.idle
              (MM.ofDevice Examples.backup) "EACCES")
    as (err & fs & Hrun & _ & _ & _ & Herr).
  - vm_compute. apply elem_of_cons. right. apply elem_of_cons. left. reflexivity.
  - reflexivity.
  - discriminate.
  - exists err. split; [exact Hrun | exact Herr].
Defined.
(** *** What a pass does to the maps *)

Lemma events_mount_elem (lstat : string → StatResult) (F : list (string * MM.FileSystem))
    (candidates : list MM.FileSystem) (latency : nat → nat)
    (U : gmap string MM.FileSystem) (olds : list MM.FileSystem) (c : MM.FileSystem) :
  MM.Mount c ∈ map MM.Mount
                 (List.filter (λ fs, MM.is_dir lstat fs && MM.is_new F fs)
                    (MM.settled candidates latency))
               ++ MM.diffEvents U olds
  ↔ c ∈ candidates ∧ MM.is_dir lstat c = true
    ∧ MM.obj_get (MM.mountpoints0_path c) F = None.
Proof.
  rewrite elem_of_app. split.
  - intros [H|H]; [|exfalso; eapply diff_no_mount, H].
    apply list_elem_of_fmap in H. destruct H as (fs & [= ->] & H).
    apply List_filter_elem in H. destruct H as [Hin Hb].
    apply andb_true_iff in Hb. destruct Hb as [Hd Hn].
    rewrite settled_Permutation in Hin. split; [exact Hin|]. split; [exact Hd|].
    unfold MM.is_new in Hn. destruct (MM.obj_get _ F); [discriminate Hn | reflexivity].
  - intros (Hin & Hd & Hn). left. apply list_elem_of_fmap. exists c. split; [reflexivity|].
    apply List_filter_elem. split; [rewrite settled_Permutation; exact Hin|].
    unfold MM.is_new. rewrite Hd, Hn. reflexivity.
Qed.

Lemma events_unmount_elem (mounted : list MM.FileSystem)
    (U : gmap string MM.FileSystem) (olds : list MM.FileSystem) (o : MM.FileSystem) :
  MM.Unmount o ∈ map MM.Mount mounted ++ MM.diffEvents U olds
  ↔ o ∈ olds ∧ MM.plain_get (MM.uuid o) U = MM.Undefined.
Proof.
  rewrite elem_of_app. split.
  - intros [H|H].
    + apply list_elem_of_fmap in H. destruct H as (fs & [=] & _).
    + apply list_elem_of_omap in H. destruct H as (old & Hin & H).
      destruct (MM.plain_get (MM.uuid old) U) as [fs|member|] eqn:E.
      * destruct (negb _); discriminate H.
      * discriminate H.
      * injection H as <-. auto.
  - intros [Hin HU]. right. apply diff_unmount_elem; assumption.
Qed.


Lemma events_inherited_elem (mounted : list MM.FileSystem)
    (U : gmap string MM.FileSystem) (olds : list MM.FileSystem)
    (member : string) (o : MM.FileSystem) :
  MM.RenameInherited member o ∈ map MM.Mount mounted ++ MM.diffEvents U olds
  ↔ o ∈ olds ∧ MM.plain_get (MM.uuid o) U = MM.Inherited member.
Proof.
  rewrite elem_of_app. split.
  - intros [H|H].
    + apply list_elem_of_fmap in H. destruct H as (fs & [=] & _).
    + apply list_elem_of_omap in H. destruct H as (old & Hin & H).
      destruct (MM.plain_get (MM.uuid old) U) as [fs|member'|] eqn:E.
      * destruct (negb _); discriminate H.
      * injection H as <- <-. auto.
      * discriminate H.
  - intros [Hin HU]. right. apply diff_inherited_elem; assumption.
Qed.

(** A volume on file is found under its own mount path. *)
Lemma consistent_filed (m : MM.monitor) (old : MM.FileSystem) :
  MM.consistent m →
  old ∈ MM.Object_values (MM.filesystemMap m) →
  MM.obj_get (MM.mountpoints0_path old) (MM.filesystemMap m) = Some old.
Proof.
  intros (Hkeyed & Hnd & _) Hold.
  apply list_elem_of_fmap in Hold. destruct Hold as ([k v] & -> & Hin).
  rewrite Forall_forall in Hkeyed. rewrite (Hkeyed _ Hin). cbn.
  apply obj_get_NoDup; assumption.
Qed.

Lemma List_filter_sublist {A} (f : A → bool) (l : list A) :
  List.filter f l `sublist_of` l.
Proof.
  induction l as [|x l IH]; cbn; [constructor|].
  destruct (f x); [apply sublist_skip | apply sublist_cons]; exact IH.
Qed.

Section PassEffects.

Variable toUpperCase : string → string.
Variable localeCompare : string → string → Z.
Variable v5 : string → string → string.
Variable sep : ascii.
Variable process_platform : MM.platform.

Abbreviation state := (MM.state toUpperCase localeCompare process_platform).
Abbreviation isMounted := (MM.isMounted toUpperCase localeCompare process_platform).
Abbreviation newState := (MM.newState toUpperCase localeCompare v5 sep process_platform).
Abbreviation intervalFunction :=
  (MM.intervalFunction toUpperCase localeCompare v5 sep process_platform).
Abbreviation passEvents := (MM.passEvents toUpperCase localeCompare v5 sep process_platform).
Abbreviation filteredDevices := (MM.filteredDevices process_platform).
Abbreviation filteredFileSystems := (MM.filteredFileSystems process_platform).
Abbreviation not_ignored := (MM.not_ignored process_platform).

Lemma intervalFunction_in_step (devices : list MM.BlockDevice)
    (filesystems : list MM.FsSize) (lstat : string → StatResult)
    (latency : nat → nat) (m : MM.monitor) :
  MM.no_io_error lstat →
  MM.in_step m →
  MM.in_step (MM.state_of (intervalFunction devices filesystems lstat latency m)).
Proof.
  intros Hok Hstep. rewrite (intervalFunction_unfold _ _ _ _ _ _ _ _ _ _ Hok).
  apply finishPass_in_step. exact Hstep.
Qed.

(** A pass in a started monitor whose maps are in step: its events are
    applied to [filesystemMap] in order, and the maps are in step again. *)
Lemma pass_effects (devices : list MM.BlockDevice) (filesystems : list MM.FsSize)
    (lstat : string → StatResult) (latency : nat → nat) (m : MM.monitor) :
  MM.installed m →
  MM.in_step m →
  MM.no_io_error lstat →
  ∃ m', passEvents devices filesystems lstat latency m
        = Return (map MM.Mount
                    (List.filter
                       (λ fs, MM.is_dir lstat fs && MM.is_new (MM.filesystemMap m) fs)
                       (MM.settled (newState devices filesystems) latency))
                  ++ MM.diffEvents (MM.uuidFilesystemMap (newState devices filesystems))
                       (state m))
        ∧ intervalFunction devices filesystems lstat latency m = MM.Done m'
        ∧ MM.filesystemMap m'
          = foldl MM.applyEvent (MM.filesystemMap m)
              (map MM.Mount
                 (List.filter
                    (λ fs, MM.is_dir lstat fs && MM.is_new (MM.filesystemMap m) fs)
                    (MM.settled (newState devices filesystems) latency))
               ++ MM.diffEvents (MM.uuidFilesystemMap (newState devices filesystems))
                    (state m))
        ∧ MM.in_step m'.
Proof.
  intros Hinst Hstep Hok.
  destruct (intervalFunction_spec toUpperCase localeCompare v5 sep process_platform
              devices filesystems lstat latency m Hinst (proj1 Hstep) Hok)
    as (Hev & m' & Hrun & HF & _).
  exists m'. split; [exact Hev|]. split; [exact Hrun|]. split; [exact HF|].
  pose proof (intervalFunction_in_step devices filesystems lstat latency m Hok Hstep) as H.
  rewrite Hrun in H. exact H.
Qed.

(** X21. A volume on file whose identity the enumeration no longer lists,
    and whose identity does not name a member of [Object.prototype], is
    unmounted by the pass: afterwards its mount path is in neither map and
    [isMounted] denies it. *)
Theorem unmounted_volume_is_gone (devices : list MM.BlockDevice)
    (filesystems : list MM.FsSize) (lstat : string → StatResult)
    (latency : nat → nat) (m : MM.monitor) (old : MM.FileSystem) :
  MM.installed m →
  MM.in_step m →
  MM.no_io_error lstat →
  old ∈ MM.Object_values (MM.filesystemMap m) →
  MM.uuid old ∉ map MM.uuid (newState devices filesystems) →
  MM.uuid old ∉ MM.Object_prototype →
  ∃ events m',
    passEvents devices filesystems lstat latency m = Return events
    ∧ intervalFunction devices filesystems lstat latency m = MM.Done m'
    ∧ MM.Unmount old ∈ events
    ∧ MM.obj_get (MM.mountpoints0_path old) (MM.filesystemMap m') = None
    ∧ MM.deletionWatchers m' !! MM.mountpoints0_path old = None
    ∧ isMounted (MM.mountpoints0_path old) m' = false.
Proof.
  intros Hinst Hstep Hok Hold Hnot Hplain.
  destruct (pass_effects devices filesystems lstat latency m Hinst Hstep Hok)
    as (m' & Hev & Hrun & HF & Hstep').
  eexists. exists m'. split; [exact Hev|]. split; [exact Hrun|].
  assert (Hun : MM.Unmount old
                ∈ map MM.Mount
                    (List.filter
                       (λ fs, MM.is_dir lstat fs && MM.is_new (MM.filesystemMap m) fs)
                       (MM.settled (newState devices filesystems) latency))
                  ++ MM.diffEvents (MM.uuidFilesystemMap (newState devices filesystems))
                       (state m)).
  { apply events_unmount_elem. split; [apply state_elem; exact Hold|].
    apply plain_get_Undefined. split; [apply uuidMap_None; exact Hnot | exact Hplain]. }
  assert (Hgone : MM.obj_get (MM.mountpoints0_path old) (MM.filesystemMap m') = None).
  { destruct (MM.obj_get _ (MM.filesystemMap m')) as [v|] eqn:E; [|reflexivity].
    exfalso. rewrite HF in E. apply applyEvents_get in E; [|apply Hstep].
    destruct E as [[_ Hn]|[Hm Hp]].
    - apply Hn. apply unmountPaths_elem. exists old. auto.
    - apply events_mount_elem in Hm. destruct Hm as (_ & _ & Hnew).
      rewrite Hp in Hnew. rewrite (consistent_filed m old (proj1 Hstep) Hold) in Hnew.
      discriminate Hnew. }
  split; [exact Hun|]. split; [exact Hgone|]. split.
  - destruct (MM.deletionWatchers m' !! _) as [ref|] eqn:E; [|reflexivity].
    exfalso. destruct Hstep' as (_ & Hfiled & _).
    assert (H : is_Some (MM.obj_get (MM.mountpoints0_path old) (MM.filesystemMap m'))).
    { apply obj_get_keys, Hfiled. rewrite E. eauto. }
    rewrite Hgone in H. destruct H as [? [=]].
  - destruct (isMounted _ m') eqn:E; [|reflexivity].
    apply isMounted_on_file in E; [|apply Hstep'].
    rewrite Hgone in E. destruct E as [? [=]].
Qed.

(** X22. A candidate whose probe confirms a directory and whose mount path
    is not on file is mounted by the pass: afterwards [isMounted] confirms
    the path, the volume on file there is one the pass mounted, and the
    path has a fresh watcher object built for it. *)
Theorem confirmed_candidate_is_mounted (devices : list MM.BlockDevice)
    (filesystems : list MM.FsSize) (lstat : string → StatResult)
    (latency : nat → nat) (m : MM.monitor) (c : MM.FileSystem) :
  MM.installed m →
  MM.in_step m →
  MM.no_io_error lstat →
  c ∈ newState devices filesystems →
  MM.is_dir lstat c = true →
  MM.obj_get (MM.mountpoints0_path c) (MM.filesystemMap m) = None →
  ∃ events m',
    passEvents devices filesystems lstat latency m = Return events
    ∧ intervalFunction devices filesystems lstat latency m = MM.Done m'
    ∧ MM.Mount c ∈ events
    ∧ isMounted (MM.mountpoints0_path c) m' = true
    ∧ (∃ v, MM.obj_get (MM.mountpoints0_path c) (MM.filesystemMap m') = Some v
            ∧ MM.Mount v ∈ events)
    ∧ ∃ ref w, MM.deletionWatchers m' !! MM.mountpoints0_path c = Some ref
               ∧ MM.heap m' !! ref = Some w
               ∧ FDW._path w = MM.mountpoints0_path c
               ∧ FDW._callback w = MM.OnDeleted (MM.mountpoints0_path c).
Proof.
  intros Hinst Hstep Hok Hc Hdir Hnew.
  destruct (pass_effects devices filesystems lstat latency m Hinst Hstep Hok)
    as (m' & Hev & Hrun & HF & Hstep').
  eexists. exists m'. split; [exact Hev|]. split; [exact Hrun|].
  assert (Hm : MM.Mount c
               ∈ map MM.Mount
                   (List.filter
                      (λ fs, MM.is_dir lstat fs && MM.is_new (MM.filesystemMap m) fs)
                      (MM.settled (newState devices filesystems) latency))
                 ++ MM.diffEvents (MM.uuidFilesystemMap (newState devices filesystems))
                      (state m)).
  { apply events_mount_elem. auto. }
  assert (Hpres : is_Some (MM.obj_get (MM.mountpoints0_path c) (MM.filesystemMap m'))).
  { rewrite HF. apply applyEvents_present; [right; exists c; auto|].
    intros Hu. apply unmountPaths_elem in Hu. destruct Hu as (old & Hu & Hp).
    apply events_unmount_elem in Hu. destruct Hu as [Hold _].
    apply state_elem in Hold.
    rewrite <- Hp, (consistent_filed m old (proj1 Hstep) Hold) in Hnew.
    discriminate Hnew. }
  split; [exact Hm|]. split; [apply isMounted_on_file; [apply Hstep' | exact Hpres]|].
  split.
  - destruct Hpres as [v Hv]. exists v. split; [exact Hv|].
    rewrite HF in Hv. apply applyEvents_get in Hv; [|apply Hstep].
    destruct Hv as [[Hv _]|[Hv _]]; [congruence | exact Hv].
  - destruct Hstep' as ((_ & _ & Hwatched) & _ & Hrefs).
    destruct (Hwatched (MM.mountpoints0_path c)) as [ref Href]; [apply obj_get_keys, Hpres|].
    destruct (Hrefs _ _ Href) as (w & Hw & Hpath & Hcb).
    exists ref, w. auto.
Qed.

(** A volume on file for whose identity line 210 finds anything at all
    keeps its entry as it is. *)
Lemma kept_unless_undefined (devices : list MM.BlockDevice)
    (filesystems : list MM.FsSize) (lstat : string → StatResult)
    (latency : nat → nat) (m : MM.monitor) (old : MM.FileSystem) :
  MM.installed m →
  MM.in_step m →
  MM.no_io_error lstat →
  old ∈ MM.Object_values (MM.filesystemMap m) →
  MM.plain_get (MM.uuid old) (MM.uuidFilesystemMap (newState devices filesystems))
  ≠ MM.Undefined →
  ∃ m',
    intervalFunction devices filesystems lstat latency m = MM.Done m'
    ∧ (MM.Unmount old
       ∉ map MM.Mount
           (List.filter
              (λ fs, MM.is_dir lstat fs && MM.is_new (MM.filesystemMap m) fs)
              (MM.settled (newState devices filesystems) latency))
         ++ MM.diffEvents (MM.uuidFilesystemMap (newState devices filesystems))
              (state m))
    ∧ (∀ c, MM.Mount c
            ∈ map MM.Mount
                (List.filter
                   (λ fs, MM.is_dir lstat fs && MM.is_new (MM.filesystemMap m) fs)
                   (MM.settled (newState devices filesystems) latency))
              ++ MM.diffEvents (MM.uuidFilesystemMap (newState devices filesystems))
                   (state m) →
            MM.mountpoints0_path c ≠ MM.mountpoints0_path old)
    ∧ MM.obj_get (MM.mountpoints0_path old) (MM.filesystemMap m') = Some old.
Proof.
  intros Hinst Hstep Hok Hold Hfound.
  destruct (pass_effects devices filesystems lstat latency m Hinst Hstep Hok)
    as (m' & Hev & Hrun & HF & Hstep').
  pose proof (consistent_filed m old (proj1 Hstep) Hold) as Hfiled.
  exists m'. split; [exact Hrun|].
  assert (Hkept : MM.Unmount old
                  ∉ map MM.Mount
                      (List.filter
                         (λ fs, MM.is_dir lstat fs && MM.is_new (MM.filesystemMap m) fs)
                         (MM.settled (newState devices filesystems) latency))
                    ++ MM.diffEvents (MM.uuidFilesystemMap (newState devices filesystems))
                         (state m)).
  { intros H. apply events_unmount_elem in H. destruct H as [_ H]. contradiction. }
  assert (Hover : ∀ c,
            MM.Mount c
            ∈ map MM.Mount
                (List.filter
                   (λ fs, MM.is_dir lstat fs && MM.is_new (MM.filesystemMap m) fs)
                   (MM.settled (newState devices filesystems) latency))
              ++ MM.diffEvents (MM.uuidFilesystemMap (newState devices filesystems))
                   (state m) →
            MM.mountpoints0_path c ≠ MM.mountpoints0_path old).
  { intros c Hm Hp. apply events_mount_elem in Hm. destruct Hm as (_ & _ & Hnew).
    rewrite Hp, Hfiled in Hnew. discriminate Hnew. }
  split; [exact Hkept|]. split; [exact Hover|].
  assert (Hpres : is_Some (MM.obj_get (MM.mountpoints0_path old) (MM.filesystemMap m'))).
  { rewrite HF. apply applyEvents_present; [left; rewrite Hfiled; eauto|].
    intros Hu. apply unmountPaths_elem in Hu. destruct Hu as (o & Hu & Hp).
    pose proof Hu as Hu'. apply events_unmount_elem in Hu'. destruct Hu' as [Ho _].
    apply state_elem in Ho.
    pose proof (consistent_filed m o (proj1 Hstep) Ho) as Hfo.
    rewrite Hp, Hfiled in Hfo. injection Hfo as ->. contradiction. }
  destruct Hpres as [v Hv]. rewrite Hv. f_equal.
  rewrite HF in Hv. apply applyEvents_get in Hv; [|apply Hstep].
  destruct Hv as [[Hv _]|[Hv Hp]]; [congruence|].
  exfalso. exact (Hover v Hv Hp).
Qed.




(** X26. The candidates of a pass are exactly the volumes built from the
    device records that pass the four filters and from the filesystem
    records that pass theirs and whose mount path no surviving device has,
    one candidate per surviving record; every candidate has one mount
    point, at its [mount] path, is not ignored, has a size, and is no disk
    image. *)
Theorem candidates_are_filtered (devices : list MM.BlockDevice)
    (filesystems : list MM.FsSize) :
  (∀ dev, dev ∈ filteredDevices devices
          ↔ dev ∈ devices
            ∧ not_ignored (MM.dev_mount dev) = true
            ∧ MM.String_nonempty (MM.dev_size dev) = true
            ∧ MM.dev_physical dev ≠ "Network"
            ∧ MM.dev_protocol dev ≠ "Disk Image")
  ∧ (∀ fs, fs ∈ filteredFileSystems devices filesystems
           ↔ fs ∈ filesystems
             ∧ not_ignored (MM.fs_mount fs) = true
             ∧ MM.String_nonempty (MM.fs_size fs) = true
             ∧ ∀ dev, dev ∈ filteredDevices devices →
                      MM.dev_mount dev ≠ MM.fs_mount fs)
  ∧ (∀ c, c ∈ newState devices filesystems
          ↔ (∃ dev, dev ∈ filteredDevices devices ∧ c = MM.ofDevice dev)
            ∨ (∃ fs, fs ∈ filteredFileSystems devices filesystems
                     ∧ c = MM.ofFsSize v5 sep fs))
  ∧ filteredDevices devices `sublist_of` devices
  ∧ filteredFileSystems devices filesystems `sublist_of` filesystems
  ∧ newState devices filesystems
    ≡ₚ map MM.ofDevice (filteredDevices devices)
       ++ map (MM.ofFsSize v5 sep) (filteredFileSystems devices filesystems)
  ∧ Forall (λ c, MM.mountpoints c
                 = ({| MM.path := MM.mount c; MM.mp_label := MM.label c |}, [])
                 ∧ not_ignored (MM.mount c) = true
                 ∧ MM.String_nonempty (MM.size c) = true
                 ∧ MM.protocol c ≠ "Disk Image")
      (newState devices filesystems).
Proof.
  assert (HD : ∀ dev, dev ∈ filteredDevices devices
                ↔ dev ∈ devices
                  ∧ not_ignored (MM.dev_mount dev) = true
                  ∧ MM.String_nonempty (MM.dev_size dev) = true
                  ∧ MM.dev_physical dev ≠ "Network"
                  ∧ MM.dev_protocol dev ≠ "Disk Image").
  { intros dev. unfold MM.filteredDevices. rewrite !List_filter_elem.
    rewrite !negb_true_iff, !String.eqb_neq. tauto. }
  assert (HS : ∀ fs, fs ∈ filteredFileSystems devices filesystems
                ↔ fs ∈ filesystems
                  ∧ not_ignored (MM.fs_mount fs) = true
                  ∧ MM.String_nonempty (MM.fs_size fs) = true
                  ∧ ∀ dev, dev ∈ filteredDevices devices →
                           MM.dev_mount dev ≠ MM.fs_mount fs).
  { intros fs. unfold MM.filteredFileSystems. rewrite !List_filter_elem.
    rewrite Nat.eqb_eq, length_zero_iff_nil.
    assert (Hnone : List.filter (λ dev, String.eqb (MM.dev_mount dev) (MM.fs_mount fs))
                      (filteredDevices devices) = []
                    ↔ ∀ dev, dev ∈ filteredDevices devices →
                             MM.dev_mount dev ≠ MM.fs_mount fs).
    { split.
      - intros Hnil dev Hdev Heq.
        assert (Hin : dev ∈ List.filter
                              (λ dev0, String.eqb (MM.dev_mount dev0) (MM.fs_mount fs))
                              (filteredDevices devices)).
        { apply List_filter_elem. split; [exact Hdev | apply String.eqb_eq, Heq]. }
        rewrite Hnil in Hin. apply elem_of_nil in Hin. exact Hin.
      - intros Hall. apply List_filter_nil. intros dev Hdev.
        apply String.eqb_neq, Hall, Hdev. }
    unfold MM.filteredDevices in Hnone |- *. rewrite Hnone. tauto. }
  assert (HC : ∀ c, c ∈ newState devices filesystems
                ↔ (∃ dev, dev ∈ filteredDevices devices ∧ c = MM.ofDevice dev)
                  ∨ (∃ fs, fs ∈ filteredFileSystems devices filesystems
                           ∧ c = MM.ofFsSize v5 sep fs)).
  { intros c. unfold MM.newState. rewrite sortFilesystems_Permutation.
    unfold MM.unsortedState. rewrite elem_of_app, !list_elem_of_fmap.
    split; (intros [(x & H1 & H2)|(x & H1 & H2)]; [left|right]; exists x; auto). }
  split; [exact HD|]. split; [exact HS|]. split; [exact HC|].
  split; [|split; [|split; [apply sortFilesystems_Permutation|]]].
  - unfold MM.filteredDevices.
    repeat (etrans; [apply List_filter_sublist|]). reflexivity.
  - unfold MM.filteredFileSystems.
    repeat (etrans; [apply List_filter_sublist|]). reflexivity.
  - apply Forall_forall. intros c Hc. apply HC in Hc.
    destruct Hc as [(dev & Hdev & ->)|(fs & Hfs & ->)].
    + apply HD in Hdev. destruct Hdev as (_ & H1 & H2 & _ & H4). cbn. auto.
    + apply HS in Hfs. destruct Hfs as (_ & H1 & H2 & _).
      cbn. repeat split; auto; discriminate.
Qed.

(** X29. A volume on file whose identity names a member of
    [Object.prototype] is never unmounted by a pass: when the enumeration
    no longer lists the identity, line 210 finds the inherited member, the
    pass reports a rename that carries the member in place of a volume,
    and the entry stays on file. *)
Theorem prototype_named_volume_stays (devices : list MM.BlockDevice)
    (filesystems : list MM.FsSize) (lstat : string → StatResult)
    (latency : nat → nat) (m : MM.monitor) (old : MM.FileSystem) :
  MM.installed m →
  MM.in_step m →
  MM.no_io_error lstat →
  old ∈ MM.Object_values (MM.filesystemMap m) →
  MM.uuid old ∉ map MM.uuid (newState devices filesystems) →
  MM.uuid old ∈ MM.Object_prototype →
  ∃ events m',
    passEvents devices filesystems lstat latency m = Return events
    ∧ intervalFunction devices filesystems lstat latency m = MM.Done m'
    ∧ MM.RenameInherited (MM.uuid old) old ∈ events
    ∧ (MM.Unmount old ∉ events)
    ∧ MM.obj_get (MM.mountpoints0_path old) (MM.filesystemMap m') = Some old
    ∧ isMounted (MM.mountpoints0_path old) m' = true.
Proof.
  intros Hinst Hstep Hok Hold Hnot Hplain.
  assert (Hread : MM.plain_get (MM.uuid old)
                    (MM.uuidFilesystemMap (newState devices filesystems))
                  = MM.Inherited (MM.uuid old)).
  { apply plain_get_Inherited. split; [apply uuidMap_None, Hnot | auto]. }
  destruct (kept_unless_undefined devices filesystems lstat latency m old
              Hinst Hstep Hok Hold) as (m' & Hrun & Hkept & _ & Hget).
  { rewrite Hread. discriminate. }
  eexists. exists m'. split.
  { unfold MM.passEvents. rewrite (mountEvents_spec _ _ _ _ Hok). reflexivity. }
  split; [exact Hrun|]. split.
  { apply events_inherited_elem. split; [apply state_elem, Hold | exact Hread]. }
  split; [exact Hkept|]. split; [exact Hget|].
  apply isMounted_on_file; [|rewrite Hget; eauto].
  pose proof (intervalFunction_in_step devices filesystems lstat latency m Hok Hstep) as H.
  rewrite Hrun in H. apply H.
Qed.

End PassEffects.

(** *** The handlers *)

(** X27. [_onRename], which no listener is registered with, would replace
    the entry and the watcher of the event's mount path: the old watcher is
    stopped and a new watcher object takes its place; without a watcher on
    file for the path it throws after deleting the entry; for an event
    whose [filesystem] is a member of [Object.prototype] it throws at
    once. *)
Theorem onRename_replaces_the_watcher (event : MM.FileSystemEvent) (m : MM.monitor) :
  match MM.event_filesystem event with
  | Some filesystem =>
      let p := MM.mountpoints0_path filesystem in
      match MM.deletionWatchers m !! p with
      | Some ref =>
          ∃ m', MM._onRename event m = MM.Done m'
                ∧ MM.obj_get p (MM.filesystemMap m') = Some filesystem
                ∧ MM.deletionWatchers m'
                  = <[p := length (MM.heap m)]> (MM.deletionWatchers m)
                ∧ MM.heap m'
                  = alter FDW.stop ref (MM.heap m) ++ [FDW.watch p (MM.OnDeleted p)]
                ∧ ∀ k, k ≠ p →
                       MM.obj_get k (MM.filesystemMap m')
                       = MM.obj_get k (MM.filesystemMap m)
      | None =>
          MM._onRename event m
          = MM.Thrown "TypeError"
              (MM.set_filesystemMap (MM.obj_delete p (MM.filesystemMap m)) m)
      end
  | None => MM._onRename event m = MM.Thrown "TypeError" m
  end.
Proof.
  unfold MM._onRename, MM._onUnmount, MM._onMount.
  destruct (MM.event_filesystem event) as [fs|]; [|reflexivity].
  cbv zeta. cbn. set (p := MM.mountpoints0_path fs).
  destruct (MM.deletionWatchers m !! p) as [ref|] eqn:E; [|reflexivity].
  eexists. split; [reflexivity|]. cbn. fold p.
  split; [rewrite obj_get_set, String.eqb_refl; reflexivity|].
  split; [rewrite length_alter; apply insert_delete_eq|].
  split; [reflexivity|].
  intros k Hk. rewrite obj_get_set.
  destruct (String.eqb_spec p k) as [Heq|_]; [congruence|].
  apply obj_get_delete_ne. congruence.
Qed.

Section WatcherInMonitor.

Variable dirname : string → string.
Variable basename : string → string.
Variable METHOD : FDW.method.
Variable budget : nat.

Abbreviation watcherTask := (MM.watcherTask dirname basename METHOD budget).

(** X28. In a started monitor whose maps are in step, a watcher whose
    callback fires for a path on file unmounts the volume: "unmount", "all"
    and "change" are emitted, the path leaves both maps, the watcher filed
    under it is stopped, and the maps are in step again. *)
Theorem watcher_unmounts_in_started_monitor (m : MM.monitor) (ref : nat)
    (w w' : @FDW.t MM.callback) (e : FDW.event) (p : string) (fs : MM.FileSystem) :
  MM.installed m →
  MM.in_step m →
  MM.heap m !! ref = Some w →
  FDW.by_owner e = false →
  FDW.step dirname basename METHOD budget w e = Some w' →
  FDW.calls w' = FDW.calls w ++ [MM.OnDeleted p] →
  MM.obj_get p (MM.filesystemMap m) = Some fs →
  ∃ m' filed,
    watcherTask ref e m = Some m'
    ∧ MM.emitted m'
      = MM.emitted m ++ [("unmount", Some (MM.Unmount fs));
                         ("all", Some (MM.Unmount fs));
                         ("change", None)]
    ∧ MM.filesystemMap m' = MM.obj_delete p (MM.filesystemMap m)
    ∧ MM.obj_get p (MM.filesystemMap m') = None
    ∧ MM.deletionWatchers m !! p = Some filed
    ∧ MM.deletionWatchers m' = delete p (MM.deletionWatchers m)
    ∧ MM.heap m' = alter FDW.stop filed (<[ref := w']> (MM.heap m))
    ∧ MM.in_step m'.
Proof.
  intros Hinst Hstep Hw He Hrun Hcalls Hfs.
  assert (Hpath : MM.mountpoints0_path fs = p).
  { destruct Hstep as ((Hkeyed & _) & _). rewrite Forall_forall in Hkeyed.
    apply (Hkeyed (p, fs)). apply obj_get_elem, Hfs. }
  destruct Hstep as (Hcons & Hfiled & Hrefs).
  destruct Hcons as (Hkeyed & Hnd & Hwatched).
  destruct (Hwatched p) as [filed Hp]; [apply obj_get_keys; eauto|].
  pose proof (watcherTask_in_step dirname basename METHOD budget ref e m) as Hkeep.
  unfold MM.watcherTask in *. rewrite He, Hw, Hrun, Hcalls in *.
  rewrite drop_app_length in *. cbn [foldl MM.runCallback] in *.
  specialize (Hkeep _ (conj (conj Hkeyed (conj Hnd Hwatched)) (conj Hfiled Hrefs)) eq_refl).
  revert Hkeep.
  unfold MM.onDeleted. cbn [MM.filesystemMap MM.set_heap]. rewrite Hfs.
  rewrite emit_unmount by exact Hinst.
  unfold MM._onUnmount. cbn [MM.event_filesystem]. cbv zeta. rewrite Hpath.
  cbn [MM.deletionWatchers MM.set_filesystemMap MM.set_emitted MM.set_heap].
  rewrite Hp. cbn [MM.andThen].
  rewrite emit_other; [|exact Hinst | repeat constructor]. cbn [MM.andThen].
  rewrite emit_other; [|exact Hinst | repeat constructor].
  cbn [MM.state_of]. intros Hkeep.
  eexists. exists filed. split; [reflexivity|].
  split; [cbn; rewrite <- !app_assoc; reflexivity|].
  split; [reflexivity|].
  split; [cbn; apply obj_get_delete_eq, Hnd|].
  split; [reflexivity|]. split; [reflexivity|]. split; [reflexivity|].
  exact Hkeep.
Qed.

End WatcherInMonitor.
(** *** The theorems at concrete inputs *)

Lemma in_step_idle : MM.in_step Examples.idle.
Proof.
  apply (mstep_in_step PosixPath.dirname PosixPath.basename FDW.PARENT 8
           AsciiLocale.toUpperCase AsciiLocale.localeCompare AsciiLocale.v5 "/"%char
           MM.darwin MM.loaded Examples.idle (MM.EnumerationDone 0 [] []) in_step_loaded).
  reflexivity.
Qed.

Lemma in_step_withBackup : MM.in_step Examples.withBackup.
Proof.
  apply intervalFunction_in_step; [apply no_io_error_allDirectories | apply in_step_idle].
Qed.

Lemma installed_watchingBackup : MM.installed Examples.watchingBackup.
Proof. vm_compute. reflexivity. Qed.

Lemma in_step_watchingBackup : MM.in_step Examples.watchingBackup.
Proof.
  apply (watcherTask_in_step PosixPath.dirname PosixPath.basename FDW.PARENT 8 0
           (FDW.ProbeDone 0 (Stats true)) Examples.withBackup Examples.watchingBackup
           in_step_withBackup).
  vm_compute. reflexivity.
Qed.

Lemma unmounted_volume_is_gone_witness :
  ∃ m', Examples.intervalFunction [] [] Examples.allDirectories Examples.inOrder
          Examples.withBackup = MM.Done m'
        ∧ MM.isMounted AsciiLocale.toUpperCase AsciiLocale.localeCompare MM.darwin
            "/Volumes/Backup" m' = false
        ∧ MM.deletionWatchers m' !! "/Volumes/Backup" = None.
Proof.
  destruct (unmounted_volume_is_gone AsciiLocale.toUpperCase AsciiLocale.localeCompare
              AsciiLocale.v5 "/"%char MM.darwin [] [] Examples.allDirectories
              Examples.inOrder Examples.withBackup (MM.ofDevice Examples.backup)
              installed_withBackup in_step_withBackup no_io_error_allDirectories)
    as (events & m' & _ & Hrun & _ & _ & HD & HM).
  - vm_compute. apply elem_of_cons. left. reflexivity.
  - vm_compute. apply not_elem_of_nil.
  - unfold MM.Object_prototype. rewrite !not_elem_of_cons.
    repeat split; try discriminate. apply not_elem_of_nil.
  - exists m'. split; [exact Hrun|]. split; [exact HM | exact HD].
Defined.

Lemma in_step_withOdd : MM.in_step Examples.withOdd.
Proof.
  apply intervalFunction_in_step; [apply no_io_error_allDirectories | apply in_step_idle].
Qed.

Lemma prototype_named_volume_stays_witness :
  ∃ m', Examples.passEvents [] [] Examples.allDirectories Examples.inOrder
          Examples.withOdd
        = Return [MM.RenameInherited "constructor" (MM.ofDevice Examples.odd)]
        ∧ Examples.intervalFunction [] [] Examples.allDirectories Examples.inOrder
            Examples.withOdd = MM.Done m'
        ∧ MM.obj_get "/Volumes/Odd" (MM.filesystemMap m') = Some (MM.ofDevice Examples.odd)
        ∧ MM.isMounted AsciiLocale.toUpperCase AsciiLocale.localeCompare MM.darwin
            "/Volumes/Odd" m' = true.
Proof.
  destruct (prototype_named_volume_stays AsciiLocale.toUpperCase
              AsciiLocale.localeCompare AsciiLocale.v5 "/"%char MM.darwin [] []
              Examples.allDirectories Examples.inOrder Examples.withOdd
              (MM.ofDevice Examples.odd))
    as (events & m' & _ & Hrun & _ & _ & Hget & HM).
  - reflexivity.
  - apply in_step_withOdd.
  - apply no_io_error_allDirectories.
  - vm_compute. apply elem_of_cons. left. reflexivity.
  - vm_compute. apply not_elem_of_nil.
  - apply elem_of_cons. left. reflexivity.
  - exists m'. split; [vm_compute; reflexivity|]. split; [exact Hrun|].
    split; [exact Hget | exact HM].
Defined.

Lemma confirmed_candidate_is_mounted_witness :
  ∃ m', Examples.intervalFunction [Examples.backup] [] Examples.allDirectories
          Examples.inOrder Examples.idle = MM.Done m'
        ∧ MM.isMounted AsciiLocale.toUpperCase AsciiLocale.localeCompare MM.darwin
            "/Volumes/Backup" m' = true
        ∧ ∃ ref w, MM.deletionWatchers m' !! "/Volumes/Backup" = Some ref
                   ∧ MM.heap m' !! ref = Some w
                   ∧ FDW._path w = "/Volumes/Backup".
Proof.
  destruct (confirmed_candidate_is_mounted AsciiLocale.toUpperCase
              AsciiLocale.localeCompare AsciiLocale.v5 "/"%char MM.darwin
              [Examples.backup] [] Examples.allDirectories Examples.inOrder
              Examples.idle (MM.ofDevice Examples.backup)
              installed_idle in_step_idle no_io_error_allDirectories)
    as (events & m' & _ & Hrun & _ & HM & _ & ref & w & Href & Hw & Hpath & _).
  - vm_compute. apply elem_of_cons. left. reflexivity.
  - reflexivity.
  - vm_compute. reflexivity.
  - exists m'. split; [exact Hrun|]. split; [exact HM|].
    exists ref, w. split; [exact Href|]. split; [exact Hw | exact Hpath].
Defined.




Lemma watcher_unmounts_in_started_monitor_witness :
  ∃ m', MM.watcherTask PosixPath.dirname PosixPath.basename FDW.PARENT 8 0
          (FDW.Notify "/Volumes" "rename" "Backup") Examples.watchingBackup
        = Some m'
        ∧ MM.emitted m'
          = MM.emitted Examples.watchingBackup
            ++ [("unmount", Some (MM.Unmount (MM.ofDevice Examples.backup)));
                ("all", Some (MM.Unmount (MM.ofDevice Examples.backup)));
                ("change", None)]
        ∧ MM.filesystemMap m' = []
        ∧ MM.deletionWatchers m' !! "/Volumes/Backup" = None.
Proof.
  epose proof (watcher_unmounts_in_started_monitor PosixPath.dirname PosixPath.basename
                 FDW.PARENT 8 Examples.watchingBackup 0 _ _
                 (FDW.Notify "/Volumes" "rename" "Backup") "/Volumes/Backup"
                 (MM.ofDevice Examples.backup)
                 installed_watchingBackup in_step_watchingBackup) as H.
  edestruct H as (m' & filed & Hrun & HE & HF & _ & _ & HD & _); clear H.
  - vm_compute. reflexivity.
  - reflexivity.
  - vm_compute. reflexivity.
  - vm_compute. reflexivity.
  - vm_compute. reflexivity.
  - exists m'. split; [exact Hrun|]. split; [exact HE|]. split.
    + rewrite HF. vm_compute. reflexivity.
    + rewrite HD. apply lookup_delete_eq.
Defined.
